(** * polochon: the library and index engine, and the slug helper

    A shallow embedding of [lib/video.go] (the [slug] helper) and of the
    library package ([AddMovie], [AddShowEpisode], [DeleteMovie],
    [DeleteShowEpisode], [RebuildIndex] and its two scan workers), with the
    properties of the specification stated and proved over it.

    Further parts of the code follow the same scheme: the dispatch on the
    kind of video, the movie handlers and the route table of the HTTP
    server, the qualities, the module registry, and the [tmdb] and
    [transmission] modules. *)

From Stdlib Require Import ZArith String Ascii List Bool Lia.
From Stdlib Require Import Numbers.DecimalString.
From Stdlib Require Numbers.DecimalPos.
From stdpp Require Import gmap strings list fin_maps sorting.

Open Scope Z_scope.

(* ===================================================================== *)
(** * Part I: definitions                                                 *)
(* ===================================================================== *)

(** ** [lib/video.go]: slug *)

Module Slug.

(** A Go string is read rune by rune by [strings.ToLower] and by the
      [regexp] engine; [text] is that sequence of code points. *)
Definition rune := Z.
Definition text := list rune.

Definition hyphen : rune := 45.     (* '-' *)
Definition space : rune := 32.      (* ' ' *)
Definition underscore : rune := 95. (* '_' *)

(** ASCII strings of the development seen as runes (tests, examples). *)
Definition of_string (s : string) : text :=
    map (fun a => Z.of_N (N_of_ascii a)) (list_ascii_of_string s).

Definition is_lower (r : rune) : bool := (97 <=? r) && (r <=? 122).
Definition is_digit (r : rune) : bool := (48 <=? r) && (r <=? 57).

Section WithUnicodeTables.
(** [unicode.To(unicode.LowerCase, r)]: the case tables of Go's
        [unicode] package, consulted for runes above [MaxASCII] only. *)
Variable unicode_lower : rune -> rune.

(** [unicode.ToLower]. *)
Definition unicode_ToLower (r : rune) : rune :=
      if r <=? 127 then
        if (65 <=? r) && (r <=? 90) then r + (97 - 65) else r
      else unicode_lower r.

(** [strings.ToLower]. *)
Definition strings_ToLower (s : text) : text := map unicode_ToLower s.

(** [invalidSlugPattern = `[^a-z0-9 _-]`]: [slug_valid r] says that the
        one-rune class does NOT match [r]. *)
Definition slug_valid (r : rune) : bool :=
      is_lower r || is_digit r || (r =? space) || (r =? underscore) || (r =? hyphen).

(** [invalidSlugPattern.ReplaceAllString(text, EmptyString)]: every match, that is
        every rune of the negated class, is dropped. *)
Definition remove_invalid (s : text) : text := List.filter slug_valid s.

(** [\s] of Go's regexp syntax: [[\t\n\f\r ]]. *)
Definition is_space (r : rune) : bool :=
      (r =? 9) || (r =? 10) || (r =? 12) || (r =? 13) || (r =? 32).

(** [whiteSpacePattern.ReplaceAllString(text, separator)] with the
        one-rune separator: [\s+] is greedy, so the matches are the maximal
        runs of white space, each replaced by one separator. [in_run] tells
        that the previous rune belonged to the run being replaced. *)
Fixpoint replace_runs (sep : rune) (in_run : bool) (s : text) : text :=
      match s with
      | [] => []
      | r :: s' =>
          if is_space r then
            if in_run then replace_runs sep true s'
            else sep :: replace_runs sep true s'
          else r :: replace_runs sep false s'
      end.

Definition replace_whitespace (sep : rune) (s : text) : text :=
      replace_runs sep false s.

Fixpoint trim_left (c : rune) (s : text) : text :=
      match s with
      | [] => []
      | r :: s' => if r =? c then trim_left c s' else s
      end.

Definition trim_right (c : rune) (s : text) : text :=
      rev (trim_left c (rev s)).

(** [strings.Trim(text, separator)] for the one-rune cutset. *)
Definition strings_Trim (c : rune) (s : text) : text :=
      trim_right c (trim_left c s).

(** [func slug(text string) string]. *)
Definition slug (t : text) : text :=
      let separator := hyphen in
      let t := strings_ToLower t in
      let t := remove_invalid t in
      let t := replace_whitespace separator t in
      let t := strings_Trim separator t in
      t.

(** The alphabet the claim promises: lowercase letters, digits,
        underscores and hyphens. *)
Definition slug_char (r : rune) : bool :=
      is_lower r || is_digit r || (r =? underscore) || (r =? hyphen).

End WithUnicodeTables.

End Slug.

(** ** Go's [path], [path/filepath] (Unix) and [fmt] verbs used by the library *)

Module GoPath.
Local Open Scope string_scope.

Definition is_slash (c : ascii) : bool := Ascii.eqb c "/"%char.

(** [strings.Split(s, "/")]. *)
Fixpoint split_slash (s : string) : list string :=
    match s with
    | EmptyString => [EmptyString]
    | String c s' =>
        if is_slash c then EmptyString :: split_slash s'
        else match split_slash s' with
             | [] => [String c EmptyString]
             | h :: t => String c h :: t
             end
    end.

(** [strings.Join(l, "/")]. *)
Fixpoint join_slash (l : list string) : string :=
    match l with
    | [] => EmptyString
    | [x] => x
    | x :: l' => x ++ "/" ++ join_slash l'
    end.

Definition rooted (s : string) : bool :=
    match s with
    | String c _ => is_slash c
    | EmptyString => false
    end.

(** The lexical processing of [path.Clean]: empty and [.] elements are
      dropped; [..] removes the element before it, is dropped at the start
      of a rooted path and is kept at the start of a relative one.
      [stack] holds the elements kept so far, last first. *)
Fixpoint clean_elems (root : bool) (stack : list string) (cs : list string)
    : list string :=
    match cs with
    | [] => rev stack
    | c :: cs' =>
        if String.eqb c EmptyString || String.eqb c "." then clean_elems root stack cs'
        else if String.eqb c ".." then
          match stack with
          | top :: stack' =>
              if String.eqb top ".." then clean_elems root (c :: stack) cs'
              else clean_elems root stack' cs'
          | [] =>
              if root then clean_elems root [] cs'
              else clean_elems root [c] cs'
          end
        else clean_elems root (c :: stack) cs'
    end.

(** [path.Clean] (and [filepath.Clean] on Unix). *)
Definition path_Clean (s : string) : string :=
    let body := join_slash (clean_elems (rooted s) [] (split_slash s)) in
    if rooted s then "/" ++ body
    else if String.eqb body EmptyString then "." else body.

(** [path.Split]: the text up to and including the final slash, and the
      text after it. *)
Fixpoint path_Split (s : string) : string * string :=
    match s with
    | EmptyString => (EmptyString, EmptyString)
    | String c s' =>
        let (d, f) := path_Split s' in
        match d with
        | EmptyString => if is_slash c then ("/", f) else (EmptyString, String c f)
        | _ => (String c d, f)
        end
    end.

(** [path.Dir] and, on Unix, [filepath.Dir]. *)
Definition path_Dir (s : string) : string := path_Clean (fst (path_Split s)).
Definition filepath_Dir (s : string) : string := path_Dir s.

Fixpoint strip_leading_slashes (s : string) : string :=
    match s with
    | String c s' => if is_slash c then strip_leading_slashes s' else s
    | EmptyString => EmptyString
    end.

Definition string_rev (s : string) : string :=
    string_of_list_ascii (rev (list_ascii_of_string s)).

Definition strip_trailing_slashes (s : string) : string :=
    string_rev (strip_leading_slashes (string_rev s)).

(** [path.Base]. *)
Definition path_Base (s : string) : string :=
    if String.eqb s EmptyString then "."
    else
      let f := snd (path_Split (strip_trailing_slashes s)) in
      if String.eqb f EmptyString then "/" else f.

(** The suffix of a slash-free name that starts at its last dot. *)
Fixpoint last_dot_suffix (f : string) : string :=
    match f with
    | EmptyString => EmptyString
    | String c f' =>
        match last_dot_suffix f' with
        | EmptyString => if Ascii.eqb c "."%char then f else EmptyString
        | e => e
        end
    end.

(** [path.Ext]: the suffix beginning at the final dot in the final
      slash-separated element, empty if there is no dot. *)
Definition path_Ext (s : string) : string := last_dot_suffix (snd (path_Split s)).

Fixpoint drop_empty_front (l : list string) : list string :=
    match l with
    | e :: l' => if String.eqb e EmptyString then drop_empty_front l' else l
    | [] => []
    end.

(** [filepath.Join] on Unix: the elements from the first non-empty one on
      are joined with slashes and cleaned; no non-empty element gives the
      empty string. *)
Definition filepath_Join (elems : list string) : string :=
    match drop_empty_front elems with
    | [] => EmptyString
    | l => path_Clean (join_slash l)
    end.

(** The [%d] verb of [fmt.Sprintf]. *)
Definition fmt_d (n : Z) : string := NilEmpty.string_of_int (Z.to_int n).

(** How the operating system resolves a path name to a directory entry:
      the names to follow from the root (relative names are taken from a
      working directory that is the root). *)
Definition resolve (s : string) : list string :=
    clean_elems true [] (split_slash s).

End GoPath.

(** ** Entities of the [polochon] package used by the library *)

(** Modelled from the spec: the [Movie], [Show] and [ShowEpisode] structs of
    [lib/] are not among the sources; the fields are those the library
    reads (section 3 of the specification). *)
Module Movie.
Record t := mk {
    ImdbID : string; Title : string; Year : Z; Path : string;
    Fanart : string; Thumb : string }.
Definition zero : t := mk EmptyString EmptyString 0 EmptyString EmptyString EmptyString.
Definition with_Path (p : string) (m : t) : t :=
    mk (ImdbID m) (Title m) (Year m) p (Fanart m) (Thumb m).
End Movie.

Module Show.
Record t := mk {
    ImdbID : string; Title : string;
    Fanart : string; Banner : string; Poster : string }.
Definition zero : t := mk EmptyString EmptyString EmptyString EmptyString EmptyString.
End Show.

Module ShowEpisode.
Record t := mk {
    ShowImdbID : string; ShowTitle : string; Season : Z; Episode : Z;
    Path : string; Show : option Show.t }.
Definition zero : t := mk EmptyString EmptyString 0 0 EmptyString None.
Definition with_Path (p : string) (e : t) : t :=
    mk (ShowImdbID e) (ShowTitle e) (Season e) (Episode e) p (Show e).
Definition with_ShowImdbID (id : string) (e : t) : t :=
    mk id (ShowTitle e) (Season e) (Episode e) (Path e) (Show e).
End ShowEpisode.

(** ** The state the library works on *)

Module State.
Import GoPath.
Local Open Scope string_scope.

(** What a sidecar document holds once decoded. The file path of an
      entity is not part of its sidecar. *)
Inductive Content :=
  | Raw                                   (* video data, images: no NFO document *)
  | EmptyDoc                              (* an empty document *)
  | MovieDoc (m : Movie.t)
  | EpisodeDoc (e : ShowEpisode.t)
  | ShowDoc (s : Show.t).

Inductive Node :=
  | NDir
  | NFile (c : Content)
  | NLink (target : string).

Definition IsDir (n : Node) : bool :=
    match n with NDir => true | _ => false end.

Inductive error :=
  | ErrInvalidIndexVideoType
  | ErrMissingMovieFilePath
  | ErrMissingMovieImageURL
  | ErrMissingShowImageURL
  | ErrMissingShowEpisodeFilePath
  | ErrNotFound                            (* index: identifier absent *)
  | ErrParse (path : string)               (* sidecar codec: malformed content *)
  | ErrPath (op : string) (path : string)  (* an [*os.PathError] or [*os.LinkError] *)
  | ErrDownload (url : string)             (* image fetch *)
  | ErrDetails (fatal : bool)              (* detail-fetch capability *)
  | SkipDir.                               (* [filepath.SkipDir] *)

Inductive Event :=
  | EvRemoveAll (path : string)
  | EvMkdir (path : string)
  | EvRename (oldpath newpath : string)
  | EvSymlink (target link : string)
  | EvWriteNFO (path : string)
  | EvDownload (url path : string)
  | EvMovieIndexAdd (id path : string)
  | EvMovieIndexRemove (id : string)
  | EvMovieIndexClear
  | EvShowIndexAdd (id : string) (season episode : Z) (path : string)
  | EvShowIndexRemoveEpisode (id : string) (season episode : Z)
  | EvShowIndexRemoveSeason (id : string) (season : Z)
  | EvShowIndexRemoveShow (id : string)
  | EvShowIndexClear
  | EvLogError (msg : string)              (* [log.Errorf] *)
  | EvLogWarn (msg : string).              (* [log.Warnf] *)

(** The file tree (directory entries by resolved name), the two indexes
      of the [Library] struct, and [rootWalked], the local of
      [buildShowIndex] that its walk callback captures. *)
Record World := mkWorld {
    fs : gmap (list string) Node;
    movieIndex : gmap string string;
    showIndex : gmap string (gmap Z (gmap Z string));
    rootWalked : bool }.

Definition set_fs (f : gmap (list string) Node) (w : World) : World :=
    mkWorld f (movieIndex w) (showIndex w) (rootWalked w).
Definition set_movieIndex (i : gmap string string) (w : World) : World :=
    mkWorld (fs w) i (showIndex w) (rootWalked w).
Definition set_showIndex (i : gmap string (gmap Z (gmap Z string))) (w : World) : World :=
    mkWorld (fs w) (movieIndex w) i (rootWalked w).
Definition set_rootWalked (b : bool) (w : World) : World :=
    mkWorld (fs w) (movieIndex w) (showIndex w) b.

(** How a call ends: a value (for a Go [error] result, [Ok tt] is [nil]),
      a non-nil error, a run-time panic, or the recursion bound of the
      model's directory walk being hit. *)
Inductive result (A : Type) :=
  | Ok (a : A)
  | Err (e : error)
  | Panic
  | Exhausted.
Arguments Ok {A} a.
Arguments Err {A} e.
Arguments Panic {A}.
Arguments Exhausted {A}.

(** A computation: from a world to its outcome, the world it leaves, and
      the mutating calls and log lines it made, in order. *)
Definition M (A : Type) : Type := World -> result A * World * list Event.

Definition ret {A} (a : A) : M A := fun w => (Ok a, w, []).
Definition fail {A} (e : error) : M A := fun w => (Err e, w, []).
Definition panic {A} : M A := fun w => (Panic, w, []).

Definition bind {A B} (c : M A) (k : A -> M B) : M B :=
    fun w =>
      match c w with
      | (Ok a, w1, t1) => let '(r, w2, t2) := k a w1 in (r, w2, (t1 ++ t2)%list)
      | (Err e, w1, t1) => (Err e, w1, t1)
      | (Panic, w1, t1) => (Panic, w1, t1)
      | (Exhausted, w1, t1) => (Exhausted, w1, t1)
      end.

(** Running a call and looking at its [error] result, as in
      [if err := f(); err != nil]. *)
Definition try {A} (c : M A) : M (A + error) :=
    fun w =>
      match c w with
      | (Ok a, w1, t1) => (Ok (inl a), w1, t1)
      | (Err e, w1, t1) => (Ok (inr e), w1, t1)
      | (Panic, w1, t1) => (Panic, w1, t1)
      | (Exhausted, w1, t1) => (Exhausted, w1, t1)
      end.

Definition gets {A} (f : World -> A) : M A := fun w => (Ok (f w), w, []).
Definition emit (e : Event) : M unit := fun w => (Ok tt, w, [e]).
Definition modify (f : World -> World) : M unit := fun w => (Ok tt, f w, []).

(** [return err] for an [error] value that may be [nil]. *)
Definition return_error (e : option error) : M unit :=
    match e with
    | Some e => fail e
    | None => ret tt
    end.

Definition error_of (r : unit + error) : option error :=
    match r with
    | inl _ => None
    | inr e => Some e
    end.

(** The monad operations, for stdpp's [x ← c; k] and [c;; k]. *)
#[global] Instance M_ret : MRet M := @ret.
#[global] Instance M_bind : MBind M := fun A B k c => bind c k.

Definition res {A} (o : result A * World * list Event) : result A := fst (fst o).
Definition world {A} (o : result A * World * list Event) : World := snd (fst o).
Definition trace {A} (o : result A * World * list Event) : list Event := snd o.

(** The outcome [o] of a run that came after the events [t]. *)
Definition after {A} (t : list Event) (o : result A * World * list Event)
    : result A * World * list Event :=
    (res o, world o, (t ++ trace o)%list).

(** [post c w Q]: the outcome, final world and trace of [c] run from [w]
      satisfy [Q]. *)
Definition post {A} (c : M A) (w : World)
    (Q : result A -> World -> list Event -> Prop) : Prop :=
    Q (res (c w)) (world (c w)) (trace (c w)).

End State.


(** ** The operating system, the sidecar codec and the outside services *)

Module Sys.
Import GoPath State.
Local Open Scope string_scope.

(** What the library cannot decide by itself: which directory entries the
      operating system refuses to unlink, which directories it refuses to
      list, which URLs the image fetcher retrieves, and what the
      detail-fetch capability of a show answers (the completed show and,
      on failure, whether the error is fatal). *)
Record Outside := mkOutside {
    undeletable : list string -> bool;
    unreadable : list string -> bool;
    fetch_ok : string -> bool;
    show_details : Show.t -> Show.t * option bool }.

Section WithOutside.
Variable out : Outside.

Definition parent (k : list string) : list string := removelast k.

Definition prefixb (d k : list string) : bool :=
      bool_decide (d `prefix_of` k).

Definition is_dir_at (k : list string) (w : World) : bool :=
      match fs w !! k with
      | Some NDir => true
      | _ => false
      end.

(** Modelled from the spec: the [exists] helper of the library package
        is not among the sources; "the destination directory already
        exists". *)
Definition exists_ (path : string) : M bool :=
      fun w => (Ok (bool_decide (is_Some (fs w !! resolve path))), w, []).

(** An entry cannot go while it, or an entry below it, is refused. *)
Definition stuck (w : World) (k : list string) : bool :=
      existsb (fun q => undeletable out q && prefixb k q) (map fst (map_to_list (fs w))).

(** [os.RemoveAll]: removes the entry and everything below it; an absent
        path and the empty path are not errors; it removes everything it
        can and reports the first failure. *)
Definition os_RemoveAll (path : string) : M unit :=
      fun w =>
        if String.eqb path EmptyString then (Ok tt, w, [EvRemoveAll path])
        else
          let d := resolve path in
          let keep (kv : list string * Node) : Prop :=
            Is_true (negb (prefixb d (fst kv)) || stuck w (fst kv)) in
          let w' := set_fs (filter keep (fs w)) w in
          if existsb (fun k => prefixb d k && stuck w k) (map fst (map_to_list (fs w)))
          then (Err (ErrPath "unlinkat" path), w', [EvRemoveAll path])
          else (Ok tt, w', [EvRemoveAll path]).

(** [os.Mkdir]: the entry must be new and its parent a directory. *)
Definition os_Mkdir (path : string) : M unit :=
      fun w =>
        let d := resolve path in
        if bool_decide (is_Some (fs w !! d)) then
          (Err (ErrPath "mkdir" path), w, [EvMkdir path])
        else if negb (is_dir_at (parent d) w) then
          (Err (ErrPath "mkdir" path), w, [EvMkdir path])
        else (Ok tt, set_fs (<[d := NDir]> (fs w)) w, [EvMkdir path]).

Definition rekey (o n k : list string) : list string :=
      if prefixb o k then (n ++ drop (length o) k)%list else k.

(** [os.Rename]: the source must exist, the parent of the target must be
        a directory, the target must not be a directory nor lie below the
        source; the source entry moves with everything below it and
        replaces a file at the target. *)
Definition os_Rename (oldpath newpath : string) : M unit :=
      fun w =>
        let o := resolve oldpath in
        let n := resolve newpath in
        match fs w !! o with
        | None => (Err (ErrPath "rename" oldpath), w, [EvRename oldpath newpath])
        | Some _ =>
            if negb (is_dir_at (parent n) w) || is_dir_at n w || (prefixb o n && negb (bool_decide (o = n)))
            then (Err (ErrPath "rename" oldpath), w, [EvRename oldpath newpath])
            else
              let moved :=
                map (fun kv : list string * Node => (rekey o n (fst kv), snd kv))
                    (map_to_list (delete n (fs w))) in
              (Ok tt, set_fs (list_to_map moved) w, [EvRename oldpath newpath])
        end.

(** [os.Symlink]: the link entry must be new and its parent a directory. *)
Definition os_Symlink (target link : string) : M unit :=
      fun w =>
        let k := resolve link in
        if bool_decide (is_Some (fs w !! k)) || negb (is_dir_at (parent k) w) then
          (Err (ErrPath "symlink" link), w, [EvSymlink target link])
        else (Ok tt, set_fs (<[k := NLink target]> (fs w)) w, [EvSymlink target link]).

(** Creating or truncating a regular file. *)
Definition write_file (op path : string) (c : Content) (w : World)
      : result unit * World :=
      let k := resolve path in
      if is_dir_at k w || negb (is_dir_at (parent k) w) then (Err (ErrPath op path), w)
      else (Ok tt, set_fs (<[k := NFile c]> (fs w)) w).

(** Opening a file for reading follows symbolic links, a bounded number
        of times. *)
Fixpoint open_follow (hops : nat) (k : list string) (w : World) : option Content :=
      match fs w !! k with
      | Some (NFile c) => Some c
      | Some (NLink target) =>
          match hops with
          | O => None
          | S hops' => open_follow hops' (resolve target) w
          end
      | _ => None
      end.

Definition read_file (path : string) : M Content :=
      fun w =>
        match open_follow 40 (resolve path) w with
        | Some c => (Ok c, w, [])
        | None => (Err (ErrPath "open" path), w, [])
        end.

(** Modelled from the spec: [writeNFOFile] and the sidecar codec are not
        among the sources; "Write(destination, entity) -> error". *)
Definition writeNFOFile (path : string) (doc : Content) : M unit :=
      fun w =>
        let '(r, w') := write_file "open" path doc w in
        (r, w', [EvWriteNFO path]).

(** Modelled from the spec: the image fetcher is not among the sources;
        "download(url, destinationPath) -> error", a blocking retrieval. *)
Definition download (url savePath : string) : M unit :=
      fun w =>
        if fetch_ok out url then
          let '(r, w') := write_file "open" savePath Raw w in
          (r, w', [EvDownload url savePath])
        else (Err (ErrDownload url), w, [EvDownload url savePath]).

Definition log_error (msg : string) : M unit := emit (EvLogError msg).
Definition log_warn (msg : string) : M unit := emit (EvLogWarn msg).

(** [os.Lstat]: the entry itself, a symbolic link is not followed. *)
Definition os_Lstat (path : string) : M Node :=
      fun w =>
        match fs w !! resolve path with
        | Some n => (Ok n, w, [])
        | None => (Err (ErrPath "lstat" path), w, [])
        end.

(** [file.IsDir()] on the [os.FileInfo] handed to a walk callback: a nil
        interface value has no method to call. *)
Definition FileInfo_IsDir (file : option Node) : M bool :=
      match file with
      | Some n => ret (IsDir n)
      | None => panic
      end.

(** The names of the entries of a directory, sorted as [sort.Strings]
        does. *)
Definition entry_name (d k : list string) : option string :=
      if prefixb d k && bool_decide (length k = S (length d)) then last k else None.

Definition entry_names (d : list string) (w : World) : list string :=
      merge_sort (fun a b => Is_true (String.leb a b))
        (omap (fun kv : list string * Node => entry_name d (fst kv)) (map_to_list (fs w))).

Definition readDirNames (path : string) (d : list string) : M (list string) :=
      fun w =>
        if unreadable out d then (Err (ErrPath "open" path), w, [])
        else (Ok (entry_names d w), w, []).

End WithOutside.
End Sys.

(** ** The two indexes *)

(** Modelled from the spec: the [media_index] package ([MovieIndex],
    [ShowIndex]) is not among the sources. Sections 4.1 and 4.2 of the
    specification give the contract: [Add] overwrites, [Remove] and the
    [Path] lookups fail with NotFound on an absent identifier, [Clear]
    empties the index. [RemoveEpisode] leaves the season entry in place,
    to be found empty by [IsSeasonEmpty]; the emptiness checks and
    [RemoveSeason]/[RemoveShow] answer NotFound for an identifier the index
    does not hold. *)
Module Index.
Import State.

Definition MovieIndex_Has (id : string) : M bool :=
    fun w => (Ok (bool_decide (is_Some (movieIndex w !! id))), w, []).

Definition MovieIndex_Add (m : Movie.t) : M unit :=
    fun w =>
      (Ok tt, set_movieIndex (<[Movie.ImdbID m := Movie.Path m]> (movieIndex w)) w,
       [EvMovieIndexAdd (Movie.ImdbID m) (Movie.Path m)]).

Definition MovieIndex_Remove (m : Movie.t) : M unit :=
    fun w =>
      match movieIndex w !! Movie.ImdbID m with
      | Some _ =>
          (Ok tt, set_movieIndex (delete (Movie.ImdbID m) (movieIndex w)) w,
           [EvMovieIndexRemove (Movie.ImdbID m)])
      | None => (Err ErrNotFound, w, [EvMovieIndexRemove (Movie.ImdbID m)])
      end.

Definition MovieIndex_MoviePath (id : string) : M string :=
    fun w =>
      match movieIndex w !! id with
      | Some p => (Ok p, w, [])
      | None => (Err ErrNotFound, w, [])
      end.

Definition MovieIndex_Clear : M unit :=
    fun w => (Ok tt, set_movieIndex ∅ w, [EvMovieIndexClear]).

Definition season_of (w : World) (id : string) (season : Z) : option (gmap Z string) :=
    match showIndex w !! id with
    | Some seasons => seasons !! season
    | None => None
    end.

Definition episode_of (w : World) (id : string) (season episode : Z) : option string :=
    match season_of w id season with
    | Some episodes => episodes !! episode
    | None => None
    end.

Definition ShowIndex_HasEpisode (id : string) (season episode : Z) : M bool :=
    fun w => (Ok (bool_decide (is_Some (episode_of w id season episode))), w, []).

Definition ShowIndex_Add (e : ShowEpisode.t) : M unit :=
    fun w =>
      let id := ShowEpisode.ShowImdbID e in
      let seasons := default ∅ (showIndex w !! id) in
      let episodes := default ∅ (seasons !! ShowEpisode.Season e) in
      let episodes' := <[ShowEpisode.Episode e := ShowEpisode.Path e]> episodes in
      let seasons' := <[ShowEpisode.Season e := episodes']> seasons in
      (Ok tt, set_showIndex (<[id := seasons']> (showIndex w)) w,
       [EvShowIndexAdd id (ShowEpisode.Season e) (ShowEpisode.Episode e) (ShowEpisode.Path e)]).

Definition ShowIndex_RemoveEpisode (e : ShowEpisode.t) : M unit :=
    fun w =>
      let id := ShowEpisode.ShowImdbID e in
      let ev := EvShowIndexRemoveEpisode id (ShowEpisode.Season e) (ShowEpisode.Episode e) in
      match showIndex w !! id with
      | Some seasons =>
          match seasons !! ShowEpisode.Season e with
          | Some episodes =>
              match episodes !! ShowEpisode.Episode e with
              | Some _ =>
                  let seasons' :=
                    <[ShowEpisode.Season e := delete (ShowEpisode.Episode e) episodes]> seasons in
                  (Ok tt, set_showIndex (<[id := seasons']> (showIndex w)) w, [ev])
              | None => (Err ErrNotFound, w, [ev])
              end
          | None => (Err ErrNotFound, w, [ev])
          end
      | None => (Err ErrNotFound, w, [ev])
      end.

Definition ShowIndex_IsSeasonEmpty (id : string) (season : Z) : M bool :=
    fun w =>
      match season_of w id season with
      | Some episodes => (Ok (bool_decide (episodes = ∅)), w, [])
      | None => (Err ErrNotFound, w, [])
      end.

Definition ShowIndex_IsShowEmpty (id : string) : M bool :=
    fun w =>
      match showIndex w !! id with
      | Some seasons => (Ok (bool_decide (seasons = ∅)), w, [])
      | None => (Err ErrNotFound, w, [])
      end.

Definition ShowIndex_RemoveSeason (show : Show.t) (season : Z) : M unit :=
    fun w =>
      let id := Show.ImdbID show in
      match showIndex w !! id with
      | Some seasons =>
          match seasons !! season with
          | Some _ =>
              (Ok tt, set_showIndex (<[id := delete season seasons]> (showIndex w)) w,
               [EvShowIndexRemoveSeason id season])
          | None => (Err ErrNotFound, w, [EvShowIndexRemoveSeason id season])
          end
      | None => (Err ErrNotFound, w, [EvShowIndexRemoveSeason id season])
      end.

Definition ShowIndex_RemoveShow (show : Show.t) : M unit :=
    fun w =>
      let id := Show.ImdbID show in
      match showIndex w !! id with
      | Some _ =>
          (Ok tt, set_showIndex (delete id (showIndex w)) w, [EvShowIndexRemoveShow id])
      | None => (Err ErrNotFound, w, [EvShowIndexRemoveShow id])
      end.

Definition ShowIndex_EpisodePath (id : string) (season episode : Z) : M string :=
    fun w =>
      match episode_of w id season episode with
      | Some p => (Ok p, w, [])
      | None => (Err ErrNotFound, w, [])
      end.

Definition ShowIndex_Clear : M unit :=
    fun w => (Ok tt, set_showIndex ∅ w, [EvShowIndexClear]).

End Index.

(** ** The library package *)

Module Library.
Import GoPath State Sys Index.
Local Open Scope string_scope.

(** The configuration held by the [Library] struct: the two roots of
      [Config] and the video extensions of [fileConfig]. *)
Record Config := mkConfig {
    MovieDir : string;
    ShowDir : string;
    VideoExtentions : list string }.

(** [for _, x := range xs { if err := body(x); err != nil { return err } }] *)
Fixpoint for_each {A} (xs : list A) (body : A -> M unit) : M unit :=
    match xs with
    | [] => ret tt
    | x :: xs' => body x;; for_each xs' body
    end.

(** Modelled from the spec: the [File] methods of [lib/] are not among
      the sources; the sidecar is "<file-without-ext>.nfo" and the artwork
      "fanart.jpg"/"poster.jpg" alongside (section 6). *)
Definition PathWithoutExt (p : string) : string :=
    substring 0 (String.length p - String.length (path_Ext p))%nat p.
Definition NfoPath (p : string) : string := PathWithoutExt p ++ ".nfo".
Definition MovieFanartPath (m : Movie.t) : string :=
    filepath_Join [path_Dir (Movie.Path m); "fanart.jpg"].
Definition MovieThumbPath (m : Movie.t) : string :=
    filepath_Join [path_Dir (Movie.Path m); "poster.jpg"].

(** Modelled from the spec: [NewShowFromEpisode] is not among the
      sources; "a minimal Show from the episode's show identifier/title". *)
Definition NewShowFromEpisode (e : ShowEpisode.t) : Show.t :=
    Show.mk (ShowEpisode.ShowImdbID e) (ShowEpisode.ShowTitle e) EmptyString EmptyString EmptyString.

(** What the codec persists of an entity: not its file path, nor the show
      object attached to an episode. *)
Definition movie_doc (m : Movie.t) : Content := MovieDoc (Movie.with_Path EmptyString m).
Definition episode_doc (e : ShowEpisode.t) : Content :=
    EpisodeDoc (ShowEpisode.mk (ShowEpisode.ShowImdbID e) (ShowEpisode.ShowTitle e)
                  (ShowEpisode.Season e) (ShowEpisode.Episode e) EmptyString None).

(** Modelled from the spec: [readNFOFile] and the codec are not among the
      sources; "Read(source) populates a target entity, fails with
      ParseError on malformed content", an empty document "yields a
      zero-valued entity". One function per kind of target. *)
Definition readNFOFile_movie (path : string) (target : Movie.t) : M Movie.t :=
    c ← read_file path;
    match c with
    | MovieDoc d => ret (Movie.with_Path (Movie.Path target) d)
    | EmptyDoc => ret target
    | _ => fail (ErrParse path)
    end.

Definition readNFOFile_episode (path : string) (target : ShowEpisode.t)
    : M ShowEpisode.t :=
    c ← read_file path;
    match c with
    | EpisodeDoc d => ret (ShowEpisode.with_Path (ShowEpisode.Path target) d)
    | EmptyDoc => ret target
    | _ => fail (ErrParse path)
    end.

Definition readNFOFile_show (path : string) (target : Show.t) : M Show.t :=
    c ← read_file path;
    match c with
    | ShowDoc d => ret d
    | EmptyDoc => ret target
    | _ => fail (ErrParse path)
    end.

Section WithLibrary.
Variable out : Outside.
Variable l : Config.

(** [s.GetDetails(log)] as [addShow] uses it: the errors are logged and
        only a fatal one is returned. *)
Definition GetDetails_logged (s : Show.t) : M Show.t :=
      match show_details out s with
      | (s', None) => ret s'
      | (s', Some fatal) =>
          log_error "details";;
          if fatal then fail (ErrDetails true) else ret s'
      end.

Definition HasMovie (imdbID : string) : M bool := MovieIndex_Has imdbID.

Definition HasShowEpisode (imdbID : string) (season episode : Z) : M bool :=
      ShowIndex_HasEpisode imdbID season episode.

Definition getMovieDir (movie : Movie.t) : string :=
      if negb (Movie.Year movie =? 0)%Z then
        filepath_Join [MovieDir l; Movie.Title movie ++ " (" ++ fmt_d (Movie.Year movie) ++ ")"]
      else filepath_Join [MovieDir l; Movie.Title movie].

Definition newMovieFromPath (path : string) : M Movie.t :=
      let m := Movie.with_Path path Movie.zero in
      readNFOFile_movie (NfoPath path) m.

Definition newEpisodeFromPath (path : string) : M ShowEpisode.t :=
      let se := ShowEpisode.with_Path path ShowEpisode.zero in
      readNFOFile_episode (NfoPath path) se.

Definition newShowFromPath (path : string) : M Show.t :=
      readNFOFile_show path Show.zero.

Definition GetMovie (imdbID : string) : M Movie.t :=
      path ← MovieIndex_MoviePath imdbID;
      newMovieFromPath path.

Definition GetEpisode (imdbID : string) (season episode : Z) : M ShowEpisode.t :=
      path ← ShowIndex_EpisodePath imdbID season episode;
      newEpisodeFromPath path.

Definition DeleteMovie (m : Movie.t) : M unit :=
      let d := filepath_Dir (Movie.Path m) in
      os_RemoveAll out d;;
      MovieIndex_Remove m;;
      ret tt.

(** [AddMovie] assigns [movie.Path]; the assignment is to the caller's
        struct, the model keeps the updated value in [movie']. *)
Definition AddMovie (movie : Movie.t) : M unit :=
      if String.eqb (Movie.Path movie) EmptyString then fail ErrMissingMovieFilePath
      else
        ok ← HasMovie (Movie.ImdbID movie);
        (if ok : bool then
           oldMovie ← GetMovie (Movie.ImdbID movie);
           DeleteMovie oldMovie
         else ret tt);;
        let storePath := getMovieDir movie in
        if String.eqb (path_Dir (Movie.Path movie)) storePath then ret tt
        else
          ok ← exists_ storePath;
          (if ok : bool then os_RemoveAll out storePath else ret tt);;
          os_Mkdir storePath;;
          let newPath := filepath_Join [storePath; path_Base (Movie.Path movie)] in
          let oldPath := Movie.Path movie in
          os_Rename (Movie.Path movie) newPath;;
          let movie' := Movie.with_Path newPath movie in
          r ← try (os_Symlink (Movie.Path movie') oldPath);
          (match r with
           | inr _ => log_warn "Error while making symlink"
           | inl _ => ret tt
           end);;
          writeNFOFile (NfoPath (Movie.Path movie')) (movie_doc movie');;
          MovieIndex_Add movie';;
          if String.eqb (Movie.Fanart movie') EmptyString || String.eqb (Movie.Thumb movie') EmptyString
          then fail ErrMissingMovieImageURL
          else
            for_each
              [(Movie.Fanart movie', MovieFanartPath movie');
               (Movie.Thumb movie', MovieThumbPath movie')]
              (fun img => download out (fst img) (snd img)).

Definition getShowDir (ep : ShowEpisode.t) : string :=
      filepath_Join [ShowDir l; ShowEpisode.ShowTitle ep].

Definition getSeasonDir (ep : ShowEpisode.t) : string :=
      filepath_Join [ShowDir l; ShowEpisode.ShowTitle ep;
                     "Season " ++ fmt_d (ShowEpisode.Season ep)].

Definition showNFOPath (showDir : string) : string :=
      filepath_Join [showDir; "tvshow.nfo"].

Definition addShow (ep : ShowEpisode.t) : M unit :=
      let dir := getShowDir ep in
      let nfoPath := showNFOPath dir in
      found ← exists_ nfoPath;
      if found : bool then ret tt
      else
        s ← match ShowEpisode.Show ep with
            | Some s => ret s
            | None => GetDetails_logged (NewShowFromEpisode ep)
            end;
        found ← exists_ dir;
        (if negb found then os_Mkdir dir else ret tt);;
        writeNFOFile nfoPath (ShowDoc s);;
        if String.eqb (Show.Fanart s) EmptyString || String.eqb (Show.Banner s) EmptyString
           || String.eqb (Show.Poster s) EmptyString
        then fail ErrMissingShowImageURL
        else
          for_each
            [(Show.Fanart s, "fanart.jpg"); (Show.Poster s, "poster.jpg");
             (Show.Banner s, "banner.jpg")]
            (fun img =>
               let savePath := filepath_Join [dir; snd img] in
               download out (fst img) savePath).

Definition DeleteShowEpisode (se : ShowEpisode.t) : M unit :=
      os_RemoveAll out (ShowEpisode.Path se);;
      let pathWithoutExt := PathWithoutExt (ShowEpisode.Path se) in
      for_each ["nfo"; "srt"]
        (fun ext =>
           let fileToDelete := pathWithoutExt ++ "." ++ ext in
           os_RemoveAll out fileToDelete);;
      ShowIndex_RemoveEpisode se;;
      ok ← ShowIndex_IsSeasonEmpty (ShowEpisode.ShowImdbID se) (ShowEpisode.Season se);
      (if ok : bool then
         let seasonDir := getSeasonDir se in
         os_RemoveAll out seasonDir;;
         let show := Show.mk (ShowEpisode.ShowImdbID se) EmptyString EmptyString EmptyString EmptyString in
         ShowIndex_RemoveSeason show (ShowEpisode.Season se)
       else ret tt);;
      ok ← ShowIndex_IsShowEmpty (ShowEpisode.ShowImdbID se);
      (if ok : bool then
         let showDir := getShowDir se in
         os_RemoveAll out showDir;;
         let show := Show.mk (ShowEpisode.ShowImdbID se) EmptyString EmptyString EmptyString EmptyString in
         ShowIndex_RemoveShow show
       else ret tt);;
      ret tt.

Definition AddShowEpisode (ep : ShowEpisode.t) : M unit :=
      if String.eqb (ShowEpisode.Path ep) EmptyString then fail ErrMissingShowEpisodeFilePath
      else
        ok ← HasShowEpisode (ShowEpisode.ShowImdbID ep) (ShowEpisode.Season ep)
               (ShowEpisode.Episode ep);
        (if ok : bool then
           oldEpisode ← GetEpisode (ShowEpisode.ShowImdbID ep) (ShowEpisode.Season ep)
                          (ShowEpisode.Episode ep);
           DeleteShowEpisode oldEpisode
         else ret tt);;
        addShow ep;;
        let seasonDir := getSeasonDir ep in
        found ← exists_ seasonDir;
        (if negb found then os_Mkdir seasonDir else ret tt);;
        if String.eqb (path_Dir (ShowEpisode.Path ep)) seasonDir then ret tt
        else
          let oldPath := ShowEpisode.Path ep in
          let newPath := filepath_Join [seasonDir; path_Base (ShowEpisode.Path ep)] in
          os_Rename (ShowEpisode.Path ep) newPath;;
          let ep' := ShowEpisode.with_Path newPath ep in
          r ← try (os_Symlink (ShowEpisode.Path ep') oldPath);
          (match r with
           | inr _ => log_warn "Error while making symlink"
           | inl _ => ret tt
           end);;
          writeNFOFile (NfoPath (ShowEpisode.Path ep')) (episode_doc ep');;
          ShowIndex_Add ep'.

End WithLibrary.
End Library.

(** ** [filepath.Walk] and the index rebuild ([lib/library/index.go]) *)

Module Rebuild.
Import GoPath State Sys Index Library.
Local Open Scope string_scope.

(** [filepath.WalkFunc]: [info] is nil when the entry could not be
      examined. *)
Definition WalkFunc : Type := string -> option Node -> option error -> M unit.

Definition is_SkipDir (e : error) : bool :=
    match e with SkipDir => true | _ => false end.

Definition exhausted {A} : M A := fun w => (Exhausted, w, []).

(** A bound on the depth of the tree: no entry has more names. *)
Definition walk_fuel (w : World) : nat :=
    S (max_list (map (fun kv : list string * Node => length (fst kv)) (map_to_list (fs w)))).

Section WithLibrary.
Variable out : Outside.
Variable l : Config.

(** [os.Lstat(filename)] for [filename = Join(path, name)], [name] an
        entry of the directory [path] that resolves to [d]. *)
Definition lstat_entry (filename : string) (k : list string) : M Node :=
      fun w =>
        match fs w !! k with
        | Some n => (Ok n, w, [])
        | None => (Err (ErrPath "lstat" filename), w, [])
        end.

(** [walk] of [path/filepath]: a file is handed to the callback; a
        directory is listed first, then handed to the callback together
        with the listing error if any, and its entries are walked in
        lexical order unless either failed. [SkipDir] from a directory
        only skips that directory. [d] is the entry [path] resolves to and
        [fuel] bounds the depth of the recursion. *)
Fixpoint walk (fuel : nat) (path : string) (d : list string) (info : Node)
      (walkFn : WalkFunc) : M unit :=
      match fuel with
      | O => exhausted
      | S fuel' =>
          if negb (IsDir info) then walkFn path (Some info) None
          else
            names ← try (readDirNames out path d);
            let err := match names with inr e => Some e | inl _ => None end in
            err1 ← try (walkFn path (Some info) err);
            match names, err1 with
            | inl names, inl _ =>
                for_each names
                  (fun name =>
                     let filename := filepath_Join [path; name] in
                     let k := (d ++ [name])%list in
                     fileInfo ← try (lstat_entry filename k);
                     match fileInfo with
                     | inr err =>
                         r ← try (walkFn filename None (Some err));
                         match r with
                         | inr e => if negb (is_SkipDir e) then fail e else ret tt
                         | inl _ => ret tt
                         end
                     | inl fileInfo =>
                         r ← try (walk fuel' filename k fileInfo walkFn);
                         match r with
                         | inr e =>
                             if negb (IsDir fileInfo) || negb (is_SkipDir e)
                             then fail e else ret tt
                         | inl _ => ret tt
                         end
                     end)
            | _, _ => return_error (error_of err1)
            end
      end.

(** [filepath.Walk]. *)
Definition filepath_Walk (root : string) (fn : WalkFunc) : M unit :=
      info ← try (os_Lstat root);
      r ← try (match info with
               | inr err => fn root None (Some err)
               | inl info =>
                   fuel ← gets walk_fuel;
                   walk fuel root (resolve root) info fn
               end);
      match r with
      | inr e => if is_SkipDir e then ret tt else fail e
      | inl _ => ret tt
      end.

(** The loop over [l.fileConfig.VideoExtentions]: the file path if its
        extension is one of them, the empty string otherwise. *)
Definition video_path (filePath : string) : string :=
      let ext := path_Ext filePath in
      if existsb (String.eqb ext) (VideoExtentions l) then filePath else EmptyString.

Definition movieWalkFn : WalkFunc :=
      fun filePath file err =>
        match err with
        | Some _ => log_error "library: failed to walk";; ret tt
        | None =>
            isDir ← FileInfo_IsDir file;
            if isDir : bool then ret tt
            else
              let moviePath := video_path filePath in
              if String.eqb moviePath EmptyString then ret tt
              else
                r ← try (newMovieFromPath moviePath);
                match r with
                | inr _ => log_error "library: failed to read movie NFO";; ret tt
                | inl movie => try (MovieIndex_Add movie);; ret tt
                end
        end.

Definition buildMovieIndex : M unit :=
      err ← try (filepath_Walk (MovieDir l) movieWalkFn);
      return_error (error_of err).

Definition episodeWalkFn (imdbID : string) : WalkFunc :=
      fun filePath file err =>
        match err with
        | Some _ => log_error "library: failed to walk";; ret tt
        | None =>
            isDir ← FileInfo_IsDir file;
            if isDir : bool then ret tt
            else
              let epPath := video_path filePath in
              if String.eqb epPath EmptyString then ret tt
              else
                r ← try (newEpisodeFromPath epPath);
                match r with
                | inr _ => log_error "library: failed to read episode NFO";; ret tt
                | inl episode =>
                    let episode := ShowEpisode.with_ShowImdbID imdbID episode in
                    try (ShowIndex_Add episode);; ret tt
                end
        end.

Definition scanEpisodes (imdbID showRootPath : string) : M unit :=
      filepath_Walk showRootPath (episodeWalkFn imdbID);;
      ret tt.

(** The callback of [buildShowIndex]: its [err] argument is not looked
        at before [file] is used. *)
Definition showWalkFn : WalkFunc :=
      fun filePath file err =>
        isDir ← FileInfo_IsDir file;
        if negb isDir then ret tt
        else
          walked ← gets rootWalked;
          if negb walked then modify (set_rootWalked true);; ret tt
          else
            let nfoPath := showNFOPath filePath in
            r ← try (newShowFromPath nfoPath);
            match r with
            | inr _ => log_error "library: failed to read tv show NFO";; ret tt
            | inl show =>
                scanEpisodes (Show.ImdbID show) filePath;;
                fail SkipDir
            end.

Definition buildShowIndex : M unit :=
      modify (set_rootWalked false);;
      filepath_Walk (ShowDir l) showWalkFn;;
      ret tt.

(** [RebuildIndex]: each index is cleared and its worker started; the
        two workers work on different indexes and only read the file tree,
        so their steps commute and the model runs one after the other.
        [movie_first] tells whose error reaches the channel first when both
        report one. A panic in a worker ends the program. *)
Definition RebuildIndex (movie_first : bool) : M unit :=
      MovieIndex_Clear;;
      e1 ← try buildMovieIndex;
      ShowIndex_Clear;;
      e2 ← try buildShowIndex;
      match error_of e1, error_of e2 with
      | Some e1, Some e2 => if movie_first then fail e1 else fail e2
      | Some e1, None => fail e1
      | None, Some e2 => fail e2
      | None, None => ret tt
      end.

End WithLibrary.
End Rebuild.


(** ** Vocabulary of the statements *)

Module Claims.
Import GoPath State Sys Index Library Rebuild.
Local Open Scope string_scope.

(** An event that is none of the steps of installing a movie: the move,
      the compatibility link, the sidecar write, the registration. *)
Definition not_a_movie_install (ev : Event) : Prop :=
    match ev with
    | EvRename _ _ | EvSymlink _ _ | EvWriteNFO _ | EvMovieIndexAdd _ _ => False
    | _ => True
    end.

(** The same for an episode; the only sidecar written may be the one of
      the show, at [showNfo]. *)
Definition not_an_episode_install (showNfo : string) (ev : Event) : Prop :=
    match ev with
    | EvRename _ _ | EvSymlink _ _ | EvShowIndexAdd _ _ _ _ => False
    | EvWriteNFO p => p = showNfo
    | _ => True
    end.

(** C2 as the specification states it, for a movie: ingesting a movie
      that already lies in its canonical directory succeeds only with the
      sidecar written and the movie registered. *)
Definition in_place_movie_is_registered (out : Outside) (l : Config)
    (movie : Movie.t) (w : World) : Prop :=
    path_Dir (Movie.Path movie) = getMovieDir l movie ->
    let o := AddMovie out l movie w in
    res o = Ok tt ->
    is_Some (fs (world o) !! resolve (NfoPath (Movie.Path movie))) /\
    is_Some (movieIndex (world o) !! Movie.ImdbID movie).

(** [suffix] are the last events of [t]. *)
Definition ends_with (suffix t : list Event) : Prop :=
    exists before, t = (before ++ suffix)%list.

(** A computation that leaves the file tree as it found it. *)
Definition keeps_fs {A} (c : M A) : Prop :=
    forall w, fs (world (c w)) = fs w.

(** A computation that neither reads nor writes what [f] changes: running
      it after [f] is running it before. *)
Definition commutes {A} (f : World -> World) (c : M A) : Prop :=
    forall w, c (f w) = (res (c w), f (world (c w)), trace (c w)).

(** The world of a library that has just been created over the tree
      [tree]: nothing indexed. *)
Definition fresh (tree : gmap (list string) Node) : World :=
    mkWorld tree ∅ ∅ false.

(** What the walk maintains while it calls back: outcomes accepted by
      [good], over the tree of [w0]. *)
Definition walk_invariant (good : result unit -> Prop) (w0 : World)
    : result unit -> World -> list Event -> Prop :=
    fun r w' _ => good r /\ fs w' = fs w0.

(** [prefix] are the first events of [t]. *)
Definition starts_with (prefix t : list Event) : Prop :=
    exists rest, t = (prefix ++ rest)%list.

(** C3 as the specification states it, for a movie: a MissingFilePath or
      MissingImageURL failure leaves the file tree and both indexes as they
      were. *)
Definition precondition_failure_is_clean (out : Outside) (l : Config)
    (movie : Movie.t) (w : World) : Prop :=
    let o := AddMovie out l movie w in
    res o = Err ErrMissingMovieFilePath \/ res o = Err ErrMissingMovieImageURL ->
    fs (world o) = fs w /\ movieIndex (world o) = movieIndex w /\
    showIndex (world o) = showIndex w.

(** C7 as the specification states it, for the movie worker: a failure
      of the walk itself (here, of its first step) is what the worker
      returns and [RebuildIndex] reports. *)
Definition walk_failure_is_reported (out : Outside) (l : Config) (w : World) : Prop :=
    forall e,
      res (os_Lstat (MovieDir l) w) = Err e ->
      res (buildMovieIndex out l w) = Err e /\
      res (RebuildIndex out l true w) = Err e.

End Claims.

(** ** A small library, for the examples *)

Module Examples.
Import GoPath State Sys Index Library Rebuild.
Local Open Scope string_scope.

(** Nothing is refused, every image is fetched, the detail provider adds
      nothing. *)
Definition quiet_outside : Outside :=
    mkOutside (fun _ => false) (fun _ => false) (fun _ => true) (fun s => (s, None)).

Definition cfg : Config := mkConfig "/movies" "/shows" [".mkv"; ".mp4"].

(** The same library with a movie root, respectively a show root, that
      does not exist. *)
Definition cfg_no_movie_root : Config := mkConfig "/nowhere" "/shows" [".mkv"; ".mp4"].
Definition cfg_no_show_root : Config := mkConfig "/movies" "/nowhere" [".mkv"; ".mp4"].

(** Two downloads waiting in [/tmp], nothing indexed. *)
Definition downloads : World :=
    mkWorld
      (list_to_map
         [([], NDir); (["movies"], NDir); (["shows"], NDir); (["tmp"], NDir);
          (["tmp"; "foo.mkv"], NFile Raw); (["tmp"; "e1.mkv"], NFile Raw)])
      ∅ ∅ false.

Definition foo : Movie.t :=
    Movie.mk "tt001" "Foo" 2020 "/tmp/foo.mkv" "http://img/fanart" "http://img/thumb".

Definition foo_without_art : Movie.t :=
    Movie.mk "tt001" "Foo" 2020 "/tmp/foo.mkv" EmptyString EmptyString.

Definition bar : Show.t := Show.mk "tt100" "Bar" "http://img/f" "http://img/b" "http://img/p".

Definition bar_1_1 : ShowEpisode.t :=
    ShowEpisode.mk "tt100" "Bar" 1 1 "/tmp/e1.mkv" (Some bar).

(** The library once [foo], respectively [bar_1_1], has been ingested. *)
Definition with_foo : World := world (AddMovie quiet_outside cfg foo downloads).
Definition with_bar : World := world (AddShowEpisode quiet_outside cfg bar_1_1 downloads).

(** The episode as the library hands it back. *)
Definition bar_1_1_stored : ShowEpisode.t :=
    ShowEpisode.mk "tt100" "Bar" 1 1 "/shows/Bar/Season 1/e1.mkv" None.

(** A movie file that already lies in its canonical directory, without a
      sidecar, in a library that has not indexed it. *)
Definition foo_in_place : Movie.t :=
    Movie.mk "tt001" "Foo" 2020 "/movies/Foo (2020)/foo.mkv"
      "http://img/fanart" "http://img/thumb".

Definition placed : World :=
    mkWorld
      (list_to_map
         [([], NDir); (["movies"], NDir); (["shows"], NDir);
          (["movies"; "Foo (2020)"], NDir);
          (["movies"; "Foo (2020)"; "foo.mkv"], NFile Raw)])
      ∅ ∅ false.

End Examples.

(** ** The library package: dispatch on the kind of video *)

Module Dispatch.
Import GoPath State Sys Index Library.
Local Open Scope string_scope.

(** A [polochon.Video] as the type switches of the library see it: a
      movie, an episode, or a value of any other type. *)
Inductive Video :=
  | VMovie (m : Movie.t)
  | VShowEpisode (e : ShowEpisode.t)
  | VOther.

Section WithLibrary.
Variable out : Outside.
Variable l : Config.

Definition HasVideo (video : Video) : M bool :=
      match video with
      | VMovie v => HasMovie (Movie.ImdbID v)
      | VShowEpisode v =>
          HasShowEpisode (ShowEpisode.ShowImdbID v) (ShowEpisode.Season v)
            (ShowEpisode.Episode v)
      | VOther => fail ErrInvalidIndexVideoType
      end.

Definition Add (video : Video) : M unit :=
      match video with
      | VMovie v => AddMovie out l v
      | VShowEpisode v => AddShowEpisode out l v
      | VOther => fail ErrInvalidIndexVideoType
      end.

Definition Delete (video : Video) : M unit :=
      match video with
      | VMovie v => DeleteMovie out v
      | VShowEpisode v => DeleteShowEpisode out l v
      | VOther => fail ErrInvalidIndexVideoType
      end.

End WithLibrary.
End Dispatch.

(** ** The movie handlers of the HTTP server *)

Module Server.
Import GoPath State Sys Index Library Dispatch.
Local Open Scope string_scope.

(** What a handler writes to its [http.ResponseWriter]: [renderOK] with
      a movie or with nil, [renderError], or the file handed to
      [serveFile]. *)
Inductive Response :=
  | RenderOK (body : option Movie.t)
  | RenderError (e : error)
  | ServeFile (path : string).

Section WithServer.
Variable out : Outside.
Variable l : Config.

(** [getMovie]: the movie of the [id] route variable, or nil once the
        error has been rendered. *)
Definition getMovie (id : string) : M (option Movie.t * list Response) :=
      r ← try (GetMovie id);
      match r with
      | inr err => ret (None, [RenderError err])
      | inl m => ret (Some m, [])
      end.

Definition getMovieDetails (id : string) : M (list Response) :=
      r ← getMovie id;
      match fst r with
      | None => ret (snd r)
      | Some m => ret (snd r ++ [RenderOK (Some m)])%list
      end.

Definition serveMovie (id : string) : M (list Response) :=
      r ← getMovie id;
      match fst r with
      | None => ret (snd r)
      | Some m => ret (snd r ++ [ServeFile (Movie.Path m)])%list
      end.

Definition deleteMovie (id : string) : M (list Response) :=
      r ← getMovie id;
      match fst r with
      | None => ret (snd r)
      | Some m =>
          d ← try (Delete out l (VMovie m));
          match d with
          | inr err => ret (snd r ++ [RenderError err])%list
          | inl _ => ret (snd r ++ [RenderOK None])%list
          end
      end.

End WithServer.
End Server.

(** ** [lib/video.go]: the qualities *)

Module Qualities.
Local Open Scope string_scope.

Inductive error := ErrInvalidVideoType | ErrInvalidQuality.

(** [type Quality string] and its four constants. *)
Definition Quality : Type := string.
Definition Quality480p : Quality := "480p".
Definition Quality720p : Quality := "720p".
Definition Quality1080p : Quality := "1080p".
Definition Quality3D : Quality := "3D".

Definition stringToQuality : gmap string Quality :=
    <["480p" := Quality480p]> (<["720p" := Quality720p]>
      (<["1080p" := Quality1080p]> (<["3D" := Quality3D]> ∅))).

(** [GetQuality]: the quality and a nil error, or the empty quality and
      [ErrInvalidQuality]. *)
Definition GetQuality (s : string) : Quality * option error :=
    match stringToQuality !! s with
    | Some q => (q, None)
    | None => (EmptyString, Some ErrInvalidQuality)
    end.

End Qualities.

(** ** The module registry: [RegisterFsNotifier] *)

Module Registry.
Local Open Scope string_scope.

Section WithConstructors.
(** The type of the constructors kept in [registeredModules.FsNotifiers]. *)
Variable F : Type.

(** How a registration ends: the registry it leaves, or a panic (the
        message names the module). *)
Inductive registration :=
  | Registered (reg : gmap string F)
  | Panicked (name : string).

Definition RegisterFsNotifier (name : string) (f : F) (reg : gmap string F)
      : registration :=
      match reg !! name with
      | Some _ => Panicked name
      | None => Registered (<[name := f]> reg)
      end.

(** Registrations made one after the other, as the [init] functions of
        the modules do; a panic ends the program. *)
Fixpoint register_all (mods : list (string * F)) (reg : gmap string F) : registration :=
      match mods with
      | [] => Registered reg
      | (name, f) :: mods' =>
          match RegisterFsNotifier name f reg with
          | Registered reg' => register_all mods' reg'
          | Panicked n => Panicked n
          end
      end.

End WithConstructors.
Arguments Registered {F} reg.
Arguments Panicked {F} name.
End Registry.

(** ** The route table of the HTTP server *)

Module Routes.
Local Open Scope string_scope.

(** The handlers of the server that the table names. *)
Inductive Handler :=
  | movieIds | getMovieDetails | deleteMovie | serveMovie
  | showIds | getShowDetails | getSeasonDetails | getShowEpisodeIDDetails
  | deleteEpisode | serveShow | addTorrent | tokenGetAllowed.

Record Route := mkRoute {
    name : string;
    path : string;
    methods : string;
    handler : Handler;
    excluded : bool }.

(** The table of [httpServer]; [serveFiles] is
      [s.config.HTTPServer.ServeFiles]. *)
Definition table (serveFiles : bool) : list Route :=
    [ mkRoute "GetMovies" "/movies" "GET" movieIds false;
      mkRoute "GetMovie" "/movies/{id}" "GET" getMovieDetails false;
      mkRoute "DeleteMovie" "/movies/{id}" "DELETE" deleteMovie false;
      mkRoute "DownloadMovie" "/movies/{id}/download" "GET" serveMovie (negb serveFiles);
      mkRoute "GetShows" "/shows" "GET" showIds false;
      mkRoute "GetShow" "/shows/{id}" "GET" getShowDetails false;
      mkRoute "GetSeason" "/shows/{id}/seasons/{season:[0-9]+}" "GET" getSeasonDetails false;
      mkRoute "GetEpisode"
        "/shows/{id}/seasons/{season:[0-9]+}/episodes/{episode:[0-9]+}" "GET"
        getShowEpisodeIDDetails false;
      mkRoute "DeleteEpisode"
        "/shows/{id}/seasons/{season:[0-9]+}/episodes/{episode:[0-9]+}" "DELETE"
        deleteEpisode false;
      mkRoute "DownloadEpisode"
        "/shows/{id}/seasons/{season:[0-9]+}/episodes/{episode:[0-9]+}/download" "GET"
        serveShow (negb serveFiles);
      mkRoute "Wishlist" "/wishlist" "GET" deleteEpisode false;
      mkRoute "AddTorrent" "/torrents" "POST" addTorrent false ].

(** The loop over the table: an excluded route is skipped, the others
      are registered in order. *)
Fixpoint register (routes : list Route) (mux : list Route) : list Route :=
    match routes with
    | [] => mux
    | route :: routes' =>
        if excluded route then register routes' mux
        else register routes' (mux ++ [route])%list
    end.

(** The middlewares of the [negroni] stack. *)
Inductive Middleware :=
  | Recovery | Logger | Gzip
  | BasicAuthMiddleware (user password : string)
  | TokenMiddleware.

Record HTTPServerConfig := mkHTTPServerConfig {
    ServeFiles : bool;
    BasicAuth : bool;
    BasicAuthUser : string;
    BasicAuthPassword : string }.

(** [httpServer]: the routes of the router and the middlewares in front
      of it, in the order they run; [tokens] tells whether
      [s.tokenManager] is set. The route of the token handler is given
      no method: the empty [methods] stands for any. *)
Definition httpServer (config : HTTPServerConfig) (tokens : bool)
    : list Route * list Middleware :=
    let mux := register (table (ServeFiles config)) [] in
    let n := [Recovery; Logger; Gzip] in
    let n :=
      if BasicAuth config
      then (n ++ [BasicAuthMiddleware (BasicAuthUser config) (BasicAuthPassword config)])%list
      else n in
    let '(n, mux) :=
      if tokens
      then ((n ++ [TokenMiddleware])%list,
            (mux ++ [mkRoute "TokenGetAllowed" "/tokens/allowed" EmptyString
                       tokenGetAllowed false])%list)
      else (n, mux) in
    (mux, n).

End Routes.

(** ** Names and cleaned paths *)

Module Names.
Import GoPath.
Local Open Scope string_scope.

Fixpoint no_slash (s : string) : bool :=
    match s with
    | EmptyString => true
    | String c s' => negb (is_slash c) && no_slash s'
    end.

(** The name of a file or of a directory: not empty, without a slash,
      and neither [.] nor [..]. *)
Definition plain_name (b : string) : bool :=
    no_slash b && negb (String.eqb b EmptyString) && negb (String.eqb b ".")
    && negb (String.eqb b "..").

(** The elements [path.Clean] keeps, last first: plain names above the
      [..] elements that start a relative path. *)
Definition clean_stack (root : bool) (stack : list string) : Prop :=
    exists names k,
      stack = (names ++ repeat ".." k)%list /\
      Forall (fun c => plain_name c = true) names /\
      (root = true -> k = 0%nat).

(** The text of a cleaned path with the elements [elems]. *)
Definition render (root : bool) (elems : list string) : string :=
    let body := join_slash elems in
    if root then "/" ++ body
    else if String.eqb body EmptyString then "." else body.

End Names.

(** ** Vocabulary of the further properties *)

Module Outcomes.
Import GoPath State Sys Index Library Rebuild Claims.
Local Open Scope string_scope.

(** The system calls whose failure an ingest or a deletion hands back to
      its caller. *)
Definition returned_syscall (op : string) : bool :=
    existsb (String.eqb op) ["unlinkat"; "mkdir"; "rename"; "open"].


(** The errors [AddShowEpisode] can return; of the detail-fetch errors
      only a fatal one. *)
Definition episode_ingest_error (e : error) : bool :=
    match e with
    | ErrMissingShowEpisodeFilePath | ErrMissingShowImageURL | ErrNotFound => true
    | ErrParse _ | ErrDownload _ => true
    | ErrDetails fatal => fatal
    | ErrPath op _ => returned_syscall op
    | _ => false
    end.

(** A directory entry that is a regular file. *)
Definition is_file (w : World) (path : string) : Prop :=
    exists c, fs w !! resolve path = Some (NFile c).

(** The events of a deletion: removals from the tree and from the show
      index. *)
Definition deletion_event (ev : Event) : Prop :=
    match ev with
    | EvRemoveAll _ | EvShowIndexRemoveEpisode _ _ _ | EvShowIndexRemoveSeason _ _
    | EvShowIndexRemoveShow _ | EvMovieIndexRemove _ => True
    | _ => False
    end.

(** The show index keeps no empty season and no empty show: a season
      entry has an episode, a show entry has a season. *)
Definition nonempty_ancestors (idx : gmap string (gmap Z (gmap Z string))) : Prop :=
    forall id seasons,
      idx !! id = Some seasons ->
      seasons <> ∅ /\ forall s episodes, seasons !! s = Some episodes -> episodes <> ∅.


(** An event that is not the warning of a failed link. *)
Definition not_a_warning (ev : Event) : Prop :=
    match ev with EvLogWarn _ => False | _ => True end.

(** A computation that keeps [I] true of the world. *)
Definition preserves {A} (I : World -> Prop) (c : M A) : Prop :=
    forall w, I w -> I (world (c w)).

(** Every entry of the movie index names a file with a video extension
      whose sidecar, in the tree [tree], loads as a movie with the
      identifier of the entry. *)
Definition movie_entries_load (l : Config) (tree : gmap (list string) Node)
    (idx : gmap string string) : Prop :=
    forall id p,
      idx !! id = Some p ->
      existsb (String.eqb (path_Ext p)) (VideoExtentions l) = true /\
      exists m, res (newMovieFromPath p (fresh tree)) = Ok m /\ Movie.ImdbID m = id.

(** The same for the show index: the sidecar loads as an episode with the
      season and episode numbers of the entry. *)
Definition episode_entries_load (l : Config) (tree : gmap (list string) Node)
    (idx : gmap string (gmap Z (gmap Z string))) : Prop :=
    forall id seasons s episodes e p,
      idx !! id = Some seasons -> seasons !! s = Some episodes ->
      episodes !! e = Some p ->
      existsb (String.eqb (path_Ext p)) (VideoExtentions l) = true /\
      exists ep, res (newEpisodeFromPath p (fresh tree)) = Ok ep /\
                 ShowEpisode.Season ep = s /\ ShowEpisode.Episode ep = e.


(** What the movie worker maintains over the tree [tree]. *)
Definition movies_ok (l : Config) (tree : gmap (list string) Node) (w : World) : Prop :=
    fs w = tree /\ movie_entries_load l tree (movieIndex w).

(** What the show worker maintains over the tree [tree]. *)
Definition shows_ok (l : Config) (tree : gmap (list string) Node) (w : World) : Prop :=
    fs w = tree /\ episode_entries_load l tree (showIndex w) /\
    nonempty_ancestors (showIndex w).

End Outcomes.

(** ** [modules/tmdb/tmdb.go]: the movie detailer *)

Module Tmdb.
Import GoPath.
Local Open Scope string_scope.

Definition TmDBimageBaseURL : string := "https://image.tmdb.org/t/p/original".

Section WithServices.
(** The type of [Movie.Rating], and the errors of the [go-tmdb] client
        and of [time.Parse]. *)
Variable float32 : Type.
Variable api_error : Type.

Inductive error :=
  | ErrInvalidArgument
  | ErrNoMovieFound
  | ErrNoMovieTitle
  | ErrNoMovieImDBID
  | ErrFailedToGetDetails
  | ErrApi (e : api_error).

(** The fields of [polochon.Movie] that this file reads or writes. *)
Record Movie := mkMovie {
      ImdbID : string;
      Title : string;
      Year : Z;
      TmdbID : Z;
      OriginalTitle : string;
      Plot : string;
      Rating : float32;
      Runtime : Z;
      SortTitle : string;
      Tagline : string;
      Thumb : string;
      Fanart : string;
      Votes : Z }.

Definition with_TmdbID (id : Z) (m : Movie) : Movie :=
      mkMovie (ImdbID m) (Title m) (Year m) id (OriginalTitle m) (Plot m) (Rating m)
        (Runtime m) (SortTitle m) (Tagline m) (Thumb m) (Fanart m) (Votes m).

(** [tmdb.MovieShort], an entry of a search result. *)
Record MovieShort := mkMovieShort { short_ID : Z; short_Title : string }.

Definition MovieShort_zero : MovieShort := mkMovieShort 0 EmptyString.

(** [tmdb.Movie], the details of a movie. *)
Record Details := mkDetails {
      d_ImdbID : string;
      d_OriginalTitle : string;
      d_Overview : string;
      d_VoteAverage : float32;
      d_Runtime : Z;
      d_Title : string;
      d_Tagline : string;
      d_PosterPath : string;
      d_BackdropPath : string;
      d_VoteCount : Z;
      d_ReleaseDate : string }.

(** The three calls to the service, "to be overwritten during the
        tests"; [levenshtein.Distance]; and the year of
        [time.Parse("2006-01-02", s)]. *)
Variable tmdbSearchMovie : string -> gmap string string -> list MovieShort + api_error.
Variable tmdbSearchByImdbID :
      string -> string -> gmap string string -> list MovieShort + api_error.
Variable tmdbGetMovieInfo : Z -> gmap string string -> Details + api_error.
Variable levenshtein_Distance : string -> string -> Z.
Variable release_year : string -> Z + api_error.

(** An [interface{}] argument: a [*polochon.Movie] or anything else. *)
Inductive Arg :=
  | AMovie (m : Movie)
  | AOther.

Definition getMovieArgument (i : Arg) : Movie + error :=
      match i with
      | AMovie m => inl m
      | AOther => inr ErrInvalidArgument
      end.

(** The loop of [searchByTitle]: the closest result so far and its
        distance. *)
Definition closest (title : string) (results : list MovieShort)
      : Z * MovieShort :=
      fold_left
        (fun (acc : Z * MovieShort) result =>
           let d := levenshtein_Distance title (short_Title result) in
           if (d <? fst acc)%Z then (d, result) else acc)
        results (100, MovieShort_zero).

(** [searchByTitle]: the movie as the call leaves it, and the error. *)
Definition searchByTitle (m : Movie) : Movie * option error :=
      if String.eqb (Title m) EmptyString then (m, Some ErrNoMovieTitle)
      else if negb (TmdbID m =? 0)%Z then (m, None)
      else
        let options : gmap string string :=
          if negb (Year m =? 0)%Z then {["year" := fmt_d (Year m)]} else ∅ in
        match tmdbSearchMovie (Title m) options with
        | inr err => (m, Some (ErrApi err))
        | inl results =>
            if (Z.of_nat (length results) =? 0)%Z then (m, Some ErrNoMovieFound)
            else
              let movieShort := snd (closest (Title m) results) in
              (with_TmdbID (short_ID movieShort) m, None)
        end.

Definition searchByImdbID (i : Arg) : Arg * option error :=
      match getMovieArgument i with
      | inr err => (i, Some err)
      | inl m =>
          if String.eqb (ImdbID m) EmptyString then (i, Some ErrNoMovieImDBID)
          else if negb (TmdbID m =? 0)%Z then (i, None)
          else
            match tmdbSearchByImdbID (ImdbID m) "imdb_id" ∅ with
            | inr err => (i, Some (ErrApi err))
            | inl results =>
                match results with
                | [] => (i, Some ErrNoMovieFound)
                | first :: _ => (AMovie (with_TmdbID (short_ID first) m), None)
                end
            end
      end.

(** The movie an argument holds once a call has worked on it. *)
Definition movie_of (i : Arg) (m : Movie) : Movie :=
      match i with
      | AMovie m' => m'
      | AOther => m
      end.

(** The [switch err] of [GetDetails]: nil and [ErrNoMovieFound] go on. *)
Definition goes_on (err : option error) : bool :=
      match err with
      | None | Some ErrNoMovieFound => true
      | _ => false
      end.

Definition update (m : Movie) (details : Details) (year : Z) : Movie :=
      mkMovie (d_ImdbID details) (d_Title details) year (TmdbID m)
        (d_OriginalTitle details) (d_Overview details) (d_VoteAverage details)
        (d_Runtime details) (d_Title details) (d_Tagline details)
        (TmDBimageBaseURL ++ d_PosterPath details)
        (TmDBimageBaseURL ++ d_BackdropPath details) (d_VoteCount details).

Definition GetDetails (i : Arg) : Arg * option error :=
      match getMovieArgument i with
      | inr err => (i, Some err)
      | inl m =>
          let '(m, err1) :=
            if negb (String.eqb (ImdbID m) EmptyString) && (TmdbID m =? 0)%Z then
              let '(i', err) := searchByImdbID (AMovie m) in (movie_of i' m, err)
            else (m, None) in
          if negb (goes_on err1) then (AMovie m, err1)
          else
            let '(m, err2) :=
              if negb (String.eqb (Title m) EmptyString) && (TmdbID m =? 0)%Z then
                searchByTitle m
              else (m, None) in
            if negb (goes_on err2) then (AMovie m, err2)
            else if (TmdbID m =? 0)%Z then (AMovie m, Some ErrFailedToGetDetails)
            else
              match tmdbGetMovieInfo (TmdbID m) ∅ with
              | inr err => (AMovie m, Some (ErrApi err))
              | inl details =>
                  if negb (String.eqb (d_ReleaseDate details) EmptyString) then
                    match release_year (d_ReleaseDate details) with
                    | inr err => (AMovie m, Some (ErrApi err))
                    | inl year => (AMovie (update m details year), None)
                    end
                  else (AMovie (update m details 0), None)
              end
      end.

End WithServices.
End Tmdb.

(** ** Go's [strconv], as [modules/transmission] uses it *)

Module GoStrconv.
Import GoPath.
Local Open Scope string_scope.

(** [strconv.Itoa]. *)
Definition Itoa (n : Z) : string := fmt_d n.

Definition digit_val (c : ascii) : option Z :=
    let n := Z.of_N (N_of_ascii c) in
    if ((48 <=? n) && (n <=? 57))%Z then Some (n - 48)%Z else None.

Fixpoint parse_digits (acc : Z) (s : string) : option Z :=
    match s with
    | EmptyString => Some acc
    | String c s' =>
        match digit_val c with
        | Some d => parse_digits (acc * 10 + d)%Z s'
        | None => None
        end
    end.

(** [strconv.Atoi] for a 64-bit [int]: an optional sign, then at least
      one decimal digit and nothing else; [None] is a [*NumError] (a
      syntax error, or a value out of range). *)
Definition Atoi (s : string) : option Z :=
    match s with
    | EmptyString => None
    | String c rest =>
        let '(neg, digits) :=
          if Ascii.eqb c "-"%char then (true, rest)
          else if Ascii.eqb c "+"%char then (false, rest)
          else (false, s) in
        if String.eqb digits EmptyString then None
        else
          match parse_digits 0 digits with
          | Some n =>
              let v := if neg : bool then (- n)%Z else n in
              if ((- 2 ^ 63 <=? v) && (v <=? 2 ^ 63 - 1))%Z then Some v else None
          | None => None
          end
    end.

End GoStrconv.

(** ** [modules/transmission/transmission.go]: the downloader *)

Module Transmission.
Import GoStrconv.
Local Open Scope string_scope.

Definition moduleName : string := "transmission".

Record Params := mkParams {
    URL : string;
    CheckSSL : bool;
    BasicAuth : bool;
    Username : string;
    Password : string }.

(** What [setTransmissionClient] hands to [transmission.New]; the HTTP
      client is the one whose transport has [InsecureSkipVerify]. *)
Record Config := mkConfig {
    Address : string;
    User : string;
    ConfPassword : string;
    InsecureSkipVerify : bool }.

(** A call returns, or panics on a nil pointer. *)
Inductive outcome (A : Type) :=
  | Returns (a : A)
  | Panics.
Arguments Returns {A} a.
Arguments Panics {A}.

Section WithServices.
(** [*transmission.Client], and the errors of the [yaml] and
        [transmission] packages. *)
Variable TClient : Type.
Variable ext_error : Type.
Variable yaml_Unmarshal : list Byte.byte -> Params + ext_error.
Variable transmission_New : Config -> TClient + ext_error.
Variable RemoveTorrents : option TClient -> list Z -> bool -> option ext_error.

Inductive error :=
  | Errorf (msg : string)
  | ErrExt (e : ext_error).

Record Client := mkClient {
      params : option Params;
      tClient : option TClient;
      configured : bool }.

Definition checkConfig (c : Client) : outcome (option error) :=
      match params c with
      | None => Panics
      | Some p =>
          if String.eqb (URL p) EmptyString
          then Returns (Some (Errorf "transmission: missing URL"))
          else if BasicAuth p
               && (String.eqb (Username p) EmptyString || String.eqb (Password p) EmptyString)
          then Returns (Some (Errorf "transmission: missing authentication params"))
          else Returns None
      end.

Definition setTransmissionClient (c : Client) : outcome (Client * option error) :=
      match params c with
      | None => Panics
      | Some p =>
          let skipSSL := negb (CheckSSL p) in
          let conf := mkConfig (URL p) (Username p) (Password p) skipSSL in
          match transmission_New conf with
          | inr err => Returns (c, Some (ErrExt err))
          | inl t => Returns (mkClient (params c) (Some t) (configured c), None)
          end
      end.

(** [InitWithParams]: the client as the call leaves it, and the error;
        [params] may be a nil pointer. *)
Definition InitWithParams (c : Client) (p : option Params)
      : outcome (Client * option error) :=
      let c := mkClient p (tClient c) (configured c) in
      match checkConfig c with
      | Panics => Panics
      | Returns (Some err) => Returns (c, Some err)
      | Returns None =>
          match setTransmissionClient c with
          | Panics => Panics
          | Returns (c, Some err) => Returns (c, Some err)
          | Returns (c, None) =>
              Returns (mkClient (params c) (tClient c) true, None)
          end
      end.

Definition Init (c : Client) (p : list Byte.byte) : outcome (Client * option error) :=
      if configured c then Returns (c, None)
      else
        match yaml_Unmarshal p with
        | inr err => Returns (c, Some (ErrExt err))
        | inl params => InitWithParams c (Some params)
        end.

Definition Name (c : Client) : string := moduleName.

(** [transmission.Torrent] and [polochon.DownloadableInfos], with the
        fields [Infos] reads and fills; [float64], [float32] and the type of
        the metadata are left open, with the three operations on them:
        [x == 1], [float32(x) * 100] and [float32(x)], and the [metadata]
        helper of the package. *)
Variable float64 : Type.
Variable float32 : Type.
Variable meta : Type.
Variable float64_is_one : float64 -> bool.
Variable percent : float64 -> float32.
Variable float32_of : float64 -> float32.
Variable metadata : list string -> meta.

Record TTorrent := mkTTorrent {
      T_ID : Z;
      T_PercentDone : float64;
      T_Files : option (list string);
      T_RateDownload : Z;
      T_DownloadedEver : Z;
      T_UploadedEver : Z;
      T_Name : string;
      T_UploadRatio : float64;
      T_SizeWhenDone : Z;
      T_RateUpload : Z;
      T_Labels : list string }.

Record DownloadableInfos := mkInfos {
      ID : string;
      DownloadRate : Z;
      DownloadedSize : Z;
      UploadedSize : Z;
      FilePaths : list string;
      IsFinished : bool;
      Name_ : string;
      PercentDone : float32;
      Ratio : float32;
      TotalSize : Z;
      UploadRate : Z;
      Metadata : meta }.

(** [Torrent.Infos]; [T_Files] holds the names of the files. *)
Definition Infos (t : option TTorrent) : option DownloadableInfos :=
      match t with
      | None => None
      | Some T =>
          let isFinished := if float64_is_one (T_PercentDone T) then true else false in
          let filePaths :=
            match T_Files T with
            | Some files => fold_left (fun acc f => acc ++ [f])%list files []
            | None => []
            end in
          Some (mkInfos (Itoa (T_ID T)) (T_RateDownload T) (T_DownloadedEver T)
                  (T_UploadedEver T) filePaths isFinished (T_Name T)
                  (percent (T_PercentDone T)) (float32_of (T_UploadRatio T))
                  (T_SizeWhenDone T) (T_RateUpload T) (metadata (T_Labels T)))
      end.

(** [Remove], given what [d.Infos()] answers. *)
Definition Remove (c : Client) (tInfos : option DownloadableInfos) : option error :=
      match tInfos with
      | None => Some (Errorf "transmission: got nil Infos")
      | Some tInfos =>
          if String.eqb (ID tInfos) EmptyString
          then Some (Errorf "transmission: problem when getting torrentID in Remove")
          else
            match Atoi (ID tInfos) with
            | None => Some (Errorf "transmission: the id is not a int")
            | Some torrentID =>
                match RemoveTorrents (tClient c) [torrentID] false with
                | Some err => Some (ErrExt err)
                | None => None
                end
            end
      end.

End WithServices.
End Transmission.

(** ** Further example libraries and services *)

Module MoreExamples.
Import State Sys Library Examples.
Local Open Scope string_scope.

(** The movie and the episode of [Examples] as the library hands them
      back once ingested. *)
Definition foo_stored : Movie.t :=
    Movie.mk "tt001" "Foo" 2020 "/movies/Foo (2020)/foo.mkv"
      "http://img/fanart" "http://img/thumb".

(** The episode file where an ingest has put it, offered again. *)
Definition bar_1_1_in_place : ShowEpisode.t :=
    ShowEpisode.mk "tt100" "Bar" 1 1 "/shows/Bar/Season 1/e1.mkv" (Some bar).

(** A movie known by its title only, one known by its imdb id, and a
      search service with three answers. *)
Definition alien : Tmdb.Movie unit :=
    Tmdb.mkMovie unit EmptyString "Alien" 1979 0 EmptyString EmptyString tt 0
      EmptyString EmptyString EmptyString EmptyString 0.

Definition alien_by_id : Tmdb.Movie unit :=
    Tmdb.mkMovie unit "tt0078748" "Alien" 1979 0 EmptyString EmptyString tt 0
      EmptyString EmptyString EmptyString EmptyString 0.

Definition alien_results : list Tmdb.MovieShort :=
    [Tmdb.mkMovieShort 679 "Aliens"; Tmdb.mkMovieShort 348 "Alien";
     Tmdb.mkMovieShort 8077 "Alien 3"].

Definition search_alien (title : string) (options : gmap string string)
    : list Tmdb.MovieShort + unit := inl alien_results.

Definition find_alien (id source : string) (options : gmap string string)
    : list Tmdb.MovieShort + unit := inl [Tmdb.mkMovieShort 348 "Alien"].

Definition no_details (id : Z) (options : gmap string string)
    : Tmdb.Details unit + unit := inr tt.

Definition no_year (date : string) : Z + unit := inr tt.

(** Two stand-ins for the edit distance: the difference of the lengths,
      and a distance under which every title is far. *)
Definition length_gap (a b : string) : Z :=
    Z.abs (Z.of_nat (String.length a) - Z.of_nat (String.length b)).

Definition far_apart (a b : string) : Z := 100.

(** A transmission daemon that removes what it is asked to, a client
      without connection, and a listed torrent; the floating-point numbers
      are stood in for by integers. *)
Definition removes_all (t : option unit) (ids : list Z) (data : bool) : option unit := None.

Definition idle_client : Transmission.Client unit :=
    Transmission.mkClient unit None None false.

Definition torrent_42 : Transmission.TTorrent Z :=
    Transmission.mkTTorrent Z 42 1 (Some ["a.mkv"; "a.srt"]) 0 10 0 "a" 0 10 0 [].

End MoreExamples.

(* ===================================================================== *)
(** * Part II: properties                                                 *)
(* ===================================================================== *)

Module SlugFacts.
Import Slug.

Example slug_title :
    slug (fun r => r) (of_string "  The Big--Bang  Theory (2007)! ")
    = of_string "the-big--bang-theory-2007".
Proof. reflexivity. Qed.

Lemma trim_left_head c s : head (trim_left c s) <> Some c.
Proof.
    induction s as [|r s IH]; simpl; [discriminate|].
    destruct (r =? c) eqn:E; [exact IH|].
    simpl. intros [= ->]. rewrite Z.eqb_refl in E. discriminate.
Qed.

Lemma trim_left_id c s : head s <> Some c -> trim_left c s = s.
Proof.
    destruct s as [|r s]; simpl; [reflexivity|].
    intros H. destruct (r =? c) eqn:E; [|reflexivity].
    apply Z.eqb_eq in E. subst. congruence.
Qed.

Lemma trim_left_suffix c s : exists p, s = p ++ trim_left c s.
Proof.
    induction s as [|r s [p Hp]]; simpl.
    - exists []. reflexivity.
    - destruct (r =? c).
      + exists (r :: p). simpl. congruence.
      + exists []. reflexivity.
Qed.

Lemma trim_left_Forall (P : rune -> Prop) c s :
    Forall P s -> Forall P (trim_left c s).
Proof.
    intros H. destruct (trim_left_suffix c s) as [p Hp].
    rewrite Hp in H. apply Forall_app in H. tauto.
Qed.

Lemma head_rev_last (s : text) : head (rev s) = last s.
Proof.
    induction s as [|x l _] using rev_ind; [reflexivity|].
    rewrite rev_app_distr, last_snoc. reflexivity.
Qed.

Lemma last_rev_head (s : text) : last (rev s) = head s.
Proof. rewrite <- (rev_involutive s) at 2. symmetry. apply head_rev_last. Qed.

Lemma trim_right_last c s : last (trim_right c s) <> Some c.
Proof. unfold trim_right. rewrite last_rev_head. apply trim_left_head. Qed.

Lemma trim_right_id c s : last s <> Some c -> trim_right c s = s.
Proof.
    intros H. unfold trim_right. rewrite trim_left_id.
    - apply rev_involutive.
    - rewrite head_rev_last. exact H.
Qed.

Lemma trim_right_prefix c s : exists q, s = trim_right c s ++ q.
Proof.
    unfold trim_right. destruct (trim_left_suffix c (rev s)) as [p Hp].
    exists (rev p). rewrite <- rev_app_distr, <- Hp. symmetry. apply rev_involutive.
Qed.

Lemma trim_right_Forall (P : rune -> Prop) c s :
    Forall P s -> Forall P (trim_right c s).
Proof.
    intros H. destruct (trim_right_prefix c s) as [q Hq].
    rewrite Hq in H. apply Forall_app in H. tauto.
Qed.

Lemma trim_right_head c s : head s <> Some c -> head (trim_right c s) <> Some c.
Proof.
    intros H. destruct (trim_right_prefix c s) as [q Hq].
    destruct (trim_right c s) as [|r t] eqn:E; simpl; [discriminate|].
    rewrite Hq in H. exact H.
Qed.

Lemma Trim_head c s : head (strings_Trim c s) <> Some c.
Proof. apply trim_right_head, trim_left_head. Qed.

Lemma Trim_last c s : last (strings_Trim c s) <> Some c.
Proof. apply trim_right_last. Qed.

Lemma Trim_id c s :
    head s <> Some c -> last s <> Some c -> strings_Trim c s = s.
Proof.
    intros Hh Hl. unfold strings_Trim. rewrite (trim_left_id c s Hh).
    apply trim_right_id, Hl.
Qed.

Lemma slug_valid_not_space r :
    slug_valid r = true -> is_space r = false -> slug_char r = true.
Proof.
    unfold slug_valid, slug_char, is_space, is_lower, is_digit, space, underscore, hyphen.
    intros H1 H2.
    repeat match goal with
           | H : _ || _ = false |- _ => apply orb_false_iff in H; destruct H
           end.
    destruct (r =? 32) eqn:E; [discriminate|].
    rewrite orb_false_r in H1.
    destruct ((97 <=? r) && (r <=? 122)); [reflexivity|].
    destruct ((48 <=? r) && (r <=? 57)); [reflexivity|].
    simpl in *. exact H1.
Qed.

Lemma replace_runs_chars b s :
    Forall (fun r => slug_valid r = true) s ->
    Forall (fun r => slug_char r = true) (replace_runs hyphen b s).
Proof.
    intros H. revert b. induction H as [|r s Hr Hs IH]; intros b; simpl.
    - constructor.
    - destruct (is_space r) eqn:E.
      + destruct b; [apply IH|]. constructor; [reflexivity|apply IH].
      + constructor; [apply slug_valid_not_space; assumption|apply IH].
Qed.

Lemma slug_char_props r :
    slug_char r = true ->
    slug_valid r = true /\ is_space r = false /\
    (forall f, unicode_ToLower f r = r).
Proof.
    unfold slug_char, slug_valid, is_space, unicode_ToLower, is_lower, is_digit,
      space, underscore, hyphen.
    intros H.
    assert (Hr : (97 <= r <= 122) \/ (48 <= r <= 57) \/ r = 95 \/ r = 45).
    { repeat match goal with
             | H : _ || _ = true |- _ => apply orb_true_iff in H; destruct H
             | H : _ && _ = true |- _ => apply andb_true_iff in H; destruct H
             end; lia. }
    repeat split.
    - repeat match goal with
             | |- context [?a <=? ?b] => destruct (Z.leb_spec a b)
             | |- context [?a =? ?b] => destruct (Z.eqb_spec a b)
             end; simpl; try reflexivity; lia.
    - repeat match goal with
             | |- context [?a =? ?b] => destruct (Z.eqb_spec a b)
             end; simpl; try reflexivity; lia.
    - intros f.
      repeat match goal with
             | |- context [?a <=? ?b] => destruct (Z.leb_spec a b)
             end; simpl; try reflexivity; lia.
Qed.

Lemma replace_runs_id c s :
    Forall (fun r => slug_char r = true) s -> replace_runs c false s = s.
Proof.
    induction 1 as [|r s Hr Hs IH]; simpl; [reflexivity|].
    destruct (slug_char_props r Hr) as (_ & -> & _). congruence.
Qed.

Lemma remove_invalid_id s :
    Forall (fun r => slug_char r = true) s -> remove_invalid s = s.
Proof.
    unfold remove_invalid.
    induction 1 as [|r s Hr Hs IH]; simpl; [reflexivity|].
    destruct (slug_char_props r Hr) as (-> & _ & _). congruence.
Qed.

Lemma ToLower_id f s :
    Forall (fun r => slug_char r = true) s -> strings_ToLower f s = s.
Proof.
    unfold strings_ToLower.
    induction 1 as [|r s Hr Hs IH]; simpl; [reflexivity|].
    destruct (slug_char_props r Hr) as (_ & _ & ->). congruence.
Qed.

Lemma slug_chars f s : Forall (fun r => slug_char r = true) (slug f s).
Proof.
    unfold slug, strings_Trim, replace_whitespace.
    apply trim_right_Forall, trim_left_Forall, replace_runs_chars.
    unfold remove_invalid. apply List.Forall_forall. intros r Hr.
    apply List.filter_In in Hr. tauto.
Qed.

(** C10. For every input text, [slug] returns only lowercase letters,
      digits, underscores and hyphens, the result neither starts nor ends
      with a hyphen, and [slug] is idempotent. *)
Theorem slug_alphabet_and_idempotent (unicode_lower : rune -> rune) (s : text) :
    Forall (fun r => slug_char r = true) (slug unicode_lower s) /\
    head (slug unicode_lower s) <> Some hyphen /\
    last (slug unicode_lower s) <> Some hyphen /\
    slug unicode_lower (slug unicode_lower s) = slug unicode_lower s.
Proof.
    pose proof (slug_chars unicode_lower s) as Hc.
    assert (Hh : head (slug unicode_lower s) <> Some hyphen) by apply Trim_head.
    assert (Hl : last (slug unicode_lower s) <> Some hyphen) by apply Trim_last.
    repeat split; try assumption.
    set (t := slug unicode_lower s) in *.
    unfold slug at 1. unfold replace_whitespace.
    rewrite ToLower_id, remove_invalid_id, replace_runs_id by assumption.
    apply Trim_id; assumption.
Qed.

End SlugFacts.

(** ** Reasoning about computations: outcomes as postconditions *)

Module Hoare.
Import State.

Lemma post_intro {A} (c : M A) w (Q : result A -> World -> list Event -> Prop) r w' t :
    c w = (r, w', t) -> Q r w' t -> post c w Q.
Proof. intros E H. unfold post. rewrite E. exact H. Qed.

Lemma post_elim {A} (c : M A) w (Q : result A -> World -> list Event -> Prop) :
    post c w Q -> Q (res (c w)) (world (c w)) (trace (c w)).
Proof. exact (fun H => H). Qed.

Lemma post_weaken {A} (c : M A) w (Q Q' : result A -> World -> list Event -> Prop) :
    post c w Q -> (forall r w' t, Q r w' t -> Q' r w' t) -> post c w Q'.
Proof. unfold post. auto. Qed.

Lemma post_ret {A} (a : A) w (Q : result A -> World -> list Event -> Prop) :
    Q (Ok a) w [] -> post (ret a) w Q.
Proof. exact (fun H => H). Qed.

Lemma post_fail {A} e w (Q : result A -> World -> list Event -> Prop) :
    Q (Err e) w [] -> post (fail e) w Q.
Proof. exact (fun H => H). Qed.

Lemma post_panic {A} w (Q : result A -> World -> list Event -> Prop) :
    Q Panic w [] -> post panic w Q.
Proof. exact (fun H => H). Qed.

Lemma post_gets {A} (f : World -> A) w (Q : result A -> World -> list Event -> Prop) :
    Q (Ok (f w)) w [] -> post (gets f) w Q.
Proof. exact (fun H => H). Qed.

Lemma post_emit ev w (Q : result unit -> World -> list Event -> Prop) :
    Q (Ok tt) w [ev] -> post (emit ev) w Q.
Proof. exact (fun H => H). Qed.

Lemma post_modify f w (Q : result unit -> World -> list Event -> Prop) :
    Q (Ok tt) (f w) [] -> post (modify f) w Q.
Proof. exact (fun H => H). Qed.

Lemma post_bind {A B} (c : M A) (k : A -> M B) w
    (Q : result B -> World -> list Event -> Prop) :
    post c w (fun r w1 t1 =>
      match r with
      | Ok a => post (k a) w1 (fun r2 w2 t2 => Q r2 w2 (t1 ++ t2))
      | Err e => Q (Err e) w1 t1
      | Panic => Q Panic w1 t1
      | Exhausted => Q Exhausted w1 t1
      end) ->
    post (c ≫= k) w Q.
Proof.
    unfold post, mbind, M_bind, bind, res, world, trace.
    destruct (c w) as [[[a|e| |] w1] t1]; simpl; try exact (fun H => H).
    destruct (k a w1) as [[r2 w2] t2]; simpl. exact (fun H => H).
Qed.

Lemma post_try {A} (c : M A) w
    (Q : result (A + error) -> World -> list Event -> Prop) :
    post c w (fun r w1 t1 =>
      match r with
      | Ok a => Q (Ok (inl a)) w1 t1
      | Err e => Q (Ok (inr e)) w1 t1
      | Panic => Q Panic w1 t1
      | Exhausted => Q Exhausted w1 t1
      end) ->
    post (try c) w Q.
Proof.
    unfold post, try, res, world, trace.
    destruct (c w) as [[[a|e| |] w1] t1]; simpl; exact (fun H => H).
Qed.

Lemma post_return_error e w (Q : result unit -> World -> list Event -> Prop) :
    Q (match e with Some e => Err e | None => Ok tt end) w [] ->
    post (return_error e) w Q.
Proof. destruct e; exact (fun H => H). Qed.

Lemma after_nil {A} (o : result A * World * list Event) : after [] o = o.
Proof. destruct o as [[r w] t]. reflexivity. Qed.

(** Running [c ≫= k]: the continuation runs in the world [c] leaves. *)
Lemma bind_run {A B} (c : M A) (k : A -> M B) w :
    (c ≫= k) w =
    match res (c w) with
    | Ok a => after (trace (c w)) (k a (world (c w)))
    | Err e => (Err e, world (c w), trace (c w))
    | Panic => (Panic, world (c w), trace (c w))
    | Exhausted => (Exhausted, world (c w), trace (c w))
    end.
Proof.
    unfold mbind, M_bind, bind, after, res, world, trace.
    destruct (c w) as [[[a|e| |] w1] t1]; simpl; try reflexivity.
    destruct (k a w1) as [[r w2] t2]. reflexivity.
Qed.


Lemma try_run {A} (c : M A) w :
    try c w =
    match res (c w) with
    | Ok a => (Ok (inl a), world (c w), trace (c w))
    | Err e => (Ok (inr e), world (c w), trace (c w))
    | Panic => (Panic, world (c w), trace (c w))
    | Exhausted => (Exhausted, world (c w), trace (c w))
    end.
Proof.
    unfold try, res, world, trace. destruct (c w) as [[[a|e| |] w1] t1]; reflexivity.
Qed.

End Hoare.

(** ** The operating-system primitives *)

Module SysFacts.
Import GoPath State Sys Hoare.
Local Open Scope string_scope.

Lemma set_fs_id w : set_fs (fs w) w = w.
Proof. destruct w; reflexivity. Qed.

Lemma existsb_false_elem {A} (f : A -> bool) (xs : list A) x :
    existsb f xs = false -> x ∈ xs -> f x = false.
Proof.
    intros H Hx. apply list_elem_of_In in Hx.
    destruct (f x) eqn:E; [|reflexivity].
    assert (existsb f xs = true) by (apply existsb_exists; eauto). congruence.
Qed.

Lemma key_elem (m : gmap (list string) Node) k x :
    m !! k = Some x -> k ∈ map fst (map_to_list m).
Proof.
    intros H. apply list_elem_of_In, in_map_iff. exists (k, x). split; [reflexivity|].
    apply list_elem_of_In, elem_of_map_to_list. exact H.
Qed.

Lemma stuck_free out w k :
    (forall q, undeletable out q = false) -> stuck out w k = false.
Proof.
    intros H. unfold stuck. induction (map fst (map_to_list (fs w))) as [|q qs IH]; simpl.
    - reflexivity.
    - rewrite H. simpl. exact IH.
Qed.

Lemma prefixb_true d k : prefixb d k = true <-> d `prefix_of` k.
Proof. unfold prefixb. apply bool_decide_eq_true. Qed.

(** [os.RemoveAll]: either everything at and below the path is gone, or
      the call fails, which takes an entry the system refuses to unlink.
      Nothing appears, and the indexes are not touched. *)
Lemma post_RemoveAll out path w (Q : result unit -> World -> list Event -> Prop) :
    (forall f',
        (forall k, fs w !! k = None -> f' !! k = None) ->
        (path <> EmptyString -> forall k, resolve path `prefix_of` k -> f' !! k = None) ->
        Q (Ok tt) (set_fs f' w) [EvRemoveAll path]) ->
    (forall f',
        (forall k, fs w !! k = None -> f' !! k = None) ->
        (exists q, undeletable out q = true) ->
        Q (Err (ErrPath "unlinkat" path)) (set_fs f' w) [EvRemoveAll path]) ->
    post (os_RemoveAll out path) w Q.
Proof.
    intros Hok Herr. unfold post, os_RemoveAll.
    destruct (String.eqb_spec path EmptyString) as [->|Hne].
    - unfold res, world, trace. simpl. rewrite <- (set_fs_id w).
      apply Hok; [auto|congruence].
    - set (keep := fun kv : list string * Node =>
                     Is_true (negb (prefixb (resolve path) (fst kv)) || stuck out w (fst kv))).
      assert (Hnone : forall k, fs w !! k = None -> filter keep (fs w) !! k = None).
      { intros k Hk. apply map_lookup_filter_None. left. exact Hk. }
      destruct (existsb _ _) eqn:E; simpl.
      + apply Herr; [exact Hnone|].
        apply existsb_exists in E. destruct E as (k & _ & E).
        apply andb_true_iff in E. destruct E as [_ E].
        unfold stuck in E. apply existsb_exists in E. destruct E as (q & _ & E).
        apply andb_true_iff in E. exists q. tauto.
      + apply Hok; [exact Hnone|].
        intros _ k Hk. apply map_lookup_filter_None.
        destruct (fs w !! k) as [x|] eqn:Ek; [right|left; reflexivity].
        intros x' [= <-]. unfold keep. simpl.
        pose proof (existsb_false_elem _ _ k E (key_elem _ _ _ Ek)) as Hs.
        simpl in Hs. apply prefixb_true in Hk. rewrite Hk in *. simpl in *.
        rewrite Hs. simpl. tauto.
Qed.

Lemma post_Mkdir path w (Q : result unit -> World -> list Event -> Prop) :
    (fs w !! resolve path = None ->
     Q (Ok tt) (set_fs (<[resolve path := NDir]> (fs w)) w) [EvMkdir path]) ->
    Q (Err (ErrPath "mkdir" path)) w [EvMkdir path] ->
    post (os_Mkdir path) w Q.
Proof.
    intros Hok Herr. unfold post, os_Mkdir.
    destruct (bool_decide _) eqn:E; simpl; [exact Herr|].
    destruct (is_dir_at _ _); simpl; [|exact Herr].
    apply Hok. apply bool_decide_eq_false in E. apply eq_None_not_Some. exact E.
Qed.

Lemma post_Rename oldpath newpath w (Q : result unit -> World -> list Event -> Prop) :
    (forall f', is_Some (fs w !! resolve oldpath) ->
                Q (Ok tt) (set_fs f' w) [EvRename oldpath newpath]) ->
    Q (Err (ErrPath "rename" oldpath)) w [EvRename oldpath newpath] ->
    post (os_Rename oldpath newpath) w Q.
Proof.
    intros Hok Herr. unfold post, os_Rename.
    destruct (fs w !! resolve oldpath) eqn:E; simpl; [|exact Herr].
    destruct (_ || _); simpl; [exact Herr|]. apply Hok. eauto.
Qed.

Lemma post_Symlink target link w (Q : result unit -> World -> list Event -> Prop) :
    (Q (Ok tt) (set_fs (<[resolve link := NLink target]> (fs w)) w) [EvSymlink target link]) ->
    Q (Err (ErrPath "symlink" link)) w [EvSymlink target link] ->
    post (os_Symlink target link) w Q.
Proof.
    intros Hok Herr. unfold post, os_Symlink.
    destruct (_ || _); simpl; [exact Herr|exact Hok].
Qed.

Lemma post_writeNFOFile path doc w (Q : result unit -> World -> list Event -> Prop) :
    (Q (Ok tt) (set_fs (<[resolve path := NFile doc]> (fs w)) w) [EvWriteNFO path]) ->
    Q (Err (ErrPath "open" path)) w [EvWriteNFO path] ->
    post (writeNFOFile path doc) w Q.
Proof.
    intros Hok Herr. unfold post, writeNFOFile, write_file.
    destruct (_ || _); simpl; [exact Herr|exact Hok].
Qed.

Lemma post_download out url path w (Q : result unit -> World -> list Event -> Prop) :
    (Q (Ok tt) (set_fs (<[resolve path := NFile Raw]> (fs w)) w) [EvDownload url path]) ->
    (forall e, e = ErrPath "open" path \/ e = ErrDownload url ->
               Q (Err e) w [EvDownload url path]) ->
    post (download out url path) w Q.
Proof.
    intros Hok Herr. unfold post, download, write_file.
    destruct (fetch_ok out url); simpl; [|apply Herr; auto].
    destruct (_ || _); simpl; [apply Herr; auto|exact Hok].
Qed.

Lemma post_exists path w (Q : result bool -> World -> list Event -> Prop) :
    Q (Ok (bool_decide (is_Some (fs w !! resolve path)))) w [] ->
    post (exists_ path) w Q.
Proof. exact (fun H => H). Qed.

Lemma post_read_file path w (Q : result Content -> World -> list Event -> Prop) :
    (forall c, Q (Ok c) w []) ->
    Q (Err (ErrPath "open" path)) w [] ->
    post (read_file path) w Q.
Proof.
    intros Hok Herr. unfold post, read_file.
    destruct (open_follow _ _ _); simpl; [apply Hok|exact Herr].
Qed.

End SysFacts.

(** ** The index operations *)

Module IndexFacts.
Import State Index Hoare.

Lemma post_MovieIndex_Has id w (Q : result bool -> World -> list Event -> Prop) :
    Q (Ok (bool_decide (is_Some (movieIndex w !! id)))) w [] ->
    post (MovieIndex_Has id) w Q.
Proof. exact (fun H => H). Qed.

Lemma post_MovieIndex_Add m w (Q : result unit -> World -> list Event -> Prop) :
    Q (Ok tt) (set_movieIndex (<[Movie.ImdbID m := Movie.Path m]> (movieIndex w)) w)
      [EvMovieIndexAdd (Movie.ImdbID m) (Movie.Path m)] ->
    post (MovieIndex_Add m) w Q.
Proof. exact (fun H => H). Qed.

Lemma post_MovieIndex_Remove m w (Q : result unit -> World -> list Event -> Prop) :
    (is_Some (movieIndex w !! Movie.ImdbID m) ->
     Q (Ok tt) (set_movieIndex (delete (Movie.ImdbID m) (movieIndex w)) w)
       [EvMovieIndexRemove (Movie.ImdbID m)]) ->
    (movieIndex w !! Movie.ImdbID m = None ->
     Q (Err ErrNotFound) w [EvMovieIndexRemove (Movie.ImdbID m)]) ->
    post (MovieIndex_Remove m) w Q.
Proof.
    intros Hok Herr. unfold post, MovieIndex_Remove.
    destruct (movieIndex w !! Movie.ImdbID m) eqn:E; simpl; [apply Hok; eauto|apply Herr; reflexivity].
Qed.

Lemma post_MovieIndex_MoviePath id w (Q : result string -> World -> list Event -> Prop) :
    (forall p, movieIndex w !! id = Some p -> Q (Ok p) w []) ->
    (movieIndex w !! id = None -> Q (Err ErrNotFound) w []) ->
    post (MovieIndex_MoviePath id) w Q.
Proof.
    intros Hok Herr. unfold post, MovieIndex_MoviePath.
    destruct (movieIndex w !! id) eqn:E; simpl; [apply Hok|apply Herr]; reflexivity.
Qed.

Lemma post_ShowIndex_HasEpisode id s e w (Q : result bool -> World -> list Event -> Prop) :
    Q (Ok (bool_decide (is_Some (episode_of w id s e)))) w [] ->
    post (ShowIndex_HasEpisode id s e) w Q.
Proof. exact (fun H => H). Qed.

Lemma post_ShowIndex_EpisodePath id s e w (Q : result string -> World -> list Event -> Prop) :
    (forall p, episode_of w id s e = Some p -> Q (Ok p) w []) ->
    (episode_of w id s e = None -> Q (Err ErrNotFound) w []) ->
    post (ShowIndex_EpisodePath id s e) w Q.
Proof.
    intros Hok Herr. unfold post, ShowIndex_EpisodePath.
    destruct (episode_of w id s e) eqn:E; simpl; [apply Hok|apply Herr]; reflexivity.
Qed.

Lemma episode_of_Some w id s e p :
    episode_of w id s e = Some p <->
    exists seasons episodes,
      showIndex w !! id = Some seasons /\ seasons !! s = Some episodes /\
      episodes !! e = Some p.
Proof.
    unfold episode_of, season_of. split.
    - destruct (showIndex w !! id) as [seasons|]; [|discriminate].
      destruct (seasons !! s) as [episodes|] eqn:E; [|discriminate]. eauto.
    - intros (seasons & episodes & -> & -> & ->). reflexivity.
Qed.

Lemma post_ShowIndex_RemoveEpisode se w (Q : result unit -> World -> list Event -> Prop) :
    let id := ShowEpisode.ShowImdbID se in
    let s := ShowEpisode.Season se in
    let e := ShowEpisode.Episode se in
    (forall seasons episodes,
        showIndex w !! id = Some seasons -> seasons !! s = Some episodes ->
        is_Some (episodes !! e) ->
        Q (Ok tt)
          (set_showIndex (<[id := <[s := delete e episodes]> seasons]> (showIndex w)) w)
          [EvShowIndexRemoveEpisode id s e]) ->
    (episode_of w id s e = None ->
     Q (Err ErrNotFound) w [EvShowIndexRemoveEpisode id s e]) ->
    post (ShowIndex_RemoveEpisode se) w Q.
Proof.
    intros id s e Hok Herr. unfold post, ShowIndex_RemoveEpisode, episode_of, season_of in *.
    fold id s e.
    destruct (showIndex w !! id) as [seasons|] eqn:E1; simpl; [|apply Herr; reflexivity].
    destruct (seasons !! s) as [episodes|] eqn:E2; simpl; [|apply Herr; reflexivity].
    destruct (episodes !! e) eqn:E3; simpl; [|apply Herr; reflexivity].
    apply (Hok seasons episodes); eauto.
Qed.

Lemma post_ShowIndex_IsSeasonEmpty id s w (Q : result bool -> World -> list Event -> Prop) :
    (forall episodes, season_of w id s = Some episodes ->
                      Q (Ok (bool_decide (episodes = ∅))) w []) ->
    (season_of w id s = None -> Q (Err ErrNotFound) w []) ->
    post (ShowIndex_IsSeasonEmpty id s) w Q.
Proof.
    intros Hok Herr. unfold post, ShowIndex_IsSeasonEmpty.
    destruct (season_of w id s) eqn:E; simpl; [apply Hok|apply Herr]; reflexivity.
Qed.

Lemma post_ShowIndex_IsShowEmpty id w (Q : result bool -> World -> list Event -> Prop) :
    (forall seasons, showIndex w !! id = Some seasons ->
                     Q (Ok (bool_decide (seasons = ∅))) w []) ->
    (showIndex w !! id = None -> Q (Err ErrNotFound) w []) ->
    post (ShowIndex_IsShowEmpty id) w Q.
Proof.
    intros Hok Herr. unfold post, ShowIndex_IsShowEmpty.
    destruct (showIndex w !! id) eqn:E; simpl; [apply Hok|apply Herr]; reflexivity.
Qed.

Lemma post_ShowIndex_RemoveSeason show s w (Q : result unit -> World -> list Event -> Prop) :
    let id := Show.ImdbID show in
    (forall seasons, showIndex w !! id = Some seasons -> is_Some (seasons !! s) ->
        Q (Ok tt) (set_showIndex (<[id := delete s seasons]> (showIndex w)) w)
          [EvShowIndexRemoveSeason id s]) ->
    (season_of w id s = None -> Q (Err ErrNotFound) w [EvShowIndexRemoveSeason id s]) ->
    post (ShowIndex_RemoveSeason show s) w Q.
Proof.
    intros id Hok Herr. unfold post, ShowIndex_RemoveSeason, season_of in *. fold id.
    destruct (showIndex w !! id) as [seasons|] eqn:E1; simpl; [|apply Herr; reflexivity].
    destruct (seasons !! s) eqn:E2; simpl; [|apply Herr; reflexivity].
    apply (Hok seasons); eauto.
Qed.

Lemma post_ShowIndex_RemoveShow show w (Q : result unit -> World -> list Event -> Prop) :
    let id := Show.ImdbID show in
    (is_Some (showIndex w !! id) ->
     Q (Ok tt) (set_showIndex (delete id (showIndex w)) w) [EvShowIndexRemoveShow id]) ->
    (showIndex w !! id = None -> Q (Err ErrNotFound) w [EvShowIndexRemoveShow id]) ->
    post (ShowIndex_RemoveShow show) w Q.
Proof.
    intros id Hok Herr. unfold post, ShowIndex_RemoveShow. fold id.
    destruct (showIndex w !! id) eqn:E1; simpl; [apply Hok; eauto|apply Herr; reflexivity].
Qed.

Lemma post_ShowIndex_Add ep w (Q : result unit -> World -> list Event -> Prop) :
    (forall i', Q (Ok tt) (set_showIndex i' w)
       [EvShowIndexAdd (ShowEpisode.ShowImdbID ep) (ShowEpisode.Season ep)
          (ShowEpisode.Episode ep) (ShowEpisode.Path ep)]) ->
    post (ShowIndex_Add ep) w Q.
Proof. intros H. apply H. Qed.

End IndexFacts.

(** ** Paths *)

Module PathFacts.
Import GoPath.
Local Open Scope string_scope.

Lemma path_Clean_nonempty s : path_Clean s <> EmptyString.
Proof.
    unfold path_Clean. destruct (rooted s); [discriminate|].
    destruct (String.eqb_spec (join_slash (clean_elems false [] (split_slash s))) EmptyString);
      [discriminate|assumption].
Qed.

Lemma path_Dir_nonempty s : path_Dir s <> EmptyString.
Proof. apply path_Clean_nonempty. Qed.

Lemma append_nonempty a b : b <> EmptyString -> a ++ b <> EmptyString.
Proof. destruct a; simpl; [auto|discriminate]. Qed.

Lemma Join3_nonempty a b c : c <> EmptyString -> filepath_Join [a; b; c] <> EmptyString.
Proof.
    intros Hc. unfold filepath_Join. simpl.
    destruct (String.eqb_spec a EmptyString); [|apply path_Clean_nonempty].
    destruct (String.eqb_spec b EmptyString); [|apply path_Clean_nonempty].
    destruct (String.eqb_spec c EmptyString); [contradiction|apply path_Clean_nonempty].
Qed.

Lemma Join2_nonempty a b : a <> EmptyString -> filepath_Join [a; b] <> EmptyString.
Proof.
    intros Ha. unfold filepath_Join. simpl.
    destruct (String.eqb_spec a EmptyString); [contradiction|apply path_Clean_nonempty].
Qed.

End PathFacts.

Module Tactics.
Import State Sys Index Library Hoare SysFacts IndexFacts.

(** One step of a run: the rule of the construct at the head. *)
Ltac step :=
    lazymatch goal with
    | |- post (mbind _ _) _ _ => apply post_bind
    | |- post (ret _) _ _ => apply post_ret
    | |- post (fail _) _ _ => apply post_fail
    | |- post (try _) _ _ => apply post_try
    | |- post (os_RemoveAll _ _) _ _ => apply post_RemoveAll; intros
    | |- post (os_Mkdir _) _ _ => apply post_Mkdir; intros
    | |- post (os_Rename _ _) _ _ => apply post_Rename; intros
    | |- post (os_Symlink _ _) _ _ => apply post_Symlink; intros
    | |- post (writeNFOFile _ _) _ _ => apply post_writeNFOFile; intros
    | |- post (download _ _ _) _ _ => apply post_download; intros
    | |- post (exists_ _) _ _ => apply post_exists
    | |- post (read_file _) _ _ => apply post_read_file; intros
    | |- post (log_warn _) _ _ => apply post_emit
    | |- post (log_error _) _ _ => apply post_emit
    | |- post (MovieIndex_Has _) _ _ => apply post_MovieIndex_Has
    | |- post (MovieIndex_Add _) _ _ => apply post_MovieIndex_Add
    | |- post (MovieIndex_Remove _) _ _ => apply post_MovieIndex_Remove; intros
    | |- post (MovieIndex_MoviePath _) _ _ => apply post_MovieIndex_MoviePath; intros
    | |- post (ShowIndex_HasEpisode _ _ _) _ _ => apply post_ShowIndex_HasEpisode
    | |- post (ShowIndex_EpisodePath _ _ _) _ _ => apply post_ShowIndex_EpisodePath; intros
    | |- post (ShowIndex_RemoveEpisode _) _ _ => apply post_ShowIndex_RemoveEpisode; intros
    | |- post (ShowIndex_IsSeasonEmpty _ _) _ _ => apply post_ShowIndex_IsSeasonEmpty; intros
    | |- post (ShowIndex_IsShowEmpty _) _ _ => apply post_ShowIndex_IsShowEmpty; intros
    | |- post (ShowIndex_RemoveSeason _ _) _ _ => apply post_ShowIndex_RemoveSeason; intros
    | |- post (ShowIndex_RemoveShow _) _ _ => apply post_ShowIndex_RemoveShow; intros
    | |- post (ShowIndex_Add _) _ _ => apply post_ShowIndex_Add; intros
    | |- post (for_each _ _) _ _ => cbn [for_each]
    | |- post (if ?b then _ else _) _ _ => destruct b eqn:?
    | |- post (match ?x with _ => _ end) _ _ => destruct x eqn:?
    end; cbn beta iota.

Ltac steps := repeat step.
End Tactics.

Module DeleteFacts.
Import GoPath State Sys Index Library Hoare SysFacts IndexFacts PathFacts Tactics.
Local Open Scope string_scope.

(** The three ways [DeleteMovie] ends. *)
Lemma DeleteMovie_spec (out : Outside) (m : Movie.t) (w : World) :
    let d := filepath_Dir (Movie.Path m) in
    let id := Movie.ImdbID m in
    let o := DeleteMovie out m w in
    let gone := forall k, resolve d `prefix_of` k -> fs (world o) !! k = None in
    showIndex (world o) = showIndex w /\
    ((res o = Ok tt /\ gone /\
      is_Some (movieIndex w !! id) /\
      movieIndex (world o) = delete id (movieIndex w) /\
      trace o = [EvRemoveAll d; EvMovieIndexRemove id])
     \/
     (res o = Err ErrNotFound /\ gone /\
      movieIndex w !! id = None /\
      movieIndex (world o) = movieIndex w /\
      trace o = [EvRemoveAll d; EvMovieIndexRemove id])
     \/
     (res o = Err (ErrPath "unlinkat" d) /\
      (exists q, undeletable out q = true) /\
      movieIndex (world o) = movieIndex w /\
      trace o = [EvRemoveAll d])).
Proof.
    intros d id o gone. subst gone o.
    change (post (DeleteMovie out m) w (fun r w' t =>
      showIndex w' = showIndex w /\
      ((r = Ok tt /\ (forall k, resolve d `prefix_of` k -> fs w' !! k = None) /\
        is_Some (movieIndex w !! id) /\
        movieIndex w' = delete id (movieIndex w) /\
        t = [EvRemoveAll d; EvMovieIndexRemove id])
       \/
       (r = Err ErrNotFound /\ (forall k, resolve d `prefix_of` k -> fs w' !! k = None) /\
        movieIndex w !! id = None /\
        movieIndex w' = movieIndex w /\
        t = [EvRemoveAll d; EvMovieIndexRemove id])
       \/
       (r = Err (ErrPath "unlinkat" d) /\
        (exists q, undeletable out q = true) /\
        movieIndex w' = movieIndex w /\
        t = [EvRemoveAll d])))).
    unfold DeleteMovie. fold d. steps.
    - split; [reflexivity|]. left. repeat split; auto.
      apply H0. apply path_Dir_nonempty.
    - split; [reflexivity|]. right. left. repeat split; auto.
      apply H0. apply path_Dir_nonempty.
    - split; [reflexivity|]. right. right. repeat split; auto.
Qed.

(** C6. [DeleteMovie] removes the directory that holds the movie with
      everything below it, and only then removes the index entry; when the
      removal of the directory fails, the file-system error is returned,
      the index entry has not been looked at and both indexes are as
      before. *)
Theorem DeleteMovie_directory_then_index (out : Outside) (m : Movie.t) (w : World) :
    let d := filepath_Dir (Movie.Path m) in
    let id := Movie.ImdbID m in
    let o := DeleteMovie out m w in
    let gone := forall k, resolve d `prefix_of` k -> fs (world o) !! k = None in
    showIndex (world o) = showIndex w /\
    ((res o = Ok tt /\ gone /\
      is_Some (movieIndex w !! id) /\
      movieIndex (world o) = delete id (movieIndex w) /\
      trace o = [EvRemoveAll d; EvMovieIndexRemove id])
     \/
     (res o = Err ErrNotFound /\ gone /\
      movieIndex w !! id = None /\
      movieIndex (world o) = movieIndex w /\
      trace o = [EvRemoveAll d; EvMovieIndexRemove id])
     \/
     (res o = Err (ErrPath "unlinkat" d) /\
      (exists q, undeletable out q = true) /\
      movieIndex (world o) = movieIndex w /\
      trace o = [EvRemoveAll d])).
Proof. exact (DeleteMovie_spec out m w). Qed.

End DeleteFacts.

Module CascadeFacts.
Import GoPath State Sys Index Library Hoare SysFacts IndexFacts PathFacts Tactics.
Local Open Scope string_scope.

Ltac no_failure :=
    match goal with
    | H : forall q, undeletable _ q = false, H' : exists q, undeletable _ q = true |- _ =>
        exfalso; destruct H' as [? H']; rewrite H in H'; discriminate
    end.

Lemma episode_of_Some' w id s e seasons episodes :
    showIndex w !! id = Some seasons -> seasons !! s = Some episodes ->
    is_Some (episodes !! e) -> episode_of w id s e = None -> False.
Proof.
    unfold episode_of, season_of. intros -> -> [x ->]. discriminate.
Qed.

Lemma season_of_set i id s x seasons w :
    season_of (set_showIndex (<[id := <[s := x]> seasons]> i) w) id s = Some x.
Proof.
    unfold season_of. cbn [showIndex set_showIndex]. rewrite !lookup_insert_eq. reflexivity.
Qed.

(** Normalising what is known about the indexes after a step. *)
Ltac idx :=
    cbn [showIndex movieIndex fs set_fs set_showIndex set_movieIndex Show.ImdbID] in *;
    unfold season_of in *;
    cbn [showIndex set_fs set_showIndex] in *;
    repeat match goal with
      | H : context [<[?i := _]> _ !! ?i] |- _ => rewrite lookup_insert_eq in H
      | H : Some _ = None |- _ => discriminate H
      | H : Some ?a = Some ?b |- _ => injection H as <-
      end.

(** C1. For an indexed episode, when the system refuses no removal,
      [DeleteShowEpisode] succeeds; the episode file, its sidecar and its
      subtitle are gone and the index entry is removed; then, in this
      order, the season directory and the season entry are removed if the
      season is left empty, and after that the show directory and the show
      entry if the show is left empty. Deleting the only episode of a show
      with one season removes the season and the show (both conditions
      hold). The trace gives the calls in the order they were made. *)
Theorem DeleteShowEpisode_cascade (out : Outside) (l : Config) (se : ShowEpisode.t)
    (w : World) (seasons : gmap Z (gmap Z string)) (episodes : gmap Z string) :
    let id := ShowEpisode.ShowImdbID se in
    let s := ShowEpisode.Season se in
    let e := ShowEpisode.Episode se in
    let path := ShowEpisode.Path se in
    let nfo := PathWithoutExt path ++ ".nfo" in
    let srt := PathWithoutExt path ++ ".srt" in
    let seasonDir := getSeasonDir l se in
    let showDir := getShowDir l se in
    (forall q, undeletable out q = false) ->
    path <> EmptyString ->
    ShowDir l <> EmptyString ->
    showIndex w !! id = Some seasons ->
    seasons !! s = Some episodes ->
    is_Some (episodes !! e) ->
    let o := DeleteShowEpisode out l se w in
    let season_empty := bool_decide (delete e episodes = ∅) in
    let show_empty := season_empty && bool_decide (delete s seasons = ∅) in
    let gone p := forall k, resolve p `prefix_of` k -> fs (world o) !! k = None in
    res o = Ok tt /\
    gone path /\ gone nfo /\ gone srt /\
    episode_of (world o) id s e = None /\
    trace o =
      ([EvRemoveAll path; EvRemoveAll nfo; EvRemoveAll srt;
        EvShowIndexRemoveEpisode id s e]
       ++ (if season_empty
           then [EvRemoveAll seasonDir; EvShowIndexRemoveSeason id s] else [])
       ++ (if show_empty
           then [EvRemoveAll showDir; EvShowIndexRemoveShow id] else []))%list /\
    showIndex (world o) =
      (if show_empty then delete id (showIndex w)
       else if season_empty then <[id := delete s seasons]> (showIndex w)
       else <[id := <[s := delete e episodes]> seasons]> (showIndex w)) /\
    (season_empty = true -> gone seasonDir) /\
    (show_empty = true -> gone showDir) /\
    movieIndex (world o) = movieIndex w.
Proof.
    intros id s e path nfo srt seasonDir showDir Hfree Hpath Hroot Hshow Hseason Hep
      o season_empty show_empty gone.
    subst gone o.
    change (post (DeleteShowEpisode out l se) w (fun r w' t =>
      r = Ok tt /\
      (forall k, resolve path `prefix_of` k -> fs w' !! k = None) /\
      (forall k, resolve nfo `prefix_of` k -> fs w' !! k = None) /\
      (forall k, resolve srt `prefix_of` k -> fs w' !! k = None) /\
      episode_of w' id s e = None /\
      t = ([EvRemoveAll path; EvRemoveAll nfo; EvRemoveAll srt;
            EvShowIndexRemoveEpisode id s e]
           ++ (if season_empty
               then [EvRemoveAll seasonDir; EvShowIndexRemoveSeason id s] else [])
           ++ (if show_empty
               then [EvRemoveAll showDir; EvShowIndexRemoveShow id] else []))%list /\
      showIndex w' =
        (if show_empty then delete id (showIndex w)
         else if season_empty then <[id := delete s seasons]> (showIndex w)
         else <[id := <[s := delete e episodes]> seasons]> (showIndex w)) /\
      (season_empty = true -> forall k, resolve seasonDir `prefix_of` k -> fs w' !! k = None) /\
      (show_empty = true -> forall k, resolve showDir `prefix_of` k -> fs w' !! k = None) /\
      movieIndex w' = movieIndex w)).
    unfold DeleteShowEpisode. fold id s e path seasonDir showDir.
    step. step; [|no_failure].
    step. cbn [for_each]. step. change (PathWithoutExt path ++ "." ++ "nfo") with nfo.
    step; [|no_failure].
    step. change (PathWithoutExt path ++ "." ++ "srt") with srt.
    step; [|no_failure].
    step. step. step; cbn [showIndex set_fs] in *.
    2:{ exfalso. refine (episode_of_Some' _ _ _ _ seasons episodes _ Hseason Hep H5).
        exact Hshow. }
    fold id s e in H5, H6, H7 |- *.
    rewrite Hshow in H5. injection H5 as <-. rewrite Hseason in H6. injection H6 as <-.
    assert (Hnfo : nfo <> EmptyString) by (apply append_nonempty; discriminate).
    assert (Hsrt : srt <> EmptyString) by (apply append_nonempty; discriminate).
    assert (HseasonDir : seasonDir <> EmptyString) by (apply Join3_nonempty; discriminate).
    assert (HshowDir : showDir <> EmptyString) by (apply Join2_nonempty; exact Hroot).
    step. step; idx. fold season_empty.
    destruct season_empty eqn:Eseason.
    - step. step. step; [|no_failure].
      step; idx. rewrite insert_insert_eq, delete_insert_eq.
      step. step; idx.
      destruct (bool_decide (delete s seasons = ∅)) eqn:Eshow.
      + step. step. step; [|no_failure].
        step; idx.
        step. rewrite delete_insert_eq.
        unfold show_empty. cbn [andb]. unfold episode_of, season_of.
        cbn [showIndex set_showIndex set_fs]. rewrite lookup_delete_eq.
        repeat split; eauto 12.
      + step. step. step.
        unfold show_empty. cbn [andb]. unfold episode_of, season_of.
        cbn [showIndex set_showIndex set_fs]. rewrite lookup_insert_eq, lookup_delete_eq.
        repeat split; eauto 12; discriminate.
    - step. step. step. step; idx.
      rewrite bool_decide_eq_false_2 by apply insert_non_empty.
      step. step. step.
      unfold show_empty. cbn [andb]. unfold episode_of, season_of.
      cbn [showIndex set_showIndex set_fs]. rewrite !lookup_insert_eq, lookup_delete_eq.
      repeat split; eauto 12; discriminate.
Qed.
End CascadeFacts.

Module IngestFacts.
Import GoPath State Sys Index Library Claims Hoare SysFacts IndexFacts PathFacts Tactics.
Import CascadeFacts.
Local Open Scope string_scope.

Ltac quiet :=
    cbn [app];
    repeat first
      [ apply Forall_nil_2
      | apply Forall_cons_2;
        [cbn [not_a_movie_install not_an_episode_install]; first [exact I | reflexivity]|] ].

Lemma eqb_false_of (a b : string) : a <> b -> String.eqb a b = false.
Proof. intros H. destruct (String.eqb_spec a b); congruence. Qed.

Lemma eqb_true_of (a b : string) : a = b -> String.eqb a b = true.
Proof. intros ->. apply String.eqb_refl. Qed.

(** C2, amended. When the directory of the source file is already the
      canonical directory, [AddMovie] and [AddShowEpisode] make no move and
      no compatibility link, and they return right after the comparison:
      the sidecar of the entity is not written and the entity is not
      registered. A movie that was not indexed leaves the world exactly as
      it was, with success; an episode that was not indexed leaves both
      indexes as they were. *)
Theorem ingest_in_place_returns_early (out : Outside) (l : Config) :
    (forall (movie : Movie.t) (w : World),
        path_Dir (Movie.Path movie) = getMovieDir l movie ->
        let o := AddMovie out l movie w in
        Forall not_a_movie_install (trace o) /\
        (Movie.Path movie <> EmptyString -> movieIndex w !! Movie.ImdbID movie = None ->
         o = (Ok tt, w, []))) /\
    (forall (ep : ShowEpisode.t) (w : World),
        path_Dir (ShowEpisode.Path ep) = getSeasonDir l ep ->
        let o := AddShowEpisode out l ep w in
        Forall (not_an_episode_install (showNFOPath (getShowDir l ep))) (trace o) /\
        (episode_of w (ShowEpisode.ShowImdbID ep) (ShowEpisode.Season ep)
           (ShowEpisode.Episode ep) = None ->
         showIndex (world o) = showIndex w /\ movieIndex (world o) = movieIndex w)).
Proof.
    split.
    - intros movie w Hdir o. split.
      + subst o. change (post (AddMovie out l movie) w (fun _ _ t => Forall not_a_movie_install t)).
        unfold AddMovie. rewrite (eqb_true_of _ _ Hdir).
        unfold HasMovie, GetMovie, DeleteMovie, newMovieFromPath, readNFOFile_movie.
        repeat step; quiet.
      + intros Hpath Hidx. subst o. unfold AddMovie.
        rewrite (eqb_false_of _ _ Hpath), (eqb_true_of _ _ Hdir).
        unfold HasMovie, MovieIndex_Has, mbind, M_bind, bind. rewrite Hidx.
        reflexivity.
    - intros ep w Hdir o. split.
      + subst o.
        change (post (AddShowEpisode out l ep) w
                  (fun _ _ t => Forall (not_an_episode_install (showNFOPath (getShowDir l ep))) t)).
        unfold AddShowEpisode. rewrite (eqb_true_of _ _ Hdir).
        unfold HasShowEpisode, GetEpisode, DeleteShowEpisode, newEpisodeFromPath,
          readNFOFile_episode, addShow, GetDetails_logged.
        repeat step; quiet.
      + intros Hidx. subst o.
        change (post (AddShowEpisode out l ep) w
                  (fun _ w' _ => showIndex w' = showIndex w /\ movieIndex w' = movieIndex w)).
        unfold AddShowEpisode. rewrite (eqb_true_of _ _ Hdir).
        unfold HasShowEpisode, addShow, GetDetails_logged.
        destruct (String.eqb _ EmptyString); [step; auto|].
        step. step. rewrite Hidx. cbn [bool_decide decide_rel is_Some_dec option_eq_None_dec].
        repeat step; cbn [showIndex movieIndex set_fs]; auto.
Qed.
End IngestFacts.

Module PreconditionFacts.
Import GoPath State Sys Index Library Claims Hoare SysFacts IndexFacts PathFacts Tactics.
Import CascadeFacts IngestFacts.
Local Open Scope string_scope.

Lemma ends_with_here s : ends_with s s.
Proof. exists []. reflexivity. Qed.

Lemma ends_with_app s t1 t2 : ends_with s t2 -> ends_with s (t1 ++ t2).
Proof. intros [b ->]. exists (t1 ++ b)%list. apply app_assoc. Qed.

Lemma ends_with_cons s e t : ends_with s t -> ends_with s (e :: t).
Proof. intros [b ->]. exists (e :: b). reflexivity. Qed.

Ltac suffix :=
    cbn [app];
    repeat lazymatch goal with
      | |- ends_with ?s ?s => apply ends_with_here
      | |- ends_with _ (_ :: _) => apply ends_with_cons
      | |- ends_with _ (_ ++ _) => apply ends_with_app
      end.

Ltac find_event :=
    cbn [app];
    repeat lazymatch goal with
      | |- ?x ∈ ?x :: _ => apply list_elem_of_here
      | |- _ ∈ _ :: _ => apply list_elem_of_further
      end.

(** A leaf of a run whose error is not the one looked for. *)
Ltac other_error :=
    repeat match goal with
      | H : _ \/ _ |- _ => destruct H
      | H : exists _, _ |- _ => destruct H
      end;
    subst; split; intros; discriminate.

(** What a deletion can answer: success, NotFound from the index, or a
      path error from [os.RemoveAll]. *)
Lemma post_DeleteShowEpisode_outcomes out l se w
    (Q : result unit -> World -> list Event -> Prop) :
    (forall w' t, Q (Ok tt) w' t) ->
    (forall e w' t, e = ErrNotFound \/ (exists p, e = ErrPath "unlinkat" p) ->
                    Q (Err e) w' t) ->
    post (DeleteShowEpisode out l se) w Q.
Proof.
    intros Hok Herr. unfold DeleteShowEpisode.
    repeat step; first [apply Hok | apply Herr; eauto].
Qed.

Lemma post_DeleteMovie_outcomes out m w
    (Q : result unit -> World -> list Event -> Prop) :
    (forall w' t, Q (Ok tt) w' t) ->
    (forall e w' t, e = ErrNotFound \/ (exists p, e = ErrPath "unlinkat" p) ->
                    Q (Err e) w' t) ->
    post (DeleteMovie out m) w Q.
Proof.
    intros Hok Herr. unfold DeleteMovie.
    repeat step; first [apply Hok | apply Herr; eauto].
Qed.

Ltac step' :=
    first
      [ lazymatch goal with
        | |- post (DeleteShowEpisode _ _ _) _ _ =>
            apply post_DeleteShowEpisode_outcomes; intros
        | |- post (DeleteMovie _ _) _ _ =>
            apply post_DeleteMovie_outcomes; intros
        end; cbn beta iota
      | step ].

(** C3, amended. A MissingFilePath failure of [AddMovie] or
      [AddShowEpisode] leaves the world as it was and no call has been
      made. A MissingImageURL failure comes after mutations: [AddMovie] has
      by then moved the file, written the sidecar and registered the movie
      under its new path; [AddShowEpisode] has by then written the sidecar
      of the show. *)
Theorem ingest_precondition_failures (out : Outside) (l : Config) :
    (forall (movie : Movie.t) (w : World),
        let o := AddMovie out l movie w in
        let newPath := filepath_Join [getMovieDir l movie; path_Base (Movie.Path movie)] in
        let movie' := Movie.with_Path newPath movie in
        (res o = Err ErrMissingMovieFilePath -> world o = w /\ trace o = []) /\
        (res o = Err ErrMissingMovieImageURL ->
         movieIndex (world o) !! Movie.ImdbID movie = Some newPath /\
         fs (world o) !! resolve (NfoPath newPath) = Some (NFile (movie_doc movie')) /\
         EvRename (Movie.Path movie) newPath ∈ trace o /\
         ends_with [EvWriteNFO (NfoPath newPath);
                    EvMovieIndexAdd (Movie.ImdbID movie) newPath] (trace o))) /\
    (forall (ep : ShowEpisode.t) (w : World),
        let o := AddShowEpisode out l ep w in
        let showNfo := showNFOPath (getShowDir l ep) in
        (res o = Err ErrMissingShowEpisodeFilePath -> world o = w /\ trace o = []) /\
        (res o = Err ErrMissingShowImageURL ->
         (exists s, fs (world o) !! resolve showNfo = Some (NFile (ShowDoc s))) /\
         ends_with [EvWriteNFO showNfo] (trace o))).
Proof.
    split.
    - intros movie w o newPath movie'. subst o.
      change (post (AddMovie out l movie) w (fun r w' t =>
        (r = Err ErrMissingMovieFilePath -> w' = w /\ t = []) /\
        (r = Err ErrMissingMovieImageURL ->
         movieIndex w' !! Movie.ImdbID movie = Some newPath /\
         fs w' !! resolve (NfoPath newPath) = Some (NFile (movie_doc movie')) /\
         EvRename (Movie.Path movie) newPath ∈ t /\
         ends_with [EvWriteNFO (NfoPath newPath);
                    EvMovieIndexAdd (Movie.ImdbID movie) newPath] t))).
      unfold AddMovie. fold newPath. fold movie'.
      unfold HasMovie, GetMovie, DeleteMovie, newMovieFromPath, readNFOFile_movie.
      step; [step; split; [auto|discriminate]|].
      repeat step.
      all: try other_error.
      all: split; [discriminate|intros _].
      all: cbn [movieIndex fs set_fs set_movieIndex Movie.ImdbID Movie.Path movie' Movie.with_Path].
      all: rewrite !lookup_insert_eq.
      all: repeat split; [find_event|suffix].
    - intros ep w o showNfo. subst o.
      change (post (AddShowEpisode out l ep) w (fun r w' t =>
        (r = Err ErrMissingShowEpisodeFilePath -> w' = w /\ t = []) /\
        (r = Err ErrMissingShowImageURL ->
         (exists s, fs w' !! resolve showNfo = Some (NFile (ShowDoc s))) /\
         ends_with [EvWriteNFO showNfo] t))).
      unfold AddShowEpisode. 
      unfold HasShowEpisode, GetEpisode, newEpisodeFromPath,
        readNFOFile_episode, addShow, GetDetails_logged. fold showNfo.
      step; [step; split; [auto|discriminate]|].
      repeat step'.
      all: try other_error.
      all: split; [discriminate|intros _].
      all: cbn [fs set_fs].
      all: rewrite ?lookup_insert_eq.
      all: split; [eauto|suffix].
Qed.
End PreconditionFacts.

Module ReplaceFacts.
Import GoPath State Sys Index Library Claims Hoare SysFacts IndexFacts PathFacts Tactics.
Import DeleteFacts CascadeFacts IngestFacts PreconditionFacts.
Local Open Scope string_scope.

(** The lookups leave the world alone and return the indexed path. *)
Lemma GetMovie_reads id w p :
    movieIndex w !! id = Some p ->
    world (GetMovie id w) = w /\ trace (GetMovie id w) = [] /\
    match res (GetMovie id w) with
    | Ok old => Movie.Path old = p
    | Err _ => True
    | _ => False
    end.
Proof.
    intros Hp.
    change (post (GetMovie id) w (fun r w' t =>
      w' = w /\ t = [] /\
      match r with Ok old => Movie.Path old = p | Err _ => True | _ => False end)).
    unfold GetMovie, newMovieFromPath, readNFOFile_movie.
    repeat step; repeat split; auto; try congruence.
    all: cbn [Movie.Path Movie.with_Path]; congruence.
Qed.

Lemma GetEpisode_reads id s e w p :
    episode_of w id s e = Some p ->
    world (GetEpisode id s e w) = w /\ trace (GetEpisode id s e w) = [] /\
    match res (GetEpisode id s e w) with
    | Ok old => ShowEpisode.Path old = p
    | Err _ => True
    | _ => False
    end.
Proof.
    intros Hp.
    change (post (GetEpisode id s e) w (fun r w' t =>
      w' = w /\ t = [] /\
      match r with Ok old => ShowEpisode.Path old = p | Err _ => True | _ => False end)).
    unfold GetEpisode, newEpisodeFromPath, readNFOFile_episode.
    repeat step; repeat split; auto; try congruence.
    all: cbn [ShowEpisode.Path ShowEpisode.with_Path]; congruence.
Qed.

Lemma starts_with_here p t : starts_with p (p ++ t).
Proof. exists t. reflexivity. Qed.

(** What a successful [DeleteShowEpisode] leaves behind, whatever the
      index held. *)
Lemma DeleteShowEpisode_ok out l se w :
    let id := ShowEpisode.ShowImdbID se in
    let s := ShowEpisode.Season se in
    let e := ShowEpisode.Episode se in
    let path := ShowEpisode.Path se in
    let nfo := PathWithoutExt path ++ ".nfo" in
    let srt := PathWithoutExt path ++ ".srt" in
    post (DeleteShowEpisode out l se) w (fun r w' t =>
      match r with
      | Ok _ =>
          starts_with [EvRemoveAll path; EvRemoveAll nfo; EvRemoveAll srt;
                       EvShowIndexRemoveEpisode id s e] t /\
          (path <> EmptyString -> forall k, resolve path `prefix_of` k -> fs w' !! k = None) /\
          (forall k, resolve nfo `prefix_of` k -> fs w' !! k = None) /\
          episode_of w' id s e = None
      | Err _ => True
      | _ => False
      end).
Proof.
    intros id s e path nfo srt.
    assert (Hnfo : nfo <> EmptyString) by (apply append_nonempty; discriminate).
    unfold DeleteShowEpisode. fold path. subst id s e.
    step. step; [|exact I].
    step. step. step. change (PathWithoutExt path ++ "." ++ "nfo") with nfo.
    step; [|exact I].
    step. change (PathWithoutExt path ++ "." ++ "srt") with srt.
    step; [|exact I].
    step. step. step; [|exact I].
    repeat step; try exact I; idx.
    all: split; [eexists; cbn [app]; reflexivity|].
    all: cbn [fs set_fs set_showIndex showIndex] in *.
    all: split; [intros; eauto 12|]; split; [intros; eauto 12|].
    all: unfold episode_of, season_of; cbn [showIndex set_showIndex set_fs].
    all: repeat (rewrite ?lookup_insert_eq, ?lookup_delete_eq; cbn beta iota).
    all: reflexivity.
Qed.

(** [AddMovie] past its first check: the replacement of an indexed copy,
      then an installation that does not depend on what was replaced. *)
Lemma AddMovie_shape out l movie :
    Movie.Path movie <> EmptyString ->
    exists install : M unit,
      (forall w, movieIndex w !! Movie.ImdbID movie = None ->
                 AddMovie out l movie w = install w) /\
      (forall w, is_Some (movieIndex w !! Movie.ImdbID movie) ->
                 AddMovie out l movie w
                 = ((GetMovie (Movie.ImdbID movie) ≫= DeleteMovie out)
                      ≫= fun _ => install) w).
Proof.
    intros Hpath. eexists. split.
    - intros w Hidx. unfold AddMovie. rewrite (eqb_false_of _ _ Hpath).
      rewrite bind_run. unfold HasMovie at 1, MovieIndex_Has at 1.
      cbn [res world trace fst snd]. rewrite Hidx.
      cbn [bool_decide decide_rel is_Some_dec].
      rewrite after_nil, bind_run. cbn [ret res world trace fst snd].
      rewrite after_nil. reflexivity.
    - intros w [p Hidx]. unfold AddMovie. rewrite (eqb_false_of _ _ Hpath).
      rewrite bind_run. unfold HasMovie at 1, MovieIndex_Has at 1.
      cbn [res world trace fst snd]. rewrite Hidx.
      cbn [bool_decide decide_rel is_Some_dec].
      rewrite after_nil. reflexivity.
Qed.

Lemma AddShowEpisode_shape out l ep :
    ShowEpisode.Path ep <> EmptyString ->
    let id := ShowEpisode.ShowImdbID ep in
    let s := ShowEpisode.Season ep in
    let e := ShowEpisode.Episode ep in
    exists install : M unit,
      (forall w, episode_of w id s e = None ->
                 AddShowEpisode out l ep w = install w) /\
      (forall w, is_Some (episode_of w id s e) ->
                 AddShowEpisode out l ep w
                 = ((GetEpisode id s e ≫= DeleteShowEpisode out l)
                      ≫= fun _ => install) w).
Proof.
    intros Hpath id s e. eexists. split.
    - intros w Hidx. unfold AddShowEpisode. rewrite (eqb_false_of _ _ Hpath).
      rewrite bind_run. unfold HasShowEpisode at 1, ShowIndex_HasEpisode at 1.
      cbn [res world trace fst snd]. fold id s e. rewrite Hidx.
      cbn [bool_decide decide_rel is_Some_dec].
      rewrite after_nil, bind_run. cbn [ret res world trace fst snd].
      rewrite after_nil. reflexivity.
    - intros w [p Hidx]. unfold AddShowEpisode. rewrite (eqb_false_of _ _ Hpath).
      rewrite bind_run. unfold HasShowEpisode at 1, ShowIndex_HasEpisode at 1.
      cbn [res world trace fst snd]. fold id s e. rewrite Hidx.
      cbn [bool_decide decide_rel is_Some_dec].
      rewrite after_nil. reflexivity.
Qed.

(** C4. When the identifier is already indexed, [AddMovie] (respectively
      [AddShowEpisode]) first reads the indexed entity back from its
      sidecar, which changes nothing, and gives up with that error if it
      cannot; it then runs [DeleteMovie] (respectively
      [DeleteShowEpisode]) on it and gives up if that fails; when the
      deletion succeeds the old directory (the old file and sidecar) is
      gone and the index entry removed before any step of the installation,
      which starts from that world: with a sidecar that carries the
      indexed identifier, the call is the deletion followed by the ingest
      of a copy that was never indexed. *)
Theorem ingest_replaces_previous_copy (out : Outside) (l : Config) :
    (forall (movie : Movie.t) (w : World) (p : string),
        Movie.Path movie <> EmptyString ->
        movieIndex w !! Movie.ImdbID movie = Some p ->
        let g := GetMovie (Movie.ImdbID movie) w in
        world g = w /\ trace g = [] /\
        match res g with
        | Ok old =>
            Movie.Path old = p /\
            let d := DeleteMovie out old w in
            match res d with
            | Ok _ =>
                trace d = [EvRemoveAll (filepath_Dir p);
                           EvMovieIndexRemove (Movie.ImdbID old)] /\
                (forall k, resolve (filepath_Dir p) `prefix_of` k ->
                           fs (world d) !! k = None) /\
                starts_with (trace d) (trace (AddMovie out l movie w)) /\
                (Movie.ImdbID old = Movie.ImdbID movie ->
                 AddMovie out l movie w
                 = after (trace d) (AddMovie out l movie (world d)))
            | Err e => AddMovie out l movie w = (Err e, world d, trace d)
            | _ => False
            end
        | Err e => AddMovie out l movie w = (Err e, w, [])
        | _ => False
        end) /\
    (forall (ep : ShowEpisode.t) (w : World) (p : string),
        let id := ShowEpisode.ShowImdbID ep in
        let s := ShowEpisode.Season ep in
        let e := ShowEpisode.Episode ep in
        ShowEpisode.Path ep <> EmptyString ->
        episode_of w id s e = Some p ->
        let g := GetEpisode id s e w in
        world g = w /\ trace g = [] /\
        match res g with
        | Ok old =>
            ShowEpisode.Path old = p /\
            let id' := ShowEpisode.ShowImdbID old in
            let s' := ShowEpisode.Season old in
            let e' := ShowEpisode.Episode old in
            let d := DeleteShowEpisode out l old w in
            match res d with
            | Ok _ =>
                starts_with
                  [EvRemoveAll p; EvRemoveAll (PathWithoutExt p ++ ".nfo");
                   EvRemoveAll (PathWithoutExt p ++ ".srt");
                   EvShowIndexRemoveEpisode id' s' e'] (trace d) /\
                (p <> EmptyString -> forall k, resolve p `prefix_of` k ->
                                      fs (world d) !! k = None) /\
                (forall k, resolve (PathWithoutExt p ++ ".nfo") `prefix_of` k ->
                           fs (world d) !! k = None) /\
                episode_of (world d) id' s' e' = None /\
                starts_with (trace d) (trace (AddShowEpisode out l ep w)) /\
                (id' = id -> s' = s -> e' = e ->
                 AddShowEpisode out l ep w
                 = after (trace d) (AddShowEpisode out l ep (world d)))
            | Err e => AddShowEpisode out l ep w = (Err e, world d, trace d)
            | _ => False
            end
        | Err e => AddShowEpisode out l ep w = (Err e, w, [])
        | _ => False
        end).
Proof.
    split.
    2:{ intros ep w p id s e Hpath Hidx g.
        destruct (GetEpisode_reads _ _ _ w p Hidx) as (Hw & Ht & Hres).
        fold g in Hw, Ht, Hres.
        split; [exact Hw|]. split; [exact Ht|].
        destruct (AddShowEpisode_shape out l ep Hpath) as (install & Hfresh & Hrepl).
        fold id s e in Hfresh, Hrepl.
        rewrite Hrepl by eauto. rewrite !bind_run. fold g. rewrite Hw, Ht.
        destruct (res g) as [old|err| |]; try contradiction; [|reflexivity].
        split; [exact Hres|]. subst p. rewrite after_nil.
        pose proof (DeleteShowEpisode_ok out l old w) as Hd.
        cbv zeta in Hd |- *. unfold post in Hd.
        set (d := DeleteShowEpisode out l old w) in *.
        destruct (res d) as [[]|err| |]; try contradiction; [|reflexivity].
        destruct Hd as (Hs & Hgone & Hnfo & Hep).
        split; [exact Hs|]. split; [exact Hgone|]. split; [exact Hnfo|].
        split; [exact Hep|]. split.
        - exists (trace (install (world d))). reflexivity.
        - intros <- <- <-. rewrite (Hfresh (world d)); [reflexivity|]. exact Hep. }
    intros movie w p Hpath Hidx g.
    destruct (GetMovie_reads _ w p Hidx) as (Hw & Ht & Hres). fold g in Hw, Ht, Hres.
    split; [exact Hw|]. split; [exact Ht|].
    destruct (AddMovie_shape out l movie Hpath) as (install & Hfresh & Hrepl).
    rewrite Hrepl by eauto. rewrite !bind_run. fold g. rewrite Hw, Ht.
    destruct (res g) as [old|e| |]; try contradiction; [|reflexivity].
    split; [exact Hres|]. subst p. rewrite after_nil.
    destruct (DeleteMovie_spec out old w) as (_ & Hd).
    cbv zeta in Hd |- *.
    set (d := DeleteMovie out old w) in *.
    destruct Hd as [(Hr & Hgone & _ & Hdel & Htr)|[(Hr & _)|(Hr & _)]];
      rewrite Hr; [|reflexivity..].
    split; [exact Htr|]. split; [exact Hgone|]. split.
    - exists (trace (install (world d))). reflexivity.
    - intros Hid. rewrite (Hfresh (world d)); [reflexivity|].
      rewrite Hdel, Hid. apply lookup_delete_eq.
Qed.
End ReplaceFacts.

(** ** The directory walk and the scan workers *)

Module WalkFacts.
Import GoPath State Sys Index Library Rebuild Claims Hoare SysFacts IndexFacts Tactics.
Local Open Scope string_scope.

(** *** Computations that leave the file tree alone *)

Lemma keeps_fs_ret {A} (a : A) : keeps_fs (ret a).
Proof. intros w. reflexivity. Qed.

Lemma keeps_fs_fail {A} e : keeps_fs (@fail A e).
Proof. intros w. reflexivity. Qed.

Lemma keeps_fs_panic {A} : keeps_fs (@panic A).
Proof. intros w. reflexivity. Qed.

Lemma keeps_fs_exhausted {A} : keeps_fs (@exhausted A).
Proof. intros w. reflexivity. Qed.

Lemma keeps_fs_gets {A} (f : World -> A) : keeps_fs (gets f).
Proof. intros w. reflexivity. Qed.

Lemma keeps_fs_emit ev : keeps_fs (emit ev).
Proof. intros w. reflexivity. Qed.

Lemma keeps_fs_bind {A B} (c : M A) (k : A -> M B) :
    keeps_fs c -> (forall a, keeps_fs (k a)) -> keeps_fs (c ≫= k).
Proof.
    intros Hc Hk w. specialize (Hc w).
    unfold mbind, M_bind, bind, world in *.
    destruct (c w) as [[[a|e| |] w1] t1]; simpl in *; try exact Hc.
    specialize (Hk a w1). unfold world in Hk.
    destruct (k a w1) as [[r w2] t2]. simpl in *. congruence.
Qed.

Lemma keeps_fs_try {A} (c : M A) : keeps_fs c -> keeps_fs (try c).
Proof.
    intros Hc w. specialize (Hc w). unfold try, world in *.
    destruct (c w) as [[[a|e| |] w1] t1]; exact Hc.
Qed.

Lemma keeps_fs_return_error e : keeps_fs (return_error e).
Proof. destruct e; intros w; reflexivity. Qed.

Lemma keeps_fs_for_each {A} (xs : list A) (body : A -> M unit) :
    (forall x, keeps_fs (body x)) -> keeps_fs (for_each xs body).
Proof.
    intros Hb. induction xs as [|x xs IH]; simpl.
    - apply keeps_fs_ret.
    - apply keeps_fs_bind; [apply Hb|intros _; exact IH].
Qed.

Lemma keeps_fs_read_file path : keeps_fs (read_file path).
Proof. intros w. unfold read_file. destruct (open_follow _ _ _); reflexivity. Qed.

Lemma keeps_fs_Lstat path : keeps_fs (os_Lstat path).
Proof. intros w. unfold os_Lstat. destruct (fs w !! _); reflexivity. Qed.

Lemma keeps_fs_lstat_entry filename k : keeps_fs (lstat_entry filename k).
Proof. intros w. unfold lstat_entry. destruct (fs w !! _); reflexivity. Qed.

Lemma keeps_fs_readDirNames out path d : keeps_fs (readDirNames out path d).
Proof. intros w. unfold readDirNames. destruct (unreadable out d); reflexivity. Qed.

Lemma keeps_fs_IsDir file : keeps_fs (FileInfo_IsDir file).
Proof. destruct file; intros w; reflexivity. Qed.

Lemma keeps_fs_MovieIndex_Add m : keeps_fs (MovieIndex_Add m).
Proof. intros w. reflexivity. Qed.

Lemma keeps_fs_ShowIndex_Add e : keeps_fs (ShowIndex_Add e).
Proof. intros w. reflexivity. Qed.

Lemma keeps_fs_MovieIndex_Clear : keeps_fs MovieIndex_Clear.
Proof. intros w. reflexivity. Qed.

Lemma keeps_fs_ShowIndex_Clear : keeps_fs ShowIndex_Clear.
Proof. intros w. reflexivity. Qed.

Lemma keeps_fs_set_rootWalked b : keeps_fs (modify (set_rootWalked b)).
Proof. intros w. reflexivity. Qed.

Create HintDb keeps_fs.
#[global] Hint Resolve keeps_fs_ret keeps_fs_fail keeps_fs_panic keeps_fs_exhausted
    keeps_fs_gets keeps_fs_emit keeps_fs_try keeps_fs_return_error keeps_fs_for_each
    keeps_fs_read_file keeps_fs_Lstat keeps_fs_lstat_entry keeps_fs_readDirNames
    keeps_fs_IsDir keeps_fs_MovieIndex_Add keeps_fs_ShowIndex_Add
    keeps_fs_MovieIndex_Clear keeps_fs_ShowIndex_Clear keeps_fs_set_rootWalked
    : keeps_fs.

(** Decomposing a goal [keeps_fs c] along the structure of [c]. *)
Ltac keeps :=
    repeat first
      [ progress intros
      | solve [auto with keeps_fs]
      | apply keeps_fs_bind
      | apply keeps_fs_try
      | apply keeps_fs_for_each
      | lazymatch goal with
        | |- keeps_fs (if ?b then _ else _) => destruct b
        | |- keeps_fs (match ?x with _ => _ end) => destruct x
        end ].

Lemma keeps_fs_walk out (walkFn : WalkFunc) :
    (forall path file err, keeps_fs (walkFn path file err)) ->
    forall fuel path d info, keeps_fs (walk out fuel path d info walkFn).
Proof.
    intros Hfn. induction fuel as [|fuel IH]; intros path d info; cbn [walk].
    - apply keeps_fs_exhausted.
    - keeps.
Qed.

Lemma keeps_fs_Walk out root (walkFn : WalkFunc) :
    (forall path file err, keeps_fs (walkFn path file err)) ->
    keeps_fs (filepath_Walk out root walkFn).
Proof.
    intros Hfn. unfold filepath_Walk. pose proof (keeps_fs_walk out walkFn Hfn). keeps.
Qed.

Lemma keeps_fs_newMovieFromPath path : keeps_fs (newMovieFromPath path).
Proof. unfold newMovieFromPath, readNFOFile_movie. keeps. Qed.

Lemma keeps_fs_newEpisodeFromPath path : keeps_fs (newEpisodeFromPath path).
Proof. unfold newEpisodeFromPath, readNFOFile_episode. keeps. Qed.

Lemma keeps_fs_newShowFromPath path : keeps_fs (newShowFromPath path).
Proof. unfold newShowFromPath, readNFOFile_show. keeps. Qed.

#[global] Hint Resolve keeps_fs_newMovieFromPath keeps_fs_newEpisodeFromPath
    keeps_fs_newShowFromPath : keeps_fs.

Lemma keeps_fs_movieWalkFn l path file err : keeps_fs (movieWalkFn l path file err).
Proof. unfold movieWalkFn, log_error. keeps. Qed.

Lemma keeps_fs_episodeWalkFn l id path file err :
    keeps_fs (episodeWalkFn l id path file err).
Proof. unfold episodeWalkFn, log_error. keeps. Qed.

Lemma keeps_fs_scanEpisodes out l id root : keeps_fs (scanEpisodes out l id root).
Proof.
    unfold scanEpisodes. apply keeps_fs_bind; [|keeps].
    apply keeps_fs_Walk. intros. apply keeps_fs_episodeWalkFn.
Qed.

Lemma keeps_fs_showWalkFn out l path file err :
    keeps_fs (showWalkFn out l path file err).
Proof.
    unfold showWalkFn, log_error. pose proof (keeps_fs_scanEpisodes out l). keeps.
Qed.

Lemma keeps_fs_buildMovieIndex out l : keeps_fs (buildMovieIndex out l).
Proof.
    unfold buildMovieIndex. apply keeps_fs_bind; [|keeps].
    apply keeps_fs_try, keeps_fs_Walk. intros. apply keeps_fs_movieWalkFn.
Qed.

Lemma keeps_fs_buildShowIndex out l : keeps_fs (buildShowIndex out l).
Proof.
    unfold buildShowIndex. apply keeps_fs_bind; [keeps|]. intros _.
    apply keeps_fs_bind; [|keeps].
    apply keeps_fs_Walk. intros. apply keeps_fs_showWalkFn.
Qed.

End WalkFacts.

Module OutcomeFacts.
Import GoPath State Sys Index Library Rebuild Claims Hoare SysFacts IndexFacts Tactics.
Import WalkFacts.
Local Open Scope string_scope.

(** Every entry of the tree is within the depth the walk is given. *)
Lemma entry_depth w k n : fs w !! k = Some n -> (length k < walk_fuel w)%nat.
Proof.
    intros H. unfold walk_fuel. apply Nat.lt_succ_r.
    apply max_list_elem_of_le.
    apply list_elem_of_In, in_map_iff. exists (k, n). split; [reflexivity|].
    apply list_elem_of_In, elem_of_map_to_list. exact H.
Qed.

Lemma walk_fuel_fs w w' : fs w' = fs w -> walk_fuel w' = walk_fuel w.
Proof. unfold walk_fuel. intros ->. reflexivity. Qed.

Section Outcomes.
Variable out : Outside.
Variable good : result unit -> Prop.
Variable walkFn : WalkFunc.
Hypothesis good_nil : good (Ok tt).
Hypothesis fn_keeps : forall path file err, keeps_fs (walkFn path file err).
(** The callback is called with file information or with an error. *)
Hypothesis fn_good :
      forall path file err w,
        (file = None -> err <> None) -> good (res (walkFn path file err w)).

Lemma post_walkFn w0 path file err w :
      fs w = fs w0 -> (file = None -> err <> None) ->
      post (walkFn path file err) w (walk_invariant good w0).
Proof.
      intros Hw Hd. unfold post, walk_invariant. split; [apply fn_good, Hd|].
      rewrite fn_keeps. exact Hw.
Qed.

Lemma post_for_each_inv {A} w0 (xs : list A) (body : A -> M unit) :
      (forall x w, fs w = fs w0 -> post (body x) w (walk_invariant good w0)) ->
      forall w, fs w = fs w0 -> post (for_each xs body) w (walk_invariant good w0).
Proof.
      intros Hb. induction xs as [|x xs IH]; intros w Hw; cbn [for_each].
      - apply post_ret. split; [exact good_nil|exact Hw].
      - apply post_bind. eapply post_weaken; [apply (Hb x w Hw)|].
        intros [[]|e| |] w' t [Hg Hw']; cbn beta iota; try (split; assumption).
        eapply post_weaken; [apply (IH w' Hw')|]. intros r w'' t' H. exact H.
Qed.

Lemma walk_good w0 fuel :
      forall path d info w,
        fs w = fs w0 -> fs w0 !! d = Some info ->
        (walk_fuel w0 <= length d + fuel)%nat ->
        post (walk out fuel path d info walkFn) w (walk_invariant good w0).
Proof.
      induction fuel as [|fuel IH]; intros path d info w Hw Hd Hfuel.
      - exfalso. pose proof (entry_depth _ _ _ Hd). lia.
      - cbn [walk]. destruct (negb (IsDir info)).
        + apply post_walkFn; [exact Hw|discriminate].
        + apply post_bind, post_try. unfold post, readDirNames.
          destruct (unreadable out d); cbn [res world trace fst snd].
          * apply post_bind, post_try.
            eapply post_weaken; [apply post_walkFn; [exact Hw|discriminate]|].
            intros [[]|e| |] w' t [Hg Hw']; cbn beta iota;
              try (split; assumption); apply post_return_error; split; assumption.
          * apply post_bind, post_try.
            eapply post_weaken; [apply post_walkFn; [exact Hw|discriminate]|].
            intros [[]|e| |] w' t [Hg Hw']; cbn beta iota;
              try (split; assumption).
            eapply post_weaken;
              [apply (post_for_each_inv w0); [|exact Hw']|intros r w'' t' H; exact H].
            intros name w1 Hw1. apply post_bind, post_try.
            unfold post at 1, lstat_entry. rewrite Hw1.
            destruct (fs w0 !! (d ++ [name])%list) as [fi|] eqn:Efi; cbn [res world trace fst snd].
            -- apply post_bind, post_try.
               eapply post_weaken; [apply (IH _ _ fi w1 Hw1 Efi)|].
               { rewrite length_app. simpl. lia. }
               intros [[]|e| |] w2 t2 [Hg2 Hw2]; cbn beta iota; try (split; assumption).
               destruct (_ || _); [apply post_fail|apply post_ret]; split; assumption.
            -- apply post_bind, post_try.
               eapply post_weaken; [apply post_walkFn; [exact Hw1|discriminate]|].
               intros [[]|e| |] w2 t2 [Hg2 Hw2]; cbn beta iota; try (split; assumption).
               destruct (negb _); [apply post_fail|apply post_ret]; split; assumption.
Qed.

(** [filepath.Walk] ends the way the callback does, [SkipDir] apart. *)
Lemma Walk_good root w :
      let r := res (filepath_Walk out root walkFn w) in
      good r /\ r <> Err SkipDir.
Proof.
      cbv zeta.
      change (post (filepath_Walk out root walkFn) w
                (fun r _ _ => good r /\ r <> Err SkipDir)).
      unfold filepath_Walk. apply post_bind, post_try. unfold post at 1, os_Lstat.
      destruct (fs w !! resolve root) as [info|] eqn:E; cbn [res world trace fst snd].
      - apply post_bind, post_try, post_bind, post_gets.
        eapply post_weaken; [apply (walk_good w); [reflexivity|exact E|]|].
        { pose proof (entry_depth _ _ _ E). lia. }
        intros [[]|e| |] w' t [Hg _]; cbn beta iota; try (split; [assumption|discriminate]).
        destruct e; cbn [is_SkipDir];
            first [apply post_ret; split; [assumption|discriminate]
                  |apply post_fail; split; [assumption|discriminate]].
      - apply post_bind, post_try.
        eapply post_weaken; [apply (post_walkFn w); [reflexivity|discriminate]|].
        intros [[]|e| |] w' t [Hg _]; cbn beta iota; try (split; [assumption|discriminate]).
        destruct e; cbn [is_SkipDir];
            first [apply post_ret; split; [assumption|discriminate]
                  |apply post_fail; split; [assumption|discriminate]].
Qed.

End Outcomes.
End OutcomeFacts.

Module WorkerFacts.
Import GoPath State Sys Index Library Rebuild Claims Hoare SysFacts IndexFacts Tactics.
Import WalkFacts OutcomeFacts.
Local Open Scope string_scope.

Lemma movieWalkFn_nil l path file err w :
    (file = None -> err <> None) -> res (movieWalkFn l path file err w) = Ok tt.
Proof.
    intros Hd.
    change (post (movieWalkFn l path file err) w (fun r _ _ => r = Ok tt)).
    unfold movieWalkFn, newMovieFromPath, readNFOFile_movie.
    destruct err as [e|]; [repeat step; reflexivity|].
    destruct file as [n|]; [|exfalso; apply Hd; reflexivity].
    cbn [FileInfo_IsDir]. repeat step; reflexivity.
Qed.

Lemma episodeWalkFn_nil l id path file err w :
    (file = None -> err <> None) -> res (episodeWalkFn l id path file err w) = Ok tt.
Proof.
    intros Hd.
    change (post (episodeWalkFn l id path file err) w (fun r _ _ => r = Ok tt)).
    unfold episodeWalkFn, newEpisodeFromPath, readNFOFile_episode.
    destruct err as [e|]; [repeat step; reflexivity|].
    destruct file as [n|]; [|exfalso; apply Hd; reflexivity].
    cbn [FileInfo_IsDir]. repeat step; reflexivity.
Qed.

Lemma Walk_movie_nil out l root w :
    res (filepath_Walk out root (movieWalkFn l) w) = Ok tt.
Proof.
    apply (Walk_good out (fun r => r = Ok tt) (movieWalkFn l) eq_refl).
    - intros. apply keeps_fs_movieWalkFn.
    - intros. apply movieWalkFn_nil. assumption.
Qed.

Lemma buildMovieIndex_nil out l w : res (buildMovieIndex out l w) = Ok tt.
Proof.
    unfold buildMovieIndex.
    change (post (try (filepath_Walk out (MovieDir l) (movieWalkFn l))
                    ≫= fun err => return_error (error_of err)) w (fun r _ _ => r = Ok tt)).
    apply post_bind, post_try. unfold post at 1. rewrite Walk_movie_nil. reflexivity.
Qed.

Lemma scanEpisodes_nil out l id root w : res (scanEpisodes out l id root w) = Ok tt.
Proof.
    unfold scanEpisodes.
    change (post (filepath_Walk out root (episodeWalkFn l id) ≫= fun _ => ret tt) w
              (fun r _ _ => r = Ok tt)).
    apply post_bind. unfold post at 1.
    rewrite (proj1 (Walk_good out (fun r => r = Ok tt) (episodeWalkFn l id) eq_refl
                      (fun p f e => keeps_fs_episodeWalkFn l id p f e)
                      (fun p f e w H => episodeWalkFn_nil l id p f e w H) root w)).
    reflexivity.
Qed.

(** The callback of the show walk answers nil or [SkipDir], or panics. *)
Lemma showWalkFn_outcome out l path file err w :
    let r := res (showWalkFn out l path file err w) in
    r = Ok tt \/ r = Err SkipDir \/ r = Panic.
Proof.
    cbv zeta.
    change (post (showWalkFn out l path file err) w
              (fun r _ _ => r = Ok tt \/ r = Err SkipDir \/ r = Panic)).
    unfold showWalkFn, newShowFromPath, readNFOFile_show.
    destruct file as [n|]; cbn [FileInfo_IsDir]; [|step; apply post_panic; auto].
    step. step. step; [step; auto|].
    step. apply post_gets. step; [step; apply post_modify; step; auto|].
    assert (Hscan : forall id w',
      post (scanEpisodes out l id path ≫= fun _ => fail SkipDir) w'
        (fun r _ _ => r = Ok tt \/ r = Err SkipDir \/ r = Panic)).
    { intros id w'. apply post_bind. unfold post at 1. rewrite scanEpisodes_nil.
      apply post_fail. auto. }
    repeat lazymatch goal with
      | |- post (scanEpisodes _ _ _ _ ≫= _) _ _ => apply Hscan
      | _ => step
      end; auto.
Qed.

Lemma buildShowIndex_outcome out l w :
    let r := res (buildShowIndex out l w) in
    r = Ok tt \/ r = Panic.
Proof.
    cbv zeta.
    change (post (buildShowIndex out l) w (fun r _ _ => r = Ok tt \/ r = Panic)).
    unfold buildShowIndex. apply post_bind, post_modify, post_bind.
    unfold post at 1.
    destruct (Walk_good out (fun r => r = Ok tt \/ r = Err SkipDir \/ r = Panic)
                (showWalkFn out l) (or_introl eq_refl)
                (fun p f e => keeps_fs_showWalkFn out l p f e)
                (fun p f e w _ => showWalkFn_outcome out l p f e w)
                (ShowDir l) (set_rootWalked false w)) as [[H|[H|H]] Hne];
      try contradiction; rewrite H; [apply post_ret|]; auto.
Qed.

End WorkerFacts.

(** ** What the scan workers do not look at *)

Module FrameFacts.
Import GoPath State Sys Index Library Rebuild Claims Hoare SysFacts IndexFacts Tactics.
Import WalkFacts OutcomeFacts WorkerFacts.
Local Open Scope string_scope.

Lemma open_follow_fs hops k w w' :
    fs w' = fs w -> open_follow hops k w' = open_follow hops k w.
Proof.
    intros H. revert k. induction hops as [|hops IH]; intros k; simpl; rewrite H.
    - reflexivity.
    - destruct (fs w !! k) as [[| |target]|]; try reflexivity. apply IH.
Qed.

Section Frame.
Variable f : World -> World.
Hypothesis f_fs : forall w, fs (f w) = fs w.

Lemma commutes_ret {A} (a : A) : commutes f (ret a).
Proof. intros w. reflexivity. Qed.

Lemma commutes_fail {A} e : commutes f (@fail A e).
Proof. intros w. reflexivity. Qed.

Lemma commutes_panic {A} : commutes f (@panic A).
Proof. intros w. reflexivity. Qed.

Lemma commutes_exhausted {A} : commutes f (@exhausted A).
Proof. intros w. reflexivity. Qed.

Lemma commutes_emit ev : commutes f (emit ev).
Proof. intros w. reflexivity. Qed.

Lemma commutes_return_error e : commutes f (return_error e).
Proof. destruct e; intros w; reflexivity. Qed.

Lemma commutes_bind {A B} (c : M A) (k : A -> M B) :
      commutes f c -> (forall a, commutes f (k a)) -> commutes f (c ≫= k).
Proof.
      intros Hc Hk w. unfold mbind, M_bind, bind. rewrite (Hc w).
      unfold res, world, trace.
      destruct (c w) as [[[a|e| |] w1] t1]; simpl; try reflexivity.
      rewrite (Hk a w1). unfold res, world, trace.
      destruct (k a w1) as [[r w2] t2]. reflexivity.
Qed.

Lemma commutes_try {A} (c : M A) : commutes f c -> commutes f (try c).
Proof.
      intros Hc w. unfold try. rewrite (Hc w). unfold res, world, trace.
      destruct (c w) as [[[a|e| |] w1] t1]; reflexivity.
Qed.

Lemma commutes_for_each {A} (xs : list A) (body : A -> M unit) :
      (forall x, commutes f (body x)) -> commutes f (for_each xs body).
Proof.
      intros Hb. induction xs as [|x xs IH]; simpl.
      - apply commutes_ret.
      - apply commutes_bind; [apply Hb|intros _; exact IH].
Qed.

Lemma commutes_read_file path : commutes f (read_file path).
Proof.
      intros w. unfold read_file. rewrite (open_follow_fs _ _ w (f w) (f_fs w)).
      destruct (open_follow _ _ _); reflexivity.
Qed.

Lemma commutes_Lstat path : commutes f (os_Lstat path).
Proof. intros w. unfold os_Lstat. rewrite f_fs. destruct (fs w !! _); reflexivity. Qed.

Lemma commutes_lstat_entry filename k : commutes f (lstat_entry filename k).
Proof. intros w. unfold lstat_entry. rewrite f_fs. destruct (fs w !! _); reflexivity. Qed.

Lemma commutes_readDirNames out path d : commutes f (readDirNames out path d).
Proof.
      intros w. unfold readDirNames, entry_names. rewrite f_fs.
      destruct (unreadable out d); reflexivity.
Qed.

Lemma commutes_walk_fuel : commutes f (gets walk_fuel).
Proof. intros w. unfold gets, walk_fuel. rewrite f_fs. reflexivity. Qed.

Lemma commutes_IsDir file : commutes f (FileInfo_IsDir file).
Proof. destruct file; intros w; reflexivity. Qed.

Create HintDb commutes.
Hint Resolve commutes_ret commutes_fail commutes_panic commutes_exhausted
      commutes_emit commutes_return_error commutes_try commutes_for_each
      commutes_read_file commutes_Lstat commutes_lstat_entry commutes_readDirNames
      commutes_walk_fuel commutes_IsDir : commutes.

Ltac comm :=
      repeat first
        [ progress intros
        | solve [auto with commutes]
        | apply commutes_bind
        | apply commutes_try
        | apply commutes_for_each
        | lazymatch goal with
          | |- commutes _ (if ?b then _ else _) => destruct b
          | |- commutes _ (match ?x with _ => _ end) => destruct x
          end ].

Lemma commutes_walk out (walkFn : WalkFunc) :
      (forall path file err, commutes f (walkFn path file err)) ->
      forall fuel path d info, commutes f (walk out fuel path d info walkFn).
Proof.
      intros Hfn. induction fuel as [|fuel IH]; intros path d info; cbn [walk].
      - apply commutes_exhausted.
      - comm.
Qed.

Lemma commutes_Walk out root (walkFn : WalkFunc) :
      (forall path file err, commutes f (walkFn path file err)) ->
      commutes f (filepath_Walk out root walkFn).
Proof.
      intros Hfn. unfold filepath_Walk. pose proof (commutes_walk out walkFn Hfn). comm.
Qed.

(** The movie worker: [f] may change anything but the tree and the
        movie index. *)
Section Movie.
Hypothesis f_movieIndex : forall w, movieIndex (f w) = movieIndex w.
Hypothesis f_set_movieIndex :
        forall i w, f (set_movieIndex i w) = set_movieIndex i (f w).

Lemma commutes_MovieIndex_Add m : commutes f (MovieIndex_Add m).
Proof.
        intros w. unfold MovieIndex_Add. cbn [res world trace fst snd].
        rewrite f_movieIndex, f_set_movieIndex. reflexivity.
Qed.

Lemma commutes_movieWalkFn l path file err :
        commutes f (movieWalkFn l path file err).
Proof.
        unfold movieWalkFn, log_error, newMovieFromPath, readNFOFile_movie.
        pose proof commutes_MovieIndex_Add. comm.
Qed.

Lemma commutes_buildMovieIndex out l : commutes f (buildMovieIndex out l).
Proof.
        unfold buildMovieIndex. apply commutes_bind; [|comm].
        apply commutes_try, commutes_Walk. intros. apply commutes_movieWalkFn.
Qed.
End Movie.

(** The show worker: [f] may change anything but the tree, the show
        index and the flag of the walk. *)
Section Show.
Hypothesis f_showIndex : forall w, showIndex (f w) = showIndex w.
Hypothesis f_rootWalked : forall w, rootWalked (f w) = rootWalked w.
Hypothesis f_set_showIndex :
        forall i w, f (set_showIndex i w) = set_showIndex i (f w).
Hypothesis f_set_rootWalked :
        forall b w, f (set_rootWalked b w) = set_rootWalked b (f w).

Lemma commutes_ShowIndex_Add e : commutes f (ShowIndex_Add e).
Proof.
        intros w. unfold ShowIndex_Add. cbn [res world trace fst snd].
        rewrite f_showIndex, f_set_showIndex. reflexivity.
Qed.

Lemma commutes_gets_rootWalked : commutes f (gets rootWalked).
Proof. intros w. unfold gets. rewrite f_rootWalked. reflexivity. Qed.

Lemma commutes_modify_rootWalked b : commutes f (modify (set_rootWalked b)).
Proof.
        intros w. unfold modify. cbn [res world trace fst snd].
        rewrite f_set_rootWalked. reflexivity.
Qed.

Lemma commutes_episodeWalkFn l id path file err :
        commutes f (episodeWalkFn l id path file err).
Proof.
        unfold episodeWalkFn, log_error, newEpisodeFromPath, readNFOFile_episode.
        pose proof commutes_ShowIndex_Add. comm.
Qed.

Lemma commutes_scanEpisodes out l id root : commutes f (scanEpisodes out l id root).
Proof.
        unfold scanEpisodes. apply commutes_bind; [|comm].
        apply commutes_Walk. intros. apply commutes_episodeWalkFn.
Qed.

Lemma commutes_showWalkFn out l path file err :
        commutes f (showWalkFn out l path file err).
Proof.
        unfold showWalkFn, log_error, newShowFromPath, readNFOFile_show.
        pose proof (commutes_scanEpisodes out l).
        pose proof commutes_gets_rootWalked. pose proof commutes_modify_rootWalked.
        comm.
Qed.

Lemma commutes_buildShowIndex out l : commutes f (buildShowIndex out l).
Proof.
        unfold buildShowIndex. apply commutes_bind; [apply commutes_modify_rootWalked|].
        intros _. apply commutes_bind; [|comm].
        apply commutes_Walk. intros. apply commutes_showWalkFn.
Qed.
End Show.
End Frame.

End FrameFacts.

Module RebuildFacts.
Import GoPath State Sys Index Library Rebuild Claims Hoare SysFacts IndexFacts Tactics.
Import WalkFacts OutcomeFacts WorkerFacts FrameFacts.
Local Open Scope string_scope.

Lemma outcome_eta {A} (o : result A * World * list Event) :
    o = (res o, world o, trace o).
Proof. destruct o as [[r w] t]. reflexivity. Qed.

(** The movie worker started on an empty movie index behaves as on a
      fresh library over the same tree. *)
Lemma buildMovieIndex_cleared out l w :
    let o := buildMovieIndex out l (set_movieIndex ∅ w) in
    let o0 := buildMovieIndex out l (fresh (fs w)) in
    res o = Ok tt /\ trace o = trace o0 /\
    world o = set_showIndex (showIndex w) (set_rootWalked (rootWalked w) (world o0)).
Proof.
    cbv zeta.
    set (f := fun x => set_showIndex (showIndex w) (set_rootWalked (rootWalked w) x)).
    assert (Hw : set_movieIndex ∅ w = f (fresh (fs w))) by (destruct w; reflexivity).
    rewrite Hw.
    rewrite (commutes_buildMovieIndex f (fun _ => eq_refl) (fun _ => eq_refl)
               (fun _ _ => eq_refl) out l (fresh (fs w))).
    cbn [res world trace fst snd]. rewrite buildMovieIndex_nil. auto.
Qed.

Lemma buildShowIndex_resets out l b w :
    buildShowIndex out l (set_rootWalked b w) = buildShowIndex out l w.
Proof. reflexivity. Qed.

(** The show worker started on an empty show index behaves as on a fresh
      library over the same tree. *)
Lemma buildShowIndex_cleared out l w :
    let o := buildShowIndex out l (set_showIndex ∅ w) in
    let o0 := buildShowIndex out l (fresh (fs w)) in
    res o = res o0 /\ trace o = trace o0 /\
    world o = set_movieIndex (movieIndex w) (world o0).
Proof.
    cbv zeta.
    assert (Hw : set_showIndex ∅ w
                 = set_movieIndex (movieIndex w) (set_rootWalked (rootWalked w) (fresh (fs w))))
      by (destruct w; reflexivity).
    rewrite Hw.
    rewrite (commutes_buildShowIndex (set_movieIndex (movieIndex w)) (fun _ => eq_refl)
               (fun _ => eq_refl) (fun _ => eq_refl) (fun _ _ => eq_refl)
               (fun _ _ => eq_refl) out l).
    rewrite buildShowIndex_resets. auto.
Qed.

(** [RebuildIndex] from any world: what the two workers build on a fresh
      library over the same tree. *)
Lemma RebuildIndex_from_tree out l b w :
    let o := RebuildIndex out l b w in
    let m := buildMovieIndex out l (fresh (fs w)) in
    let s := buildShowIndex out l (fresh (fs w)) in
    fs (world o) = fs w /\
    movieIndex (world o) = movieIndex (world m) /\
    showIndex (world o) = showIndex (world s) /\
    res o = res s /\
    trace o = ([EvMovieIndexClear] ++ trace m ++ [EvShowIndexClear] ++ trace s)%list.
Proof.
    cbv zeta. unfold RebuildIndex.
    destruct (buildMovieIndex_cleared out l w) as (Hr1 & Ht1 & Hw1). cbv zeta in *.
    rewrite bind_run. cbn [MovieIndex_Clear res world trace fst snd].
    rewrite bind_run, try_run, Hr1, Ht1, Hw1. cbn [res world trace fst snd].
    rewrite bind_run. cbn [ShowIndex_Clear res world trace fst snd].
    set (w2 := set_showIndex (showIndex w) (set_rootWalked (rootWalked w)
                 (world (buildMovieIndex out l (fresh (fs w)))))).
    destruct (buildShowIndex_cleared out l w2) as (Hr2 & Ht2 & Hw2). cbv zeta in *.
    assert (Hfs2 : fs w2 = fs w).
    { unfold w2. cbn [fs set_showIndex set_rootWalked].
      apply (keeps_fs_buildMovieIndex out l (fresh (fs w))). }
    rewrite Hfs2 in *.
    rewrite bind_run, try_run, Hr2, Ht2, Hw2.
    pose proof (keeps_fs_buildShowIndex out l (fresh (fs w))) as Hfs3.
    destruct (buildShowIndex_outcome out l (fresh (fs w))) as [Hs|Hs];
      cbv zeta in Hs; rewrite Hs;
      cbn [res world trace fst snd after error_of ret app movieIndex showIndex fs
             set_movieIndex set_showIndex set_rootWalked];
      rewrite ?app_nil_r; repeat split; try reflexivity; exact Hfs3.
Qed.

End RebuildFacts.

Module RebuildClaims.
Import GoPath State Sys Index Library Rebuild Claims Hoare SysFacts IndexFacts Tactics.
Import WalkFacts OutcomeFacts WorkerFacts FrameFacts RebuildFacts.
Local Open Scope string_scope.

(** C5. [RebuildIndex] leaves the file tree as it is, and run a second
      time over it, it ends the same way with the same movie index and the
      same show index, whichever worker reports first. *)
Theorem RebuildIndex_idempotent (out : Outside) (l : Config) (b1 b2 : bool) (w : World) :
    let o1 := RebuildIndex out l b1 w in
    let o2 := RebuildIndex out l b2 (world o1) in
    fs (world o1) = fs w /\
    movieIndex (world o2) = movieIndex (world o1) /\
    showIndex (world o2) = showIndex (world o1) /\
    res o2 = res o1.
Proof.
    cbv zeta.
    destruct (RebuildIndex_from_tree out l b1 w) as (Hfs & Hm & Hs & Hr & _).
    destruct (RebuildIndex_from_tree out l b2 (world (RebuildIndex out l b1 w)))
      as (_ & Hm' & Hs' & Hr' & _).
    cbv zeta in *. rewrite Hfs in *. repeat split; congruence.
Qed.

(** C9. [RebuildIndex] starts by clearing the movie index and clears the
      show index on the way, whatever happens; when it ends, whether with
      an error or not, each index holds what its scan put into an empty
      index, and nothing of what it held before: two libraries over the
      same tree end with the same indexes. *)
Theorem RebuildIndex_discards_previous_index (out : Outside) (l : Config) (b : bool)
    (w : World) :
    let o := RebuildIndex out l b w in
    starts_with [EvMovieIndexClear] (trace o) /\
    EvShowIndexClear ∈ trace o /\
    movieIndex (world o) = movieIndex (world (buildMovieIndex out l (fresh (fs w)))) /\
    showIndex (world o) = showIndex (world (buildShowIndex out l (fresh (fs w)))) /\
    (forall b' w', fs w' = fs w ->
       let o' := RebuildIndex out l b' w' in
       res o' = res o /\ movieIndex (world o') = movieIndex (world o) /\
       showIndex (world o') = showIndex (world o)).
Proof.
    cbv zeta.
    destruct (RebuildIndex_from_tree out l b w) as (Hfs & Hm & Hs & Hr & Ht).
    cbv zeta in *. repeat split.
    - rewrite Ht. eexists. reflexivity.
    - rewrite Ht. set_solver.
    - exact Hm.
    - exact Hs.
    - destruct (RebuildIndex_from_tree out l b' w') as (_ & _ & _ & Hr' & _).
      cbv zeta in *. congruence.
    - destruct (RebuildIndex_from_tree out l b' w') as (_ & Hm' & _).
      cbv zeta in *. congruence.
    - destruct (RebuildIndex_from_tree out l b' w') as (_ & _ & Hs' & _).
      cbv zeta in *. congruence.
Qed.

Lemma newMovieFromPath_reads path w :
    world (newMovieFromPath path w) = w /\ trace (newMovieFromPath path w) = [].
Proof.
    change (post (newMovieFromPath path) w (fun _ w' t => w' = w /\ t = [])).
    unfold newMovieFromPath, readNFOFile_movie. repeat step; auto.
Qed.

Lemma newEpisodeFromPath_reads path w :
    world (newEpisodeFromPath path w) = w /\ trace (newEpisodeFromPath path w) = [].
Proof.
    change (post (newEpisodeFromPath path) w (fun _ w' t => w' = w /\ t = [])).
    unfold newEpisodeFromPath, readNFOFile_episode. repeat step; auto.
Qed.

(** C7, amended. A sidecar that cannot be read or decoded is logged and
      the file skipped; an error of the walk handed to the movie or the
      episode callback is logged and skipped in the same way; so the movie
      worker and the episode scan always return nil, the show worker
      returns no error, and [RebuildIndex] reports none. *)
Theorem scan_failures_are_logged_and_skipped (out : Outside) (l : Config) :
    (forall path info w e,
        IsDir info = false -> video_path l path <> EmptyString ->
        res (newMovieFromPath (video_path l path) w) = Err e ->
        movieWalkFn l path (Some info) None w
        = (Ok tt, w, [EvLogError "library: failed to read movie NFO"])) /\
    (forall id path info w e,
        IsDir info = false -> video_path l path <> EmptyString ->
        res (newEpisodeFromPath (video_path l path) w) = Err e ->
        episodeWalkFn l id path (Some info) None w
        = (Ok tt, w, [EvLogError "library: failed to read episode NFO"])) /\
    (forall path file e w,
        movieWalkFn l path file (Some e) w
        = (Ok tt, w, [EvLogError "library: failed to walk"])) /\
    (forall id path file e w,
        episodeWalkFn l id path file (Some e) w
        = (Ok tt, w, [EvLogError "library: failed to walk"])) /\
    (forall w, res (buildMovieIndex out l w) = Ok tt) /\
    (forall id root w, res (scanEpisodes out l id root w) = Ok tt) /\
    (forall w e, res (buildShowIndex out l w) <> Err e) /\
    (forall b w e, res (RebuildIndex out l b w) <> Err e).
Proof.
    split; [|split; [|split; [|split; [|split; [|split; [|split]]]]]].
    - intros path info w e Hdir Hvideo Herr. unfold movieWalkFn.
      cbn [FileInfo_IsDir]. rewrite bind_run. cbn [ret res world trace fst snd].
      rewrite Hdir, after_nil.
      destruct (String.eqb_spec (video_path l path) EmptyString); [contradiction|].
      destruct (newMovieFromPath_reads (video_path l path) w) as [Hw Ht].
      rewrite bind_run, try_run, Herr, Hw, Ht. cbn [res world trace fst snd].
      reflexivity.
    - intros id path info w e Hdir Hvideo Herr. unfold episodeWalkFn.
      cbn [FileInfo_IsDir]. rewrite bind_run. cbn [ret res world trace fst snd].
      rewrite Hdir, after_nil.
      destruct (String.eqb_spec (video_path l path) EmptyString); [contradiction|].
      destruct (newEpisodeFromPath_reads (video_path l path) w) as [Hw Ht].
      rewrite bind_run, try_run, Herr, Hw, Ht. cbn [res world trace fst snd].
      reflexivity.
    - intros. reflexivity.
    - intros. reflexivity.
    - intros w. apply buildMovieIndex_nil.
    - intros id root w. apply scanEpisodes_nil.
    - intros w e H. destruct (buildShowIndex_outcome out l w) as [H'|H'];
        cbv zeta in H'; congruence.
    - intros b w e H.
      destruct (RebuildIndex_from_tree out l b w) as (_ & _ & _ & Hr & _).
      cbv zeta in Hr. rewrite Hr in H.
      destruct (buildShowIndex_outcome out l (fresh (fs w))) as [H'|H'];
        cbv zeta in H'; congruence.
Qed.

End RebuildClaims.

Module ExampleFacts.
Import GoPath State Sys Index Library Rebuild Claims Examples.
Import DeleteFacts CascadeFacts IngestFacts PreconditionFacts ReplaceFacts RebuildClaims.
Local Open Scope string_scope.

Example scenario_add_movie :
    let o := AddMovie quiet_outside cfg foo downloads in
    res o = Ok tt /\
    fs (world o) !! ["movies"; "Foo (2020)"; "foo.mkv"] = Some (NFile Raw) /\
    is_Some (fs (world o) !! ["movies"; "Foo (2020)"; "foo.nfo"]) /\
    movieIndex (world o) !! "tt001" = Some "/movies/Foo (2020)/foo.mkv".
Proof. vm_compute. repeat split; eauto. Qed.

Lemma DeleteShowEpisode_cascade_witness :
    res (DeleteShowEpisode quiet_outside cfg bar_1_1_stored with_bar) = Ok tt.
Proof.
    refine (proj1 (DeleteShowEpisode_cascade quiet_outside cfg bar_1_1_stored with_bar
                     {[1 := {[1 := "/shows/Bar/Season 1/e1.mkv"]}]}
                     {[1 := "/shows/Bar/Season 1/e1.mkv"]} _ _ _ _ _ _)).
    - intros q. reflexivity.
    - discriminate.
    - discriminate.
    - vm_compute. reflexivity.
    - vm_compute. reflexivity.
    - exists "/shows/Bar/Season 1/e1.mkv". vm_compute. reflexivity.
Defined.

Lemma in_place_counterexample :
    ~ in_place_movie_is_registered quiet_outside cfg foo_in_place placed.
Proof.
    unfold in_place_movie_is_registered. intros H.
    assert (Hdir : path_Dir (Movie.Path foo_in_place) = getMovieDir cfg foo_in_place)
      by (vm_compute; reflexivity).
    assert (Hres : res (AddMovie quiet_outside cfg foo_in_place placed) = Ok tt)
      by (vm_compute; reflexivity).
    destruct (H Hdir Hres) as [_ [p Hp]]. vm_compute in Hp. discriminate.
Qed.

Lemma ingest_in_place_witness :
    AddMovie quiet_outside cfg foo_in_place placed = (Ok tt, placed, []).
Proof.
    refine (proj2 (proj1 (ingest_in_place_returns_early quiet_outside cfg)
                     foo_in_place placed _) _ _).
    - vm_compute. reflexivity.
    - discriminate.
    - vm_compute. reflexivity.
Defined.

Lemma precondition_counterexample :
    ~ precondition_failure_is_clean quiet_outside cfg foo_without_art downloads.
Proof.
    unfold precondition_failure_is_clean. intros H.
    assert (Hres : res (AddMovie quiet_outside cfg foo_without_art downloads)
                   = Err ErrMissingMovieImageURL) by (vm_compute; reflexivity).
    destruct (H (or_intror Hres)) as (_ & Hidx & _).
    apply (f_equal (fun i => i !! "tt001")) in Hidx. vm_compute in Hidx. discriminate.
Qed.

Lemma ingest_precondition_witness :
    movieIndex (world (AddMovie quiet_outside cfg foo_without_art downloads)) !! "tt001"
    = Some "/movies/Foo (2020)/foo.mkv".
Proof.
    refine (proj1 (proj2 (proj1 (ingest_precondition_failures quiet_outside cfg)
                            foo_without_art downloads) _)).
    vm_compute. reflexivity.
Defined.

Lemma ingest_replaces_witness :
    world (GetMovie "tt001" with_foo) = with_foo.
Proof.
    refine (proj1 (proj1 (ingest_replaces_previous_copy quiet_outside cfg)
                     foo with_foo "/movies/Foo (2020)/foo.mkv" _ _)).
    - discriminate.
    - vm_compute. reflexivity.
Defined.

Lemma walk_failure_counterexample :
    ~ walk_failure_is_reported quiet_outside cfg_no_movie_root downloads.
Proof.
    unfold walk_failure_is_reported. intros H.
    destruct (H (ErrPath "lstat" "/nowhere")) as [Hb _]; [vm_compute; reflexivity|].
    vm_compute in Hb. discriminate.
Qed.

Lemma scan_failures_witness :
    movieWalkFn cfg "/movies/x.mkv" (Some (NFile Raw)) None downloads
    = (Ok tt, downloads, [EvLogError "library: failed to read movie NFO"]).
Proof.
    refine (proj1 (scan_failures_are_logged_and_skipped quiet_outside cfg)
              "/movies/x.mkv" (NFile Raw) downloads (ErrPath "open" "/movies/x.nfo") _ _ _).
    - reflexivity.
    - discriminate.
    - vm_compute. reflexivity.
Defined.

Lemma RebuildIndex_discards_witness :
    movieIndex (world (RebuildIndex quiet_outside cfg true with_foo))
    = movieIndex (world (RebuildIndex quiet_outside cfg true
                           (set_movieIndex {["tt999" := "/gone"]} with_foo))).
Proof.
    symmetry.
    refine (proj1 (proj2 (proj2 (proj2 (proj2 (proj2
              (RebuildIndex_discards_previous_index quiet_outside cfg true with_foo))))
              true (set_movieIndex {["tt999" := "/gone"]} with_foo) _))).
    reflexivity.
Defined.

(** C8. With a show root that does not exist, the walk hands the callback
      of [buildShowIndex] a nil [file] and the error; the callback calls
      [file.IsDir()] first: [RebuildIndex] panics. *)
Theorem RebuildIndex_panics_without_show_root :
    res (os_Lstat (ShowDir cfg_no_show_root) with_foo) = Err (ErrPath "lstat" "/nowhere") /\
    res (buildShowIndex quiet_outside cfg_no_show_root with_foo) = Panic /\
    res (RebuildIndex quiet_outside cfg_no_show_root true with_foo) = Panic.
Proof. vm_compute. auto. Qed.

End ExampleFacts.

(** ** Ingest: what a success leaves, what can be returned *)

Module IngestOutcomeFacts.
Import GoPath State Sys Index Library Claims Outcomes Hoare SysFacts IndexFacts PathFacts Tactics.
Import CascadeFacts IngestFacts PreconditionFacts.
Local Open Scope string_scope.

Lemma post_ShowIndex_Add_exact ep w (Q : result unit -> World -> list Event -> Prop) :
    Q (Ok tt) (world (ShowIndex_Add ep w))
      [EvShowIndexAdd (ShowEpisode.ShowImdbID ep) (ShowEpisode.Season ep)
         (ShowEpisode.Episode ep) (ShowEpisode.Path ep)] ->
    post (ShowIndex_Add ep) w Q.
Proof. exact (fun H => H). Qed.

Lemma episode_of_Add ep w :
    episode_of (world (ShowIndex_Add ep w)) (ShowEpisode.ShowImdbID ep)
      (ShowEpisode.Season ep) (ShowEpisode.Episode ep) = Some (ShowEpisode.Path ep).
Proof.
    unfold episode_of, season_of, ShowIndex_Add. cbn [world fst snd showIndex set_showIndex].
    rewrite !lookup_insert_eq. reflexivity.
Qed.

Lemma fs_ShowIndex_Add ep w : fs (world (ShowIndex_Add ep w)) = fs w.
Proof. reflexivity. Qed.

Lemma file_here (f : gmap (list string) Node) k c :
    exists c', <[k := NFile c]> f !! k = Some (NFile c').
Proof. exists c. apply lookup_insert_eq. Qed.

Lemma file_further (f : gmap (list string) Node) k k' c :
    (exists c', f !! k = Some (NFile c')) ->
    exists c', <[k' := NFile c]> f !! k = Some (NFile c').
Proof.
    intros [c' H]. destruct (decide (k' = k)) as [->|Hne].
    - exists c. apply lookup_insert_eq.
    - exists c'. rewrite lookup_insert_ne; assumption.
Qed.

(** The file written at [k] is still a file after later writes. *)
Ltac find_file := first [apply file_here | apply file_further; find_file].

(** A leaf of a run that did not succeed. *)
Ltac failed := intros; discriminate.

(** X1. An [AddMovie] that returns without error for a movie whose file
      does not lie in its store directory has moved the file: the index maps
      the movie's identifier to the new path (the store directory joined with
      the file's base name), the sidecar and both images are regular files of
      the tree, the store directory was created and the file renamed, and the
      last four events are the write of the sidecar, the index entry and the
      two downloads, in that order. *)
Theorem AddMovie_installs (out : Outside) (l : Config) (movie : Movie.t) (w : World) :
    let o := AddMovie out l movie w in
    let storePath := getMovieDir l movie in
    let newPath := filepath_Join [storePath; path_Base (Movie.Path movie)] in
    let movie' := Movie.with_Path newPath movie in
    path_Dir (Movie.Path movie) <> storePath ->
    res o = Ok tt ->
    movieIndex (world o) !! Movie.ImdbID movie = Some newPath /\
    is_file (world o) (NfoPath newPath) /\
    is_file (world o) (MovieFanartPath movie') /\
    is_file (world o) (MovieThumbPath movie') /\
    EvMkdir storePath ∈ trace o /\
    EvRename (Movie.Path movie) newPath ∈ trace o /\
    ends_with [EvWriteNFO (NfoPath newPath);
               EvMovieIndexAdd (Movie.ImdbID movie) newPath;
               EvDownload (Movie.Fanart movie) (MovieFanartPath movie');
               EvDownload (Movie.Thumb movie) (MovieThumbPath movie')] (trace o).
Proof.
    intros o storePath newPath movie' Hdir. subst o.
    change (post (AddMovie out l movie) w (fun r w' t =>
      r = Ok tt ->
      movieIndex w' !! Movie.ImdbID movie = Some newPath /\
      is_file w' (NfoPath newPath) /\
      is_file w' (MovieFanartPath movie') /\
      is_file w' (MovieThumbPath movie') /\
      EvMkdir storePath ∈ t /\
      EvRename (Movie.Path movie) newPath ∈ t /\
      ends_with [EvWriteNFO (NfoPath newPath);
                 EvMovieIndexAdd (Movie.ImdbID movie) newPath;
                 EvDownload (Movie.Fanart movie) (MovieFanartPath movie');
                 EvDownload (Movie.Thumb movie) (MovieThumbPath movie')] t)).
    unfold AddMovie. fold storePath. rewrite (eqb_false_of _ _ Hdir).
    fold newPath. fold movie'.
    unfold HasMovie, GetMovie, DeleteMovie, newMovieFromPath, readNFOFile_movie.
    step; [step; failed|].
    repeat step.
    all: try failed.
    all: intros _.
    all: unfold is_file.
    all: cbn [movieIndex fs set_fs set_movieIndex Movie.ImdbID Movie.Path Movie.Fanart
                Movie.Thumb movie' Movie.with_Path fst snd].
    all: split; [apply lookup_insert_eq|].
    all: split; [find_file|].
    all: split; [find_file|].
    all: split; [find_file|].
    all: split; [find_event|].
    all: split; [find_event|suffix].
Qed.

(** What a deletion answers, with the events it made: removals only. *)
Lemma post_DeleteShowEpisode_quiet out l se w
    (Q : result unit -> World -> list Event -> Prop) :
    (forall w' t, Forall deletion_event t -> Q (Ok tt) w' t) ->
    (forall e w' t, Forall deletion_event t ->
                    e = ErrNotFound \/ (exists p, e = ErrPath "unlinkat" p) ->
                    Q (Err e) w' t) ->
    post (DeleteShowEpisode out l se) w Q.
Proof.
    intros Hok Herr. unfold DeleteShowEpisode.
    repeat step.
    all: first [apply Hok | apply Herr; [|eauto]].
    all: cbn [app]; repeat first [apply Forall_nil_2 | apply Forall_cons_2; [exact I|]].
Qed.

Ltac xstep :=
    first
      [ lazymatch goal with
        | |- post (DeleteShowEpisode _ _ _) _ _ =>
            apply post_DeleteShowEpisode_quiet; intros
        | |- post (ShowIndex_Add _) _ _ => apply post_ShowIndex_Add_exact
        end; cbn beta iota
      | step ].

Ltac find_ev :=
    cbn [app];
    first [ apply list_elem_of_here
          | apply list_elem_of_further; find_ev
          | apply elem_of_app; right; find_ev
          | apply elem_of_app; left; find_ev ].

Lemma deletion_not_a_warning t : Forall deletion_event t -> Forall not_a_warning t.
Proof. intros H. eapply Forall_impl; [exact H|]. intros []; simpl; tauto. Qed.

Lemma no_warning t msg : Forall not_a_warning t -> EvLogWarn msg ∈ t -> False.
Proof.
    intros H Hin. rewrite Forall_forall in H. exact (H _ Hin).
Qed.

Ltac no_warnings :=
    cbn [app];
    repeat first
      [ apply Forall_nil_2
      | apply Forall_cons_2; [exact I|]
      | apply Forall_app_2
      | assumption
      | apply deletion_not_a_warning; assumption ].

(** A leaf of a run that returns an error: which one. *)
Ltac classify :=
    repeat match goal with
      | H : _ \/ _ |- _ => destruct H
      | H : exists _, _ |- _ => destruct H
      end;
    subst; first [exact I | assumption | reflexivity].

(** What [addShow] answers; it makes no move and logs no warning. *)
Lemma post_addShow_outcomes out l ep w
    (Q : result unit -> World -> list Event -> Prop) :
    (forall w' t, Forall not_a_warning t -> Q (Ok tt) w' t) ->
    (forall e w' t, Forall not_a_warning t -> episode_ingest_error e = true ->
                    Q (Err e) w' t) ->
    post (addShow out l ep) w Q.
Proof.
    intros Hok Herr. unfold addShow, GetDetails_logged.
    repeat step.
    all: first [apply Hok | apply Herr; [|classify]].
    all: no_warnings.
Qed.

Ltac ystep :=
    first
      [ lazymatch goal with
        | |- post (addShow _ _ _) _ _ => apply post_addShow_outcomes; intros
        end; cbn beta iota
      | xstep ].

Lemma AddShowEpisode_run (out : Outside) (l : Config) (ep : ShowEpisode.t) (w : World) :
    let seasonDir := getSeasonDir l ep in
    let newPath := filepath_Join [seasonDir; path_Base (ShowEpisode.Path ep)] in
    let ep' := ShowEpisode.with_Path newPath ep in
    post (AddShowEpisode out l ep) w (fun r w' t =>
      (path_Dir (ShowEpisode.Path ep) <> seasonDir -> r = Ok tt ->
       episode_of w' (ShowEpisode.ShowImdbID ep) (ShowEpisode.Season ep)
         (ShowEpisode.Episode ep) = Some newPath /\
       fs w' !! resolve (NfoPath newPath) = Some (NFile (episode_doc ep')) /\
       EvRename (ShowEpisode.Path ep) newPath ∈ t /\
       ends_with [EvWriteNFO (NfoPath newPath);
                  EvShowIndexAdd (ShowEpisode.ShowImdbID ep) (ShowEpisode.Season ep)
                    (ShowEpisode.Episode ep) newPath] t) /\
      match r with
      | Ok _ => True
      | Err e => episode_ingest_error e = true
      | _ => False
      end /\
      (forall msg, EvLogWarn msg ∈ t -> EvWriteNFO (NfoPath newPath) ∈ t)).
Proof.
    intros seasonDir newPath ep'.
    unfold AddShowEpisode. fold seasonDir. fold newPath. fold ep'.
    unfold HasShowEpisode, GetEpisode, newEpisodeFromPath, readNFOFile_episode.
    step; [step; split; [failed|split; [reflexivity|intros msg H; inversion H]]|].
    repeat ystep.
    all: cbn [ShowEpisode.ShowImdbID ShowEpisode.Season ShowEpisode.Episode
                ShowEpisode.Path ep' ShowEpisode.with_Path].
    all: (split; [|split]);
           [ first [ failed
                   | intros Hdir _; first [ exfalso; apply Hdir;
                                            apply String.eqb_eq; assumption | idtac ] ]
           | classify
           | intros msg Hmsg;
             first [ solve [exfalso; refine (no_warning _ msg _ Hmsg); no_warnings]
                   | find_ev ] ].
    all: split; [apply (episode_of_Add ep')|].
    all: rewrite fs_ShowIndex_Add; cbn [fs set_fs].
    all: split; [apply lookup_insert_eq|].
    all: split; [find_ev|suffix].
Qed.

(** X2. An [AddShowEpisode] that returns without error for an episode
      whose file does not lie in its season directory has moved the file:
      the index maps the show, season and episode to the new path, the
      sidecar at the new path holds the document of the episode with its
      path rewritten, the file was renamed, and the last two events are the
      write of the sidecar and the index entry. *)
Theorem AddShowEpisode_installs (out : Outside) (l : Config) (ep : ShowEpisode.t)
    (w : World) :
    let o := AddShowEpisode out l ep w in
    let seasonDir := getSeasonDir l ep in
    let newPath := filepath_Join [seasonDir; path_Base (ShowEpisode.Path ep)] in
    let ep' := ShowEpisode.with_Path newPath ep in
    path_Dir (ShowEpisode.Path ep) <> seasonDir ->
    res o = Ok tt ->
    episode_of (world o) (ShowEpisode.ShowImdbID ep) (ShowEpisode.Season ep)
      (ShowEpisode.Episode ep) = Some newPath /\
    fs (world o) !! resolve (NfoPath newPath) = Some (NFile (episode_doc ep')) /\
    EvRename (ShowEpisode.Path ep) newPath ∈ trace o /\
    ends_with [EvWriteNFO (NfoPath newPath);
               EvShowIndexAdd (ShowEpisode.ShowImdbID ep) (ShowEpisode.Season ep)
                 (ShowEpisode.Episode ep) newPath] (trace o).
Proof.
    intros o seasonDir newPath ep'.
    exact (proj1 (AddShowEpisode_run out l ep w)).
Qed.


End IngestOutcomeFacts.

(** ** Deletion: what it leaves of the show index *)

Module DeleteIndexFacts.
Import GoPath State Sys Index Library Claims Outcomes Hoare SysFacts IndexFacts PathFacts Tactics.
Import CascadeFacts.
Local Open Scope string_scope.

(** The show index after [DeleteShowEpisode], however it ends. *)
Lemma DeleteShowEpisode_index (out : Outside) (l : Config) (se : ShowEpisode.t) (w : World) :
    let id := ShowEpisode.ShowImdbID se in
    let s := ShowEpisode.Season se in
    let e := ShowEpisode.Episode se in
    post (DeleteShowEpisode out l se) w (fun r w' t =>
      movieIndex w' = movieIndex w /\
      ((showIndex w' = showIndex w /\ r <> Ok tt) \/
       exists seasons episodes,
         showIndex w !! id = Some seasons /\ seasons !! s = Some episodes /\
         is_Some (episodes !! e) /\
         ((showIndex w' = <[id := <[s := delete e episodes]> seasons]> (showIndex w) /\
           (r = Ok tt -> delete e episodes <> ∅)) \/
          (delete e episodes = ∅ /\
           showIndex w' = <[id := delete s seasons]> (showIndex w) /\
           (r = Ok tt -> delete s seasons <> ∅)) \/
          (delete e episodes = ∅ /\ delete s seasons = ∅ /\
           showIndex w' = delete id (showIndex w))))).
Proof.
    intros id s e. subst id s e. unfold DeleteShowEpisode.
    repeat step; idx.
    all: repeat match goal with
           | H : bool_decide _ = true |- _ => apply bool_decide_eq_true in H
           | H : bool_decide _ = false |- _ => apply bool_decide_eq_false in H
           | H : context [delete ?i (<[?i := _]> _)] |- _ => rewrite delete_insert_eq in H
           end.
    all: try match goal with
           | H : <[_ := _]> _ = ∅ |- _ => exfalso; exact (insert_non_empty _ _ _ H)
           end.
    all: rewrite ?insert_insert_eq, ?delete_insert_eq.
    all: split; [reflexivity|].
    all: first
           [ left; split; [reflexivity|discriminate]
           | right; eexists; eexists;
             split; [eassumption|]; split; [eassumption|]; split; [assumption|];
             first
               [ left; split; [reflexivity|first [intros _; assumption|discriminate]]
               | right; left; split; [assumption|]; split; [reflexivity|];
                 first [intros _; assumption|discriminate]
               | right; right; split; [assumption|]; split; [assumption|reflexivity] ] ].
Qed.

Lemma lookup_of_delete_empty {A} (m : gmap Z A) i j :
    delete i m = ∅ -> i <> j -> m !! j = None.
Proof.
    intros H Hne. rewrite <- (lookup_delete_ne m i j Hne), H. apply lookup_empty.
Qed.

(** X5. Whatever [DeleteShowEpisode] returns, it leaves the movie index
      alone, and every episode other than the one named by the argument
      keeps its index entry. *)
Theorem DeleteShowEpisode_keeps_other_episodes (out : Outside) (l : Config)
    (se : ShowEpisode.t) (w : World) :
    let o := DeleteShowEpisode out l se w in
    movieIndex (world o) = movieIndex w /\
    forall id' s' e',
      (id', s', e') <> (ShowEpisode.ShowImdbID se, ShowEpisode.Season se,
                        ShowEpisode.Episode se) ->
      episode_of (world o) id' s' e' = episode_of w id' s' e'.
Proof.
    intros o. destruct (DeleteShowEpisode_index out l se w) as [Hm Hs].
    fold o in Hm, Hs. split; [exact Hm|].
    intros id' s' e' Hne. unfold episode_of, season_of.
    destruct Hs as [[-> _]|(seasons & episodes & Hid & Hse & _ & Hs)]; [reflexivity|].
    destruct (decide (id' = ShowEpisode.ShowImdbID se)) as [->|Hid'].
    2:{ destruct Hs as [[-> _]|[(_ & -> & _)|(_ & _ & ->)]];
          rewrite ?lookup_insert_ne, ?lookup_delete_ne by congruence; reflexivity. }
    rewrite Hid.
    destruct (decide (s' = ShowEpisode.Season se)) as [->|Hs'].
    - assert (He' : ShowEpisode.Episode se <> e') by congruence.
      rewrite Hse.
      destruct Hs as [[-> _]|[(Hempty & -> & _)|(Hempty & _ & ->)]].
      + rewrite !lookup_insert_eq. apply lookup_delete_ne. exact He'.
      + rewrite lookup_insert_eq, lookup_delete_eq.
        symmetry. apply (lookup_of_delete_empty _ _ _ Hempty He').
      + rewrite lookup_delete_eq.
        symmetry. apply (lookup_of_delete_empty _ _ _ Hempty He').
    - assert (Hs'' : ShowEpisode.Season se <> s') by congruence.
      destruct Hs as [[-> _]|[(_ & -> & _)|(_ & Hempty & ->)]].
      + rewrite lookup_insert_eq, lookup_insert_ne by exact Hs''. reflexivity.
      + rewrite lookup_insert_eq, lookup_delete_ne by exact Hs''. reflexivity.
      + rewrite lookup_delete_eq, (lookup_of_delete_empty _ _ _ Hempty Hs''). reflexivity.
Qed.

Lemma DeleteShowEpisode_wf (out : Outside) (l : Config)
    (se : ShowEpisode.t) (w : World) :
    let o := DeleteShowEpisode out l se w in
    nonempty_ancestors (showIndex w) ->
    res o = Ok tt ->
    nonempty_ancestors (showIndex (world o)).
Proof.
    intros o Hwf Hok. destruct (DeleteShowEpisode_index out l se w) as [_ Hs].
    fold o in Hs.
    destruct Hs as [[_ Hne]|(seasons & episodes & Hid & Hse & _ & Hs)];
      [contradiction|].
    destruct (Hwf _ _ Hid) as [_ Hseasons].
    intros id' seasons'.
    destruct (decide (id' = ShowEpisode.ShowImdbID se)) as [->|Hid'].
    2:{ destruct Hs as [[-> _]|[(_ & -> & _)|(_ & _ & ->)]];
          rewrite ?lookup_insert_ne, ?lookup_delete_ne by congruence; apply Hwf. }
    destruct Hs as [[-> Hne]|[(_ & -> & Hne)|(_ & _ & ->)]].
    - rewrite lookup_insert_eq. intros [= <-]. split; [apply insert_non_empty|].
      intros s' episodes'.
      destruct (decide (s' = ShowEpisode.Season se)) as [->|Hs'].
      + rewrite lookup_insert_eq. intros [= <-]. exact (Hne Hok).
      + rewrite lookup_insert_ne by congruence. apply Hseasons.
    - rewrite lookup_insert_eq. intros [= <-]. split; [exact (Hne Hok)|].
      intros s' episodes'.
      destruct (decide (s' = ShowEpisode.Season se)) as [->|Hs'].
      + rewrite lookup_delete_eq. discriminate.
      + rewrite lookup_delete_ne by congruence. apply Hseasons.
    - rewrite lookup_delete_eq. discriminate.
Qed.

(** X6. [DeleteShowEpisode] keeps the show index free of empty seasons
      and empty shows: if every season entry has an episode and every show
      entry a season before a deletion that returns without error, the same
      holds after it. *)
Theorem DeleteShowEpisode_keeps_ancestors_nonempty (out : Outside) (l : Config)
    (se : ShowEpisode.t) (w : World) :
    let o := DeleteShowEpisode out l se w in
    nonempty_ancestors (showIndex w) ->
    res o = Ok tt ->
    nonempty_ancestors (showIndex (world o)).
Proof. exact (DeleteShowEpisode_wf out l se w). Qed.

(** X7. [DeleteShowEpisode] removes the files before it consults the
      index: for an episode the index does not hold, with a non-empty path
      and removals that succeed, it returns [ErrNotFound], yet the video
      file, its sidecar and its subtitle are gone from the tree; the four
      events are the three removals and the call that takes the episode out
      of the index, and both indexes are unchanged. *)
Theorem DeleteShowEpisode_not_indexed (out : Outside) (l : Config)
    (se : ShowEpisode.t) (w : World) :
    let id := ShowEpisode.ShowImdbID se in
    let s := ShowEpisode.Season se in
    let e := ShowEpisode.Episode se in
    let path := ShowEpisode.Path se in
    let nfo := PathWithoutExt path ++ ".nfo" in
    let srt := PathWithoutExt path ++ ".srt" in
    (forall q, undeletable out q = false) ->
    path <> EmptyString ->
    episode_of w id s e = None ->
    let o := DeleteShowEpisode out l se w in
    let gone p := forall k, resolve p `prefix_of` k -> fs (world o) !! k = None in
    res o = Err ErrNotFound /\
    gone path /\ gone nfo /\ gone srt /\
    trace o = [EvRemoveAll path; EvRemoveAll nfo; EvRemoveAll srt;
               EvShowIndexRemoveEpisode id s e] /\
    showIndex (world o) = showIndex w /\ movieIndex (world o) = movieIndex w.
Proof.
    intros id s e path nfo srt Hfree Hpath Hidx o gone. subst gone o.
    change (post (DeleteShowEpisode out l se) w (fun r w' t =>
      r = Err ErrNotFound /\
      (forall k, resolve path `prefix_of` k -> fs w' !! k = None) /\
      (forall k, resolve nfo `prefix_of` k -> fs w' !! k = None) /\
      (forall k, resolve srt `prefix_of` k -> fs w' !! k = None) /\
      t = [EvRemoveAll path; EvRemoveAll nfo; EvRemoveAll srt;
           EvShowIndexRemoveEpisode id s e] /\
      showIndex w' = showIndex w /\ movieIndex w' = movieIndex w)).
    assert (Hnfo : nfo <> EmptyString) by (apply append_nonempty; discriminate).
    assert (Hsrt : srt <> EmptyString) by (apply append_nonempty; discriminate).
    unfold DeleteShowEpisode. fold id s e path.
    step. step; [|no_failure].
    step. cbn [for_each]. step. change (PathWithoutExt path ++ "." ++ "nfo") with nfo.
    step; [|no_failure].
    step. change (PathWithoutExt path ++ "." ++ "srt") with srt.
    step; [|no_failure].
    step. step. step; cbn [showIndex movieIndex fs set_fs] in *.
    - exfalso. refine (episode_of_Some' _ _ _ _ _ _ _ _ _ Hidx); eassumption.
    - repeat split; auto.
Qed.
End DeleteIndexFacts.

(** ** What the rebuilt indexes hold *)

Module PreserveFacts.
Import GoPath State Sys Index Library Rebuild Claims Outcomes Hoare SysFacts IndexFacts Tactics.
Import WalkFacts OutcomeFacts WorkerFacts FrameFacts RebuildFacts.
Local Open Scope string_scope.

Section Preserve.
Variable I : World -> Prop.

Lemma preserves_reads {A} (c : M A) : (forall w, world (c w) = w) -> preserves I c.
Proof. intros H w Hw. rewrite H. exact Hw. Qed.

Lemma preserves_ret {A} (a : A) : preserves I (ret a).
Proof. apply preserves_reads. reflexivity. Qed.

Lemma preserves_fail {A} e : preserves I (@fail A e).
Proof. apply preserves_reads. reflexivity. Qed.

Lemma preserves_panic {A} : preserves I (@panic A).
Proof. apply preserves_reads. reflexivity. Qed.

Lemma preserves_exhausted {A} : preserves I (@exhausted A).
Proof. apply preserves_reads. reflexivity. Qed.

Lemma preserves_gets {A} (f : World -> A) : preserves I (gets f).
Proof. apply preserves_reads. reflexivity. Qed.

Lemma preserves_emit ev : preserves I (emit ev).
Proof. apply preserves_reads. reflexivity. Qed.

Lemma preserves_return_error e : preserves I (return_error e).
Proof. apply preserves_reads. destruct e; reflexivity. Qed.

Lemma preserves_bind {A B} (c : M A) (k : A -> M B) :
      preserves I c -> (forall a, preserves I (k a)) -> preserves I (c ≫= k).
Proof.
      intros Hc Hk w Hw. specialize (Hc w Hw).
      unfold mbind, M_bind, bind, world in *.
      destruct (c w) as [[[a|e| |] w1] t1]; simpl in *; try exact Hc.
      specialize (Hk a w1 Hc). unfold world in Hk.
      destruct (k a w1) as [[r w2] t2]. exact Hk.
Qed.

Lemma preserves_try {A} (c : M A) : preserves I c -> preserves I (try c).
Proof.
      intros Hc w Hw. specialize (Hc w Hw). unfold try, world in *.
      destruct (c w) as [[[a|e| |] w1] t1]; exact Hc.
Qed.

Lemma preserves_for_each {A} (xs : list A) (body : A -> M unit) :
      (forall x, preserves I (body x)) -> preserves I (for_each xs body).
Proof.
      intros Hb. induction xs as [|x xs IH]; simpl.
      - apply preserves_ret.
      - apply preserves_bind; [apply Hb|intros _; exact IH].
Qed.

Lemma preserves_read_file path : preserves I (read_file path).
Proof.
      apply preserves_reads. intros w. unfold read_file.
      destruct (open_follow _ _ _); reflexivity.
Qed.

Lemma preserves_Lstat path : preserves I (os_Lstat path).
Proof.
      apply preserves_reads. intros w. unfold os_Lstat. destruct (fs w !! _); reflexivity.
Qed.

Lemma preserves_lstat_entry filename k : preserves I (lstat_entry filename k).
Proof.
      apply preserves_reads. intros w. unfold lstat_entry. destruct (fs w !! _); reflexivity.
Qed.

Lemma preserves_readDirNames out path d : preserves I (readDirNames out path d).
Proof.
      apply preserves_reads. intros w. unfold readDirNames.
      destruct (unreadable out d); reflexivity.
Qed.

Lemma preserves_IsDir file : preserves I (FileInfo_IsDir file).
Proof. destruct file; apply preserves_reads; reflexivity. Qed.

Create HintDb preserves.
Hint Resolve preserves_ret preserves_fail preserves_panic preserves_exhausted
      preserves_gets preserves_emit preserves_return_error preserves_try
      preserves_for_each preserves_read_file preserves_Lstat preserves_lstat_entry
      preserves_readDirNames preserves_IsDir : preserves.

Ltac pres :=
      repeat first
        [ progress intros
        | solve [auto with preserves]
        | apply preserves_bind
        | apply preserves_try
        | apply preserves_for_each
        | lazymatch goal with
          | |- preserves _ (if ?b then _ else _) => destruct b
          | |- preserves _ (match ?x with _ => _ end) => destruct x
          end ].

Lemma preserves_walk out (walkFn : WalkFunc) :
      (forall path file err, preserves I (walkFn path file err)) ->
      forall fuel path d info, preserves I (walk out fuel path d info walkFn).
Proof.
      intros Hfn. induction fuel as [|fuel IH]; intros path d info; cbn [walk].
      - apply preserves_exhausted.
      - pres.
Qed.

Lemma preserves_Walk out root (walkFn : WalkFunc) :
      (forall path file err, preserves I (walkFn path file err)) ->
      preserves I (filepath_Walk out root walkFn).
Proof.
      intros Hfn. unfold filepath_Walk. pose proof (preserves_walk out walkFn Hfn). pres.
Qed.

End Preserve.
End PreserveFacts.

Module RebuiltIndexFacts.
Import GoPath State Sys Index Library Rebuild Claims Outcomes Hoare SysFacts IndexFacts Tactics.
Import WalkFacts OutcomeFacts WorkerFacts FrameFacts RebuildFacts PreserveFacts.
Local Open Scope string_scope.

(** The sidecar readers look at the tree only, and hand back the path
      they were given. *)
Lemma read_file_fs path w w' :
    fs w' = fs w -> res (read_file path w') = res (read_file path w).
Proof.
    intros H. unfold read_file. rewrite (open_follow_fs _ _ w w' H).
    destruct (open_follow _ _ _); reflexivity.
Qed.

Lemma newMovieFromPath_run path w :
    newMovieFromPath path w = (res (newMovieFromPath path (fresh (fs w))), w, []) /\
    forall m, res (newMovieFromPath path w) = Ok m -> Movie.Path m = path.
Proof.
    unfold newMovieFromPath, readNFOFile_movie. rewrite !bind_run.
    rewrite (read_file_fs _ w (fresh (fs w)) eq_refl).
    unfold read_file. change (fs (fresh (fs w))) with (fs w).
    rewrite (open_follow_fs _ _ w (fresh (fs w)) eq_refl).
    destruct (open_follow _ _ _) as [[]|]; cbn; split; try reflexivity;
      intros m' [= <-]; reflexivity.
Qed.

Lemma newEpisodeFromPath_run path w :
    newEpisodeFromPath path w = (res (newEpisodeFromPath path (fresh (fs w))), w, []) /\
    forall ep, res (newEpisodeFromPath path w) = Ok ep -> ShowEpisode.Path ep = path.
Proof.
    unfold newEpisodeFromPath, readNFOFile_episode. rewrite !bind_run.
    rewrite (read_file_fs _ w (fresh (fs w)) eq_refl).
    unfold read_file. change (fs (fresh (fs w))) with (fs w).
    rewrite (open_follow_fs _ _ w (fresh (fs w)) eq_refl).
    destruct (open_follow _ _ _) as [[]|]; cbn; split; try reflexivity;
      intros m' [= <-]; reflexivity.
Qed.

Lemma video_path_ext l p :
    video_path l p <> EmptyString ->
    video_path l p = p /\ existsb (String.eqb (path_Ext p)) (VideoExtentions l) = true.
Proof.
    unfold video_path. destruct (existsb _ _); [auto|]. intros H. contradiction H. reflexivity.
Qed.

Lemma nonempty_ancestors_Add ep w :
    nonempty_ancestors (showIndex w) ->
    nonempty_ancestors (showIndex (world (ShowIndex_Add ep w))).
Proof.
    intros Hwf. unfold ShowIndex_Add. cbn [world fst snd showIndex set_showIndex].
    set (id := ShowEpisode.ShowImdbID ep). set (s := ShowEpisode.Season ep).
    set (seasons0 := default ∅ (showIndex w !! id)).
    assert (Hs0 : forall s' x, seasons0 !! s' = Some x -> showIndex w !! id = Some seasons0).
    { unfold seasons0. destruct (showIndex w !! id); cbn; [reflexivity|].
      intros s' x H. rewrite lookup_empty in H. discriminate. }
    intros id' seasons'.
    destruct (decide (id' = id)) as [->|Hid];
      [|rewrite lookup_insert_ne by congruence; apply Hwf].
    rewrite lookup_insert_eq. intros [= <-]. split; [apply insert_non_empty|].
    intros s' episodes'.
    destruct (decide (s' = s)) as [->|Hs].
    - rewrite lookup_insert_eq. intros [= <-]. apply insert_non_empty.
    - rewrite lookup_insert_ne by congruence. intros H.
      exact (proj2 (Hwf _ _ (Hs0 _ _ H)) _ _ H).
Qed.

Section OverTree.
Variable out : Outside.
Variable l : Config.
Variable tree : gmap (list string) Node.

Lemma preserves_movieWalkFn path file err :
      preserves (movies_ok l tree) (movieWalkFn l path file err).
Proof.
      intros w [Hfs Hidx]. unfold movieWalkFn.
      destruct err as [e|]; [exact (conj Hfs Hidx)|].
      destruct file as [n|]; [|exact (conj Hfs Hidx)].
      cbn [FileInfo_IsDir]. rewrite bind_run. cbn [ret res world trace fst snd].
      destruct (IsDir n); [exact (conj Hfs Hidx)|].
      destruct (String.eqb_spec (video_path l path) EmptyString) as [|Hv];
        [exact (conj Hfs Hidx)|].
      destruct (video_path_ext l path Hv) as [Hp Hext]. rewrite Hp.
      destruct (newMovieFromPath_run path w) as [Hrun Hpath].
      rewrite after_nil, bind_run, try_run, Hrun. cbn [res world trace fst snd].
      rewrite Hrun in Hpath. cbn [res fst] in Hpath. rewrite Hfs in *.
      destruct (res (newMovieFromPath path (fresh tree))) as [m|e| |] eqn:Em;
        try exact (conj Hfs Hidx).
      cbn [res world trace fst snd]. rewrite after_nil.
      change (world ((try (MovieIndex_Add m) ≫= fun _ => ret tt) w))
        with (set_movieIndex (<[Movie.ImdbID m := Movie.Path m]> (movieIndex w)) w).
      split; [exact Hfs|]. cbn [movieIndex set_movieIndex].
      intros id p. destruct (decide (Movie.ImdbID m = id)) as [<-|Hne].
      - rewrite lookup_insert_eq. intros [= <-]. rewrite (Hpath m eq_refl).
        split; [exact Hext|]. exists m. split; [exact Em|reflexivity].
      - rewrite lookup_insert_ne by exact Hne. apply Hidx.
Qed.

Lemma preserves_buildMovieIndex : preserves (movies_ok l tree) (buildMovieIndex out l).
Proof.
      unfold buildMovieIndex. apply preserves_bind; [|intros; apply preserves_return_error].
      apply preserves_try, preserves_Walk. intros. apply preserves_movieWalkFn.
Qed.

Lemma shows_ok_Add ep w :
      shows_ok l tree w ->
      existsb (String.eqb (path_Ext (ShowEpisode.Path ep))) (VideoExtentions l) = true ->
      (exists ep0, res (newEpisodeFromPath (ShowEpisode.Path ep) (fresh tree)) = Ok ep0 /\
                   ShowEpisode.Season ep0 = ShowEpisode.Season ep /\
                   ShowEpisode.Episode ep0 = ShowEpisode.Episode ep) ->
      shows_ok l tree (world (ShowIndex_Add ep w)).
Proof.
      intros (Hfs & Hload & Hwf) Hext Hep. unfold ShowIndex_Add.
      cbn [world fst snd]. unfold shows_ok. cbn [fs showIndex set_showIndex].
      split; [exact Hfs|].
      set (id := ShowEpisode.ShowImdbID ep). set (s := ShowEpisode.Season ep).
      set (e := ShowEpisode.Episode ep).
      set (seasons0 := default ∅ (showIndex w !! id)).
      set (episodes0 := default ∅ (seasons0 !! s)).
      assert (Hs0 : forall s' x, seasons0 !! s' = Some x -> showIndex w !! id = Some seasons0).
      { unfold seasons0. destruct (showIndex w !! id); cbn; [reflexivity|].
        intros s' x H. rewrite lookup_empty in H. discriminate. }
      assert (He0 : forall e' x, episodes0 !! e' = Some x -> seasons0 !! s = Some episodes0).
      { unfold episodes0. destruct (seasons0 !! s); cbn; [reflexivity|].
        intros e' x H. rewrite lookup_empty in H. discriminate. }
      split.
      - intros id' seasons' s' episodes' e' p.
        destruct (decide (id' = id)) as [->|Hid];
          [|rewrite lookup_insert_ne by congruence; apply Hload].
        rewrite lookup_insert_eq. intros [= <-].
        destruct (decide (s' = s)) as [->|Hs].
        + rewrite lookup_insert_eq. intros [= <-].
          destruct (decide (e' = e)) as [->|He].
          * rewrite lookup_insert_eq. intros [= <-]. split; [exact Hext|exact Hep].
          * rewrite lookup_insert_ne by congruence. intros H.
            exact (Hload _ _ _ _ _ _ (Hs0 _ _ (He0 _ _ H)) (He0 _ _ H) H).
        + rewrite lookup_insert_ne by congruence. intros H.
          exact (Hload _ _ _ _ _ _ (Hs0 _ _ H) H).
      - exact (nonempty_ancestors_Add ep w Hwf).
Qed.

Lemma preserves_episodeWalkFn id path file err :
      preserves (shows_ok l tree) (episodeWalkFn l id path file err).
Proof.
      intros w Hw. unfold episodeWalkFn.
      destruct err as [e|]; [exact Hw|].
      destruct file as [n|]; [|exact Hw].
      cbn [FileInfo_IsDir]. rewrite bind_run. cbn [ret res world trace fst snd].
      destruct (IsDir n); [exact Hw|].
      destruct (String.eqb_spec (video_path l path) EmptyString) as [|Hv]; [exact Hw|].
      destruct (video_path_ext l path Hv) as [Hp Hext]. rewrite Hp.
      destruct (newEpisodeFromPath_run path w) as [Hrun Hpath].
      rewrite after_nil, bind_run, try_run, Hrun. cbn [res world trace fst snd].
      rewrite Hrun in Hpath. cbn [res fst] in Hpath.
      pose proof (proj1 Hw) as Hfs. rewrite Hfs in *.
      destruct (res (newEpisodeFromPath path (fresh tree))) as [ep|e| |] eqn:Eep;
        try exact Hw.
      cbn [res world trace fst snd]. rewrite after_nil.
      change (world ((try (ShowIndex_Add (ShowEpisode.with_ShowImdbID id ep))
                        ≫= fun _ => ret tt) w))
        with (world (ShowIndex_Add (ShowEpisode.with_ShowImdbID id ep) w)).
      apply (shows_ok_Add (ShowEpisode.with_ShowImdbID id ep) w Hw);
        cbn [ShowEpisode.Path ShowEpisode.Season ShowEpisode.Episode
               ShowEpisode.with_ShowImdbID];
        rewrite (Hpath ep eq_refl); [exact Hext|].
      exists ep. auto.
Qed.

Lemma preserves_scanEpisodes id root : preserves (shows_ok l tree) (scanEpisodes out l id root).
Proof.
      unfold scanEpisodes. apply preserves_bind; [|intros; apply preserves_ret].
      apply preserves_Walk. intros. apply preserves_episodeWalkFn.
Qed.

Lemma shows_ok_rootWalked b w : shows_ok l tree w -> shows_ok l tree (set_rootWalked b w).
Proof. exact (fun H => H). Qed.

Lemma preserves_showWalkFn path file err :
      preserves (shows_ok l tree) (showWalkFn out l path file err).
Proof.
      unfold showWalkFn.
      apply preserves_bind; [apply preserves_IsDir|]. intros isDir.
      destruct (negb isDir); [apply preserves_ret|].
      apply preserves_bind; [apply preserves_gets|]. intros walked.
      destruct (negb walked).
      - apply preserves_bind; [|intros; apply preserves_ret].
        intros w Hw. exact Hw.
      - apply preserves_bind.
        + apply preserves_try. unfold newShowFromPath, readNFOFile_show.
          apply preserves_bind; [apply preserves_read_file|].
          intros []; first [apply preserves_ret | apply preserves_fail].
        + intros [show|e].
          * apply preserves_bind; [apply preserves_scanEpisodes|].
            intros; apply preserves_fail.
          * apply preserves_bind; [apply preserves_emit|]. intros; apply preserves_ret.
Qed.

Lemma preserves_buildShowIndex : preserves (shows_ok l tree) (buildShowIndex out l).
Proof.
      unfold buildShowIndex. apply preserves_bind; [intros w Hw; exact Hw|]. intros _.
      apply preserves_bind; [|intros; apply preserves_ret].
      apply preserves_Walk. intros. apply preserves_showWalkFn.
Qed.

End OverTree.

Lemma fresh_movies_ok l tree : movies_ok l tree (fresh tree).
Proof.
    split; [reflexivity|]. intros id p H. cbn [fresh movieIndex] in H.
    rewrite lookup_empty in H. discriminate.
Qed.

Lemma fresh_shows_ok l tree : shows_ok l tree (fresh tree).
Proof.
    split; [reflexivity|]. split.
    - intros id seasons s episodes e p H. cbn [fresh showIndex] in H.
      rewrite lookup_empty in H. discriminate.
    - intros id seasons H. cbn [fresh showIndex] in H.
      rewrite lookup_empty in H. discriminate.
Qed.

Lemma GetMovie_indexed id w p :
    movieIndex w !! id = Some p -> res (GetMovie id w) = res (newMovieFromPath p w).
Proof.
    intros H. unfold GetMovie. rewrite bind_run. unfold MovieIndex_MoviePath.
    rewrite H. reflexivity.
Qed.

Lemma GetEpisode_indexed id s e w p :
    episode_of w id s e = Some p ->
    res (GetEpisode id s e w) = res (newEpisodeFromPath p w).
Proof.
    intros H. unfold GetEpisode. rewrite bind_run. unfold ShowIndex_EpisodePath.
    rewrite H. reflexivity.
Qed.

(** X8. After [RebuildIndex], whatever it returns, every entry of the
      movie index names a file with one of the configured video extensions,
      and [GetMovie] on the entry's identifier returns a movie with that
      identifier and that path. *)
Theorem RebuildIndex_movies_load (out : Outside) (l : Config) (b : bool) (w : World) :
    let o := RebuildIndex out l b w in
    forall id p,
      movieIndex (world o) !! id = Some p ->
      existsb (String.eqb (path_Ext p)) (VideoExtentions l) = true /\
      exists m, res (GetMovie id (world o)) = Ok m /\
                Movie.ImdbID m = id /\ Movie.Path m = p.
Proof.
    intros o id p Hp.
    destruct (RebuildIndex_from_tree out l b w) as (Hfs & Hm & _). fold o in Hfs, Hm.
    destruct (preserves_buildMovieIndex out l (fs w) _ (fresh_movies_ok l (fs w)))
      as [_ Hload].
    rewrite <- Hm in Hload. destruct (Hload id p Hp) as (Hext & m & Hres & Hid).
    split; [exact Hext|]. exists m.
    destruct (newMovieFromPath_run p (world o)) as [Hrun Hpath].
    rewrite Hfs in Hrun. rewrite Hrun in Hpath. cbn [res fst] in Hpath.
    rewrite (GetMovie_indexed _ _ _ Hp), Hrun.
    cbn [res fst]. split; [exact Hres|]. split; [exact Hid|]. apply Hpath, Hres.
Qed.

(** X9. After [RebuildIndex], whatever it returns, every entry of the
      show index names a file with one of the configured video extensions,
      and [GetEpisode] on the entry's keys returns an episode with that
      season, that episode number and that path. *)
Theorem RebuildIndex_episodes_load (out : Outside) (l : Config) (b : bool) (w : World) :
    let o := RebuildIndex out l b w in
    forall id s e p,
      episode_of (world o) id s e = Some p ->
      existsb (String.eqb (path_Ext p)) (VideoExtentions l) = true /\
      exists ep, res (GetEpisode id s e (world o)) = Ok ep /\
                 ShowEpisode.Season ep = s /\ ShowEpisode.Episode ep = e /\
                 ShowEpisode.Path ep = p.
Proof.
    intros o id s e p Hp.
    destruct (RebuildIndex_from_tree out l b w) as (Hfs & _ & Hs & _). fold o in Hfs, Hs.
    destruct (preserves_buildShowIndex out l (fs w) _ (fresh_shows_ok l (fs w)))
      as (_ & Hload & _).
    rewrite <- Hs in Hload.
    pose proof Hp as Hp'. apply episode_of_Some in Hp'.
    destruct Hp' as (seasons & episodes & H1 & H2 & H3).
    destruct (Hload _ _ _ _ _ _ H1 H2 H3) as (Hext & ep & Hres & Hse & Hee).
    split; [exact Hext|]. exists ep.
    destruct (newEpisodeFromPath_run p (world o)) as [Hrun Hpath].
    rewrite Hfs in Hrun. rewrite Hrun in Hpath. cbn [res fst] in Hpath.
    rewrite (GetEpisode_indexed _ _ _ _ _ Hp), Hrun.
    cbn [res fst]. split; [exact Hres|]. split; [exact Hse|]. split; [exact Hee|].
    apply Hpath, Hres.
Qed.

(** X10. The index [RebuildIndex] builds has no empty season and no
      empty show. *)
Theorem RebuildIndex_ancestors_nonempty (out : Outside) (l : Config) (b : bool)
    (w : World) :
    nonempty_ancestors (showIndex (world (RebuildIndex out l b w))).
Proof.
    destruct (RebuildIndex_from_tree out l b w) as (_ & _ & Hs & _). rewrite Hs.
    exact (proj2 (proj2 (preserves_buildShowIndex out l (fs w) _
                           (fresh_shows_ok l (fs w))))).
Qed.
End RebuiltIndexFacts.

(** ** Lookups, re-ingest of an installed entity, and the movie handlers *)

Module LookupFacts.
Import GoPath State Sys Index Library Claims Outcomes Dispatch Server.
Import Hoare SysFacts IndexFacts PathFacts Tactics.
Import DeleteFacts CascadeFacts IngestFacts PreconditionFacts ReplaceFacts.
Local Open Scope string_scope.

Lemma lookups_reads_movie id w :
    world (GetMovie id w) = w /\ trace (GetMovie id w) = [] /\
    match res (GetMovie id w) with Ok _ | Err _ => True | _ => False end.
Proof.
    change (post (GetMovie id) w (fun r w' t =>
      w' = w /\ t = [] /\ match r with Ok _ | Err _ => True | _ => False end)).
    unfold GetMovie, newMovieFromPath, readNFOFile_movie.
    repeat step; auto.
Qed.

(** X11. [GetMovie] and [GetEpisode] only read: they leave the world as
      it is and log nothing, return [ErrNotFound] for a key the index does
      not hold, return only a video whose path is the index entry, and never
      panic. *)
Theorem lookups_only_read (id : string) (s e : Z) (w : World) :
    (world (GetMovie id w) = w /\ trace (GetMovie id w) = [] /\
     (movieIndex w !! id = None -> res (GetMovie id w) = Err ErrNotFound) /\
     (forall m, res (GetMovie id w) = Ok m -> movieIndex w !! id = Some (Movie.Path m)) /\
     res (GetMovie id w) <> Panic) /\
    (world (GetEpisode id s e w) = w /\ trace (GetEpisode id s e w) = [] /\
     (episode_of w id s e = None -> res (GetEpisode id s e w) = Err ErrNotFound) /\
     (forall ep, res (GetEpisode id s e w) = Ok ep ->
                 episode_of w id s e = Some (ShowEpisode.Path ep)) /\
     res (GetEpisode id s e w) <> Panic).
Proof.
    split.
    - change (post (GetMovie id) w (fun r w' t =>
        w' = w /\ t = [] /\
        (movieIndex w !! id = None -> r = Err ErrNotFound) /\
        (forall m, r = Ok m -> movieIndex w !! id = Some (Movie.Path m)) /\
        r <> Panic)).
      unfold GetMovie, newMovieFromPath, readNFOFile_movie.
      repeat step.
      all: repeat split; try reflexivity; try discriminate; try congruence.
      all: intros m' [= <-]; cbn [Movie.Path Movie.with_Path]; assumption.
    - change (post (GetEpisode id s e) w (fun r w' t =>
        w' = w /\ t = [] /\
        (episode_of w id s e = None -> r = Err ErrNotFound) /\
        (forall ep, r = Ok ep -> episode_of w id s e = Some (ShowEpisode.Path ep)) /\
        r <> Panic)).
      unfold GetEpisode, newEpisodeFromPath, readNFOFile_episode.
      repeat step.
      all: repeat split; try reflexivity; try discriminate; try congruence.
      all: intros m' [= <-]; cbn [ShowEpisode.Path ShowEpisode.with_Path]; assumption.
Qed.

Lemma AddMovie_in_place_fresh out l movie w :
    Movie.Path movie <> EmptyString ->
    path_Dir (Movie.Path movie) = getMovieDir l movie ->
    movieIndex w !! Movie.ImdbID movie = None ->
    AddMovie out l movie w = (Ok tt, w, []).
Proof.
    intros Hpath Hdir Hidx. unfold AddMovie.
    rewrite (eqb_false_of _ _ Hpath), (eqb_true_of _ _ Hdir).
    unfold HasMovie, MovieIndex_Has, mbind, M_bind, bind. rewrite Hidx.
    reflexivity.
Qed.

(** X12. [AddMovie] on a movie that is indexed and whose file already
      lies in its store directory deletes it: with removals that succeed,
      the call returns without error after the delete of the previous copy,
      which removed the directory of the indexed file and the index entry;
      nothing is written back, so the library no longer has the movie. *)
Theorem AddMovie_again_removes_the_movie (out : Outside) (l : Config) (movie old : Movie.t)
    (w : World) (p : string) :
    let id := Movie.ImdbID movie in
    let o := AddMovie out l movie w in
    (forall q, undeletable out q = false) ->
    Movie.Path movie <> EmptyString ->
    path_Dir (Movie.Path movie) = getMovieDir l movie ->
    movieIndex w !! id = Some p ->
    res (GetMovie id w) = Ok old ->
    Movie.ImdbID old = id ->
    res o = Ok tt /\
    trace o = [EvRemoveAll (filepath_Dir p); EvMovieIndexRemove id] /\
    movieIndex (world o) = delete id (movieIndex w) /\
    res (HasMovie id (world o)) = Ok false /\
    (forall k, resolve (filepath_Dir p) `prefix_of` k -> fs (world o) !! k = None).
Proof.
    intros id o Hfree Hpath Hdir Hidx Hget Hold. subst o.
    destruct (GetMovie_reads _ w p Hidx) as (Hw & Ht & Hres).
    rewrite Hget in Hres.
    destruct (AddMovie_shape out l movie Hpath) as (install & Hfresh & Hrepl).
    fold id in Hfresh, Hrepl.
    rewrite Hrepl by eauto. rewrite !bind_run. rewrite Hget, Hw, Ht, after_nil.
    destruct (DeleteMovie_spec out old w) as (_ & Hd). cbv zeta in Hd.
    rewrite Hres, Hold in Hd.
    set (d := DeleteMovie out old w) in *.
    destruct Hd as [(Hr & Hgone & _ & Hdel & Htr)|[(Hr & _ & Hnone & _)|(Hr & Hq & _)]].
    - rewrite Hr.
      assert (Hinst : install (world d) = (Ok tt, world d, [])).
      { rewrite <- Hfresh by (rewrite Hdel; apply lookup_delete_eq).
        apply AddMovie_in_place_fresh; auto.
        rewrite Hdel. apply lookup_delete_eq. }
      rewrite Hinst. unfold after. cbn [res world trace fst snd].
      rewrite app_nil_r. repeat split; auto.
      unfold HasMovie, MovieIndex_Has. cbn [res fst]. rewrite Hdel, lookup_delete_eq.
      reflexivity.
    - congruence.
    - destruct Hq as [q Hq]. rewrite Hfree in Hq. discriminate.
Qed.

Lemma AddShowEpisode_in_place_fresh out l ep w :
    path_Dir (ShowEpisode.Path ep) = getSeasonDir l ep ->
    episode_of w (ShowEpisode.ShowImdbID ep) (ShowEpisode.Season ep)
      (ShowEpisode.Episode ep) = None ->
    let o := AddShowEpisode out l ep w in
    showIndex (world o) = showIndex w /\ movieIndex (world o) = movieIndex w.
Proof.
    intros Hdir Hidx o. subst o.
    change (post (AddShowEpisode out l ep) w
              (fun _ w' _ => showIndex w' = showIndex w /\ movieIndex w' = movieIndex w)).
    unfold AddShowEpisode. rewrite (eqb_true_of _ _ Hdir).
    unfold HasShowEpisode, addShow, GetDetails_logged.
    destruct (String.eqb _ EmptyString); [step; auto|].
    step. step. rewrite Hidx. cbn [bool_decide decide_rel is_Some_dec option_eq_None_dec].
    repeat step; cbn [showIndex movieIndex set_fs]; auto.
Qed.

(** X13. [AddShowEpisode] on an episode that is indexed and whose file
      already lies in its season directory deletes it: a call that returns
      without error starts with the removal of the indexed file, of its
      sidecar and of its subtitle and of the index entry, and afterwards the
      library no longer has the episode. *)
Theorem AddShowEpisode_again_removes_the_episode (out : Outside) (l : Config)
    (ep old : ShowEpisode.t) (w : World) (p : string) :
    let id := ShowEpisode.ShowImdbID ep in
    let s := ShowEpisode.Season ep in
    let e := ShowEpisode.Episode ep in
    let o := AddShowEpisode out l ep w in
    ShowEpisode.Path ep <> EmptyString ->
    path_Dir (ShowEpisode.Path ep) = getSeasonDir l ep ->
    episode_of w id s e = Some p ->
    res (GetEpisode id s e w) = Ok old ->
    ShowEpisode.ShowImdbID old = id -> ShowEpisode.Season old = s ->
    ShowEpisode.Episode old = e ->
    res o = Ok tt ->
    episode_of (world o) id s e = None /\
    res (HasShowEpisode id s e (world o)) = Ok false /\
    starts_with [EvRemoveAll p; EvRemoveAll (PathWithoutExt p ++ ".nfo");
                 EvRemoveAll (PathWithoutExt p ++ ".srt");
                 EvShowIndexRemoveEpisode id s e] (trace o).
Proof.
    intros id s e o Hpath Hdir Hidx Hget Hid Hs He Hok.
    assert (Hnone : episode_of (world o) id s e = None /\
                    starts_with [EvRemoveAll p; EvRemoveAll (PathWithoutExt p ++ ".nfo");
                                 EvRemoveAll (PathWithoutExt p ++ ".srt");
                                 EvShowIndexRemoveEpisode id s e] (trace o)).
    2:{ destruct Hnone as [Hnone Htr]. split; [exact Hnone|]. split; [|exact Htr].
        unfold HasShowEpisode, ShowIndex_HasEpisode. cbn [res fst]. rewrite Hnone.
        reflexivity. }
    subst o.
    destruct (GetEpisode_reads _ _ _ w p Hidx) as (Hw & Ht & Hres).
    rewrite Hget in Hres.
    destruct (AddShowEpisode_shape out l ep Hpath) as (install & Hfresh & Hrepl).
    fold id s e in Hfresh, Hrepl.
    rewrite Hrepl in Hok |- * by eauto.
    rewrite !bind_run in Hok |- *. rewrite Hget, Hw, Ht, after_nil in Hok |- *.
    pose proof (DeleteShowEpisode_ok out l old w) as Hd.
    cbv zeta in Hd. unfold post in Hd. rewrite Hid, Hs, He, Hres in Hd.
    set (d := DeleteShowEpisode out l old w) in *.
    destruct (res d) as [[]|err| |]; try discriminate Hok.
    destruct Hd as (Hstart & _ & _ & Hgone).
    rewrite <- (Hfresh (world d) Hgone) in Hok |- *.
    destruct (AddShowEpisode_in_place_fresh out l ep (world d) Hdir Hgone) as [Hsame _].
    unfold after. cbn [res world trace fst snd]. split.
    - unfold episode_of, season_of in Hgone |- *. rewrite Hsame. exact Hgone.
    - destruct Hstart as [rest ->]. eexists. rewrite <- app_assoc. reflexivity.
Qed.
End LookupFacts.

Module HandlerFacts.
Import GoPath State Sys Index Library Claims Outcomes Dispatch Server.
Import Hoare SysFacts IndexFacts PathFacts Tactics.
Import DeleteFacts CascadeFacts IngestFacts PreconditionFacts ReplaceFacts LookupFacts.
Local Open Scope string_scope.

Lemma getMovie_run id w :
    getMovie id w =
    match res (GetMovie id w) with
    | Ok m => (Ok (Some m, []), w, [])
    | Err e => (Ok (None, [RenderError e]), w, [])
    | _ => (Panic, w, [])
    end /\ res (GetMovie id w) <> Panic /\ res (GetMovie id w) <> Exhausted.
Proof.
    destruct (lookups_reads_movie id w) as (Hw & Ht & Hres).
    unfold getMovie. rewrite bind_run, try_run, Hw, Ht.
    destruct (res (GetMovie id w)) as [m|e| |]; try contradiction;
      cbn [res world trace fst snd]; rewrite ?after_nil;
      (split; [reflexivity|split; discriminate]).
Qed.

(** X14. Each of the movie handlers [getMovieDetails], [serveMovie] and
      [deleteMovie] writes exactly one response; for an identifier the index
      does not hold that response is the not-found error, and neither the
      tree nor the index is touched. *)
Theorem movie_handlers_answer_once (out : Outside) (l : Config) (id : string) (w : World) :
    (exists r, res (getMovieDetails id w) = Ok [r]) /\
    (exists r, res (serveMovie id w) = Ok [r]) /\
    (exists r, res (deleteMovie out l id w) = Ok [r]) /\
    (movieIndex w !! id = None ->
     getMovieDetails id w = (Ok [RenderError ErrNotFound], w, []) /\
     serveMovie id w = (Ok [RenderError ErrNotFound], w, []) /\
     deleteMovie out l id w = (Ok [RenderError ErrNotFound], w, [])).
Proof.
    destruct (getMovie_run id w) as (Hrun & Hp & Hx).
    unfold getMovieDetails, serveMovie, deleteMovie.
    rewrite !bind_run, Hrun.
    split; [|split; [|split]].
    - destruct (res (GetMovie id w)); try contradiction; cbn; eauto.
    - destruct (res (GetMovie id w)); try contradiction; cbn; eauto.
    - destruct (res (GetMovie id w)) as [m|e| |]; try contradiction;
        cbn [res world trace fst snd after]; eauto.
      rewrite bind_run, try_run.
      pose proof (post_DeleteMovie_outcomes out m w
                    (fun r _ _ => match r with Ok _ | Err _ => True | _ => False end)
                    (fun _ _ => I) (fun _ _ _ _ => I)) as Hd.
      unfold post in Hd. unfold Delete.
      destruct (res (DeleteMovie out m w)); try contradiction;
        cbn [res world trace fst snd after]; eauto.
    - intros Hnone.
      assert (Hres : res (GetMovie id w) = Err ErrNotFound).
      { unfold GetMovie. rewrite bind_run. unfold MovieIndex_MoviePath.
        rewrite Hnone. reflexivity. }
      rewrite Hres. cbn. auto.
Qed.

(** X15. The [deleteMovie] handler deletes the movie the sidecar
      describes, not the one the request names.  For an indexed identifier
      whose sidecar loads, with removals that succeed, the directory of the
      indexed file is removed; if the sidecar carries the requested
      identifier the handler answers with an empty success and the entry is
      gone; if the sidecar carries an identifier the index does not hold,
      the handler answers with the not-found error and the entry of the
      requested identifier stays, although its files are gone. *)
Theorem deleteMovie_handler (out : Outside) (l : Config) (id p : string) (m : Movie.t)
    (w : World) :
    let o := deleteMovie out l id w in
    (forall q, undeletable out q = false) ->
    movieIndex w !! id = Some p ->
    res (GetMovie id w) = Ok m ->
    (forall k, resolve (filepath_Dir p) `prefix_of` k -> fs (world o) !! k = None) /\
    trace o = [EvRemoveAll (filepath_Dir p); EvMovieIndexRemove (Movie.ImdbID m)] /\
    (Movie.ImdbID m = id ->
     res o = Ok [RenderOK None] /\ movieIndex (world o) = delete id (movieIndex w)) /\
    (movieIndex w !! Movie.ImdbID m = None ->
     res o = Ok [RenderError ErrNotFound] /\ movieIndex (world o) !! id = Some p).
Proof.
    intros o Hfree Hidx Hget. subst o.
    destruct (getMovie_run id w) as (Hrun & _).
    destruct (GetMovie_reads _ w p Hidx) as (_ & _ & Hpath). rewrite Hget in Hpath.
    unfold deleteMovie. rewrite bind_run, Hrun, Hget.
    cbn [res world trace fst snd]. rewrite after_nil, bind_run, try_run.
    unfold Delete.
    destruct (DeleteMovie_spec out m w) as (_ & Hd). cbv zeta in Hd.
    rewrite Hpath in Hd.
    set (d := DeleteMovie out m w) in *.
    destruct Hd as [(Hr & Hgone & Hsome & Hdel & Htr)|[(Hr & Hgone & Hnone & Hsame & Htr)
                                                      |(Hr & Hq & _)]].
    - rewrite Hr. cbn [res world trace fst snd after app ret]. rewrite app_nil_r.
      split; [exact Hgone|]. split; [exact Htr|]. split.
      + intros <-. auto.
      + intros Hnone. rewrite Hnone in Hsome. destruct Hsome as [? ?]. discriminate.
    - rewrite Hr. cbn [res world trace fst snd after app ret]. rewrite app_nil_r.
      split; [exact Hgone|]. split; [exact Htr|]. split.
      + intros Hid. rewrite Hid, Hidx in Hnone. discriminate.
      + intros _. rewrite Hsame. auto.
    - destruct Hq as [q Hq]. rewrite Hfree in Hq. discriminate.
Qed.
End HandlerFacts.

(** ** [lib/video.go]: qualities and more about slugs *)

Module QualityFacts.
Import Qualities.
Local Open Scope string_scope.

(** X16. [GetQuality] accepts exactly the four strings [480p], [720p],
      [1080p] and [3D], returning the string itself without error; for
      every other string it returns the empty quality with
      [ErrInvalidQuality]. *)
Theorem GetQuality_accepts_exactly (s : string) :
    (In s ["480p"; "720p"; "1080p"; "3D"] /\ GetQuality s = (s, None)) \/
    (~ In s ["480p"; "720p"; "1080p"; "3D"] /\
     GetQuality s = (EmptyString, Some ErrInvalidQuality)).
Proof.
    unfold GetQuality, stringToQuality.
    destruct (decide (s = "480p")) as [->|H1]; [left; split; [simpl; tauto|reflexivity]|].
    destruct (decide (s = "720p")) as [->|H2]; [left; split; [simpl; tauto|reflexivity]|].
    destruct (decide (s = "1080p")) as [->|H3]; [left; split; [simpl; tauto|reflexivity]|].
    destruct (decide (s = "3D")) as [->|H4]; [left; split; [simpl; tauto|reflexivity]|].
    right. split; [simpl; intuition congruence|].
    rewrite !lookup_insert_ne by congruence. rewrite lookup_empty. reflexivity.
Qed.
End QualityFacts.

Module SlugSpacingFacts.
Import Slug SlugFacts.

Section WithUnicodeTables.
Variable unicode_lower : rune -> rune.

Lemma lowered_valid_app s t :
      remove_invalid (strings_ToLower unicode_lower (s ++ t))
      = remove_invalid (strings_ToLower unicode_lower s)
        ++ remove_invalid (strings_ToLower unicode_lower t).
Proof.
      unfold remove_invalid, strings_ToLower.
      rewrite map_app. apply List.filter_app.
Qed.

Lemma lowered_valid_space s :
      remove_invalid (strings_ToLower unicode_lower (space :: s))
      = space :: remove_invalid (strings_ToLower unicode_lower s).
Proof. reflexivity. Qed.

Lemma lowered_valid_hyphen s :
      remove_invalid (strings_ToLower unicode_lower (hyphen :: s))
      = hyphen :: remove_invalid (strings_ToLower unicode_lower s).
Proof. reflexivity. Qed.

Lemma slug_eq s :
      slug unicode_lower s
      = strings_Trim hyphen
          (replace_runs hyphen false (remove_invalid (strings_ToLower unicode_lower s))).
Proof. reflexivity. Qed.

(** X17. [slug] ignores every rune that, once lowered, is outside
      [a-z0-9 _-]: removing such a rune from the text does not change the
      slug.  In particular a white-space rune other than the space (a tab,
      a newline) separates nothing: the words around it are run together. *)
Theorem slug_drops_other_runes (s t : text) (r : rune) :
      (slug_valid (unicode_ToLower unicode_lower r) = false ->
       slug unicode_lower (s ++ r :: t) = slug unicode_lower (s ++ t)) /\
      (is_space r = true -> r <> space ->
       slug unicode_lower (s ++ r :: t) = slug unicode_lower (s ++ t)).
Proof.
      assert (H : slug_valid (unicode_ToLower unicode_lower r) = false ->
                  slug unicode_lower (s ++ r :: t) = slug unicode_lower (s ++ t)).
      { intros Hr. rewrite !slug_eq, !lowered_valid_app.
        replace (remove_invalid (strings_ToLower unicode_lower (r :: t)))
          with (remove_invalid (strings_ToLower unicode_lower t)); [reflexivity|].
        unfold remove_invalid, strings_ToLower. cbn [map List.filter].
        rewrite Hr. reflexivity. }
      split; [exact H|].
      intros Hs Hne. apply H. unfold is_space in Hs. unfold space in Hne.
      repeat (apply orb_true_iff in Hs; destruct Hs as [Hs|Hs]);
        apply Z.eqb_eq in Hs; subst r; first [reflexivity|contradiction].
Qed.

Lemma replace_runs_double b a c :
      replace_runs hyphen b (a ++ space :: space :: c)
      = replace_runs hyphen b (a ++ space :: c).
Proof.
      revert b. induction a as [|r a IH]; intros b.
      - cbn. destruct b; reflexivity.
      - cbn [app replace_runs]. destruct (is_space r); [destruct b|];
          rewrite IH; reflexivity.
Qed.

Lemma trim_left_runs a :
      trim_left hyphen (replace_runs hyphen true a)
      = trim_left hyphen (replace_runs hyphen false a).
Proof.
      destruct a as [|r a]; [reflexivity|]. cbn [replace_runs].
      destruct (is_space r); reflexivity.
Qed.

Lemma trim_right_snoc c x : trim_right c (x ++ [c]) = trim_right c x.
Proof.
      unfold trim_right. rewrite rev_app_distr. cbn [rev app trim_left].
      rewrite Z.eqb_refl. reflexivity.
Qed.

Lemma Trim_snoc c x : strings_Trim c (x ++ [c]) = strings_Trim c x.
Proof.
      unfold strings_Trim. induction x as [|r x IH].
      - cbn. rewrite Z.eqb_refl. reflexivity.
      - cbn [app trim_left]. destruct (r =? c) eqn:E; [exact IH|].
        apply (trim_right_snoc c (r :: x)).
Qed.

Lemma replace_runs_snoc b a :
      replace_runs hyphen b (a ++ [space]) = replace_runs hyphen b a \/
      replace_runs hyphen b (a ++ [space]) = replace_runs hyphen b a ++ [hyphen].
Proof.
      revert b. induction a as [|r a IH]; intros b.
      - cbn. destruct b; auto.
      - cbn [app replace_runs]. destruct (is_space r); [destruct b|].
        + apply IH.
        + destruct (IH true) as [->| ->]; auto.
        + destruct (IH false) as [->| ->]; auto.
Qed.

(** X18. [slug] does not depend on the amount of spacing: doubling a
      space inside the text, or adding a space or a hyphen in front of the
      text or behind it, gives the same slug. *)
Theorem slug_spacing (s t : text) :
      slug unicode_lower (s ++ space :: space :: t) = slug unicode_lower (s ++ space :: t) /\
      slug unicode_lower (space :: s) = slug unicode_lower s /\
      slug unicode_lower (s ++ [space]) = slug unicode_lower s /\
      slug unicode_lower (hyphen :: s) = slug unicode_lower s /\
      slug unicode_lower (s ++ [hyphen]) = slug unicode_lower s.
Proof.
      rewrite !slug_eq, !lowered_valid_app, !lowered_valid_space, !lowered_valid_hyphen.
      split; [|split; [|split; [|split]]].
      - apply f_equal, replace_runs_double.
      - unfold strings_Trim.
        change (replace_runs hyphen false
                  (space :: remove_invalid (strings_ToLower unicode_lower s)))
          with (hyphen :: replace_runs hyphen true
                            (remove_invalid (strings_ToLower unicode_lower s))).
        change (trim_left hyphen
                  (hyphen :: replace_runs hyphen true
                               (remove_invalid (strings_ToLower unicode_lower s))))
          with (trim_left hyphen
                  (replace_runs hyphen true
                     (remove_invalid (strings_ToLower unicode_lower s)))).
        rewrite trim_left_runs. reflexivity.
      - change (remove_invalid (strings_ToLower unicode_lower [])) with (@nil rune).
        destruct (replace_runs_snoc false
                    (remove_invalid (strings_ToLower unicode_lower s))) as [->| ->];
          [reflexivity|apply Trim_snoc].
      - reflexivity.
      - change (remove_invalid (strings_ToLower unicode_lower [])) with (@nil rune).
        assert (H : forall b a, replace_runs hyphen b (a ++ [hyphen])
                                = replace_runs hyphen b a ++ [hyphen]).
        { intros b a. revert b. induction a as [|r a IH]; intros b; [reflexivity|].
          cbn [app replace_runs]. destruct (is_space r); [destruct b|];
            rewrite IH; reflexivity. }
        rewrite H. apply Trim_snoc.
Qed.

End WithUnicodeTables.
End SlugSpacingFacts.

(** ** The module registry and the route table *)

Module RegistryFacts.
Import Registry.
Local Open Scope string_scope.

Section WithConstructors.
Variable F : Type.

(** X19. [RegisterFsNotifier] never overwrites a registration.  When
      it registers, the name was free, the name now holds the given
      constructor, every other name is as before, and registering the same
      name again panics; when it panics, it names the given name, which was
      taken. *)
Theorem RegisterFsNotifier_never_overwrites (name : string) (f g : F)
      (reg : gmap string F) :
      match RegisterFsNotifier F name f reg with
      | Registered reg' =>
          reg !! name = None /\ reg' !! name = Some f /\
          (forall n, n <> name -> reg' !! n = reg !! n) /\
          RegisterFsNotifier F name g reg' = Panicked name
      | Panicked n => n = name /\ is_Some (reg !! name)
      end.
Proof.
      unfold RegisterFsNotifier. destruct (reg !! name) as [x|] eqn:E.
      - split; [reflexivity|eauto].
      - rewrite lookup_insert_eq. repeat split; auto.
        intros n Hn. apply lookup_insert_ne. congruence.
Qed.

(** X20. A sequence of registrations goes through without a panic
      exactly when the names are pairwise distinct and all free
      beforehand; the registry is then the old one extended with the given
      pairs. *)
Theorem register_all_distinct_names (mods : list (string * F)) (reg : gmap string F) :
      let names := map fst mods in
      (NoDup names /\ Forall (fun n => reg !! n = None) names ->
       register_all F mods reg = Registered (list_to_map mods ∪ reg)) /\
      (forall reg', register_all F mods reg = Registered reg' ->
                    NoDup names /\ Forall (fun n => reg !! n = None) names).
Proof.
      cbv zeta. revert reg. induction mods as [|[n f] mods IH]; intros reg.
      - split.
        + intros _. cbn. rewrite (left_id_L ∅ (∪)). reflexivity.
        + intros reg' _. split; constructor.
      - cbn [register_all map fst]. unfold RegisterFsNotifier.
        destruct (IH (<[n := f]> reg)) as [IH1 IH2]. split.
        + intros [Hnd Hfree]. apply NoDup_cons in Hnd. destruct Hnd as [Hn Hnd].
          apply Forall_cons in Hfree. destruct Hfree as [Hreg Hfree]. rewrite Hreg.
          rewrite IH1.
          * f_equal. cbn [list_to_map foldr fst snd].
            rewrite <- insert_union_l. symmetry. apply insert_union_r.
            apply not_elem_of_list_to_map_1. exact Hn.
          * split; [exact Hnd|]. rewrite Forall_forall in Hfree |- *.
            intros m Hm. rewrite lookup_insert_ne; [apply Hfree, Hm|].
            intros ->. contradiction.
        + intros reg'. destruct (reg !! n) eqn:E; [discriminate|].
          intros H. destruct (IH2 _ H) as [Hnd Hfree].
          rewrite Forall_forall in Hfree.
          split.
          * apply NoDup_cons. split; [|exact Hnd].
            intros Hn. specialize (Hfree _ Hn). rewrite lookup_insert_eq in Hfree.
            discriminate.
          * apply Forall_cons. split; [exact E|]. rewrite Forall_forall.
            intros m Hm. specialize (Hfree _ Hm).
            destruct (decide (n = m)) as [->|Hne].
            -- rewrite lookup_insert_eq in Hfree. discriminate.
            -- rewrite lookup_insert_ne in Hfree by exact Hne. exact Hfree.
Qed.

End WithConstructors.
End RegistryFacts.

Module RouteFacts.
Import Routes.
Local Open Scope string_scope.

Ltac here :=
    repeat first [apply list_elem_of_here | apply list_elem_of_further].

Ltac nowhere H :=
    repeat (apply elem_of_cons in H; destruct H as [H|H]; [discriminate H|]);
    apply elem_of_nil in H; contradiction.

Ltac every_route_in H :=
    repeat (apply elem_of_cons in H; destruct H as [->|H];
            [cbn; first [tauto | intuition discriminate]|]);
    apply elem_of_nil in H; contradiction.

Ltac every_route :=
    let H := fresh "H" in intros ? H; every_route_in H.

Ltac distinct :=
    cbn [map name path methods];
    repeat first
      [ apply List.NoDup_nil
      | apply List.NoDup_cons; [cbn; intuition discriminate|] ].

(** X21. The router [httpServer] builds: the two file-serving routes
      are present exactly when [ServeFiles] is set; route names are pairwise
      distinct, and so are the pairs of path and methods; a route that runs
      the handler [deleteEpisode] is named [DeleteEpisode] or [Wishlist], and
      the route [Wishlist], a GET of [/wishlist], does run it; the
      middleware chain starts with recovery, logger and gzip, holds the
      basic-auth middleware exactly when [BasicAuth] is set and the token
      middleware exactly when a token manager is given, and the route of the
      allowed tokens exists exactly in that case. *)
Theorem httpServer_routes (config : HTTPServerConfig) (tokens : bool) :
    let mux := fst (httpServer config tokens) in
    let n := snd (httpServer config tokens) in
    (forall r, r ∈ mux -> handler r = serveMovie \/ handler r = serveShow ->
               ServeFiles config = true) /\
    (ServeFiles config = true ->
     exists r1 r2, r1 ∈ mux /\ r2 ∈ mux /\ handler r1 = serveMovie /\ handler r2 = serveShow) /\
    NoDup (map name mux) /\
    NoDup (map (fun r => (path r, methods r)) mux) /\
    (forall r, r ∈ mux -> handler r = deleteEpisode ->
               name r = "DeleteEpisode" \/ name r = "Wishlist") /\
    (exists r, r ∈ mux /\ name r = "Wishlist" /\ path r = "/wishlist" /\
               methods r = "GET" /\ handler r = deleteEpisode) /\
    (exists rest, n = ([Recovery; Logger; Gzip] ++ rest)%list) /\
    (BasicAuth config = true <->
     BasicAuthMiddleware (BasicAuthUser config) (BasicAuthPassword config) ∈ n) /\
    (tokens = true <-> TokenMiddleware ∈ n) /\
    (tokens = true <-> exists r, r ∈ mux /\ handler r = tokenGetAllowed).
Proof.
    destruct config as [sf ba user pw].
    destruct sf, ba, tokens; cbv zeta;
      cbn [httpServer ServeFiles BasicAuth BasicAuthUser BasicAuthPassword table register
             negb excluded app fst snd].
    all: split; [every_route|].
    all: split;
           [first [discriminate
                  |intros _;
                   exists (mkRoute "DownloadMovie" "/movies/{id}/download" "GET"
                             serveMovie false),
                     (mkRoute "DownloadEpisode"
                        "/shows/{id}/seasons/{season:[0-9]+}/episodes/{episode:[0-9]+}/download"
                        "GET" serveShow false);
                   split; [here|split; [here|split; reflexivity]]]|].
    all: split; [apply NoDup_ListNoDup; distinct|].
    all: split; [apply NoDup_ListNoDup; distinct|].
    all: split; [every_route|].
    all: split; [exists (mkRoute "Wishlist" "/wishlist" "GET" deleteEpisode false);
                 split; [here|repeat split]|].
    all: split; [eexists; reflexivity|].
    all: split; [split; [first [discriminate | intros _; here]
                        |first [reflexivity | intros H; nowhere H]]|].
    all: split; [split; [first [discriminate | intros _; here]
                        |first [reflexivity | intros H; nowhere H]]|].
    all: split; [first [discriminate
                       |intros _;
                        exists (mkRoute "TokenGetAllowed" "/tokens/allowed" EmptyString
                                  tokenGetAllowed false);
                        split; [here|reflexivity]]
                |first [reflexivity
                       |intros (r & H & Hh); revert Hh; every_route_in H]].
Qed.
End RouteFacts.

(** ** The movie detailer *)

Module TmdbFacts.
Import GoPath Tmdb.
Local Open Scope string_scope.

Section WithServices.
Variable float32 : Type.
Variable api_error : Type.
Variable tmdbSearchMovie :
      string -> gmap string string -> list MovieShort + api_error.
Variable tmdbSearchByImdbID :
      string -> string -> gmap string string -> list MovieShort + api_error.
Variable tmdbGetMovieInfo : Z -> gmap string string -> Details float32 + api_error.
Variable levenshtein_Distance : string -> string -> Z.
Variable release_year : string -> Z + api_error.

Lemma with_TmdbID_same (m : Movie float32) : with_TmdbID float32 (TmdbID float32 m) m = m.
Proof. destruct m; reflexivity. Qed.

Lemma with_TmdbID_twice a b (m : Movie float32) :
      with_TmdbID float32 a (with_TmdbID float32 b m) = with_TmdbID float32 a m.
Proof. reflexivity. Qed.

Lemma closest_from title results (acc : Z * MovieShort) :
      let dist r := levenshtein_Distance title (short_Title r) in
      let out :=
        fold_left
          (fun (acc : Z * MovieShort) result =>
             let d := levenshtein_Distance title (short_Title result) in
             if (d <? fst acc)%Z then (d, result) else acc)
          results acc in
      (out = acc /\ Forall (fun r => fst acc <= dist r) results) \/
      (exists pre post,
         results = (pre ++ snd out :: post)%list /\ fst out = dist (snd out) /\
         fst out < fst acc /\
         Forall (fun r => fst out < dist r) pre /\
         Forall (fun r => fst out <= dist r) post).
Proof.
      cbv zeta. revert acc. induction results as [|r rs IH]; intros acc.
      - left. split; [reflexivity|constructor].
      - cbn [fold_left].
        destruct (Z.ltb_spec (levenshtein_Distance title (short_Title r)) (fst acc))
          as [Hlt|Hge].
        + destruct (IH (levenshtein_Distance title (short_Title r), r))
            as [[-> Hall]|(pre & post & Hres & Hd & Hlt' & Hpre & Hpost)].
          * right. exists [], rs. cbn [fst snd app] in *.
            split; [reflexivity|]. split; [reflexivity|]. split; [exact Hlt|].
            split; [constructor|exact Hall].
          * right. exists (r :: pre), post. cbn [fst snd app] in *.
            rewrite Hres at 1.
            split; [reflexivity|]. split; [exact Hd|]. split; [lia|].
            split; [constructor; [lia|exact Hpre]|exact Hpost].
        + destruct (IH acc) as [[-> Hall]|(pre & post & Hres & Hd & Hlt' & Hpre & Hpost)].
          * left. split; [reflexivity|]. constructor; [exact Hge|exact Hall].
          * right. exists (r :: pre), post. cbn [app].
            rewrite Hres at 1.
            split; [reflexivity|]. split; [exact Hd|]. split; [exact Hlt'|].
            split; [constructor; [lia|exact Hpre]|exact Hpost].
Qed.

Lemma searchByTitle_picks_closest_run (m : Movie float32) (results : list MovieShort) :
      let dist r := levenshtein_Distance (Title float32 m) (short_Title r) in
      let options : gmap string string :=
        if negb (Year float32 m =? 0)%Z then {["year" := fmt_d (Year float32 m)]} else ∅ in
      let out := searchByTitle float32 api_error tmdbSearchMovie levenshtein_Distance m in
      Title float32 m <> EmptyString ->
      TmdbID float32 m = 0 ->
      tmdbSearchMovie (Title float32 m) options = inl results ->
      results <> [] ->
      snd out = None /\
      fst out = with_TmdbID float32 (TmdbID float32 (fst out)) m /\
      ((Forall (fun r => 100 <= dist r) results /\ TmdbID float32 (fst out) = 0) \/
       (exists pre best post,
          results = (pre ++ best :: post)%list /\
          TmdbID float32 (fst out) = short_ID best /\
          dist best < 100 /\
          Forall (fun r => dist best < dist r) pre /\
          Forall (fun r => dist best <= dist r) post)).
Proof.
      intros dist options out Htitle Hid Hsearch Hne. subst out dist. cbv beta.
      unfold searchByTitle.
      destruct (String.eqb_spec (Title float32 m) EmptyString); [contradiction|].
      rewrite Hid. cbn [Z.eqb negb]. fold options. rewrite Hsearch.
      destruct (Z.eqb_spec (Z.of_nat (length results)) 0) as [H0|_];
        [destruct results; [contradiction|cbn [length] in H0; lia]|].
      cbn [fst snd]. split; [reflexivity|]. split; [reflexivity|].
      pose proof (closest_from (Title float32 m) results (100, MovieShort_zero)) as H.
      cbv zeta in H.
      change (fold_left _ results (100, MovieShort_zero))
        with (closest levenshtein_Distance (Title float32 m) results) in H.
      cbn [TmdbID with_TmdbID].
      destruct H as [[-> Hall]|(pre & post & Hres & Hd & Hlt & Hpre & Hpost)].
      - left. split; [exact Hall|reflexivity].
      - right. cbn [fst snd] in *. eexists pre, _, post.
        split; [exact Hres|]. split; [reflexivity|].
        rewrite <- Hd. auto.
Qed.

(** X22. [searchByTitle], for a movie with a title and no tmdb id
      whose search returns at least one result, returns no error and
      changes nothing but the tmdb id.  The id is that of the first result
      among those at the least edit distance from the title, provided that
      distance is below 100; if every result is at distance 100 or more, the
      id stays 0, still without error. *)
Theorem searchByTitle_picks_closest (m : Movie float32) (results : list MovieShort) :
      let dist r := levenshtein_Distance (Title float32 m) (short_Title r) in
      let options : gmap string string :=
        if negb (Year float32 m =? 0)%Z then {["year" := fmt_d (Year float32 m)]} else ∅ in
      let out := searchByTitle float32 api_error tmdbSearchMovie levenshtein_Distance m in
      Title float32 m <> EmptyString ->
      TmdbID float32 m = 0 ->
      tmdbSearchMovie (Title float32 m) options = inl results ->
      results <> [] ->
      snd out = None /\
      fst out = with_TmdbID float32 (TmdbID float32 (fst out)) m /\
      ((Forall (fun r => 100 <= dist r) results /\ TmdbID float32 (fst out) = 0) \/
       (exists pre best post,
          results = (pre ++ best :: post)%list /\
          TmdbID float32 (fst out) = short_ID best /\
          dist best < 100 /\
          Forall (fun r => dist best < dist r) pre /\
          Forall (fun r => dist best <= dist r) post)).
Proof. exact (searchByTitle_picks_closest_run m results). Qed.

Lemma imdb_stage (m m1 : Movie float32) (err1 : option (error api_error)) :
      (if negb (String.eqb (ImdbID float32 m) EmptyString) && (TmdbID float32 m =? 0)%Z
       then let '(i', err) :=
              searchByImdbID float32 api_error tmdbSearchByImdbID (AMovie float32 m) in
            (movie_of float32 i' m, err)
       else (m, None)) = (m1, err1) ->
      (exists id, m1 = with_TmdbID float32 id m) /\
      (err1 = None \/ err1 = Some (ErrNoMovieFound api_error) \/
       exists x, err1 = Some (ErrApi api_error x)).
Proof.
      unfold searchByImdbID, getMovieArgument.
      destruct (String.eqb (ImdbID float32 m) EmptyString); cbn [negb andb].
      - intros [= <- <-]. split; [exists (TmdbID float32 m); symmetry;
                                  apply with_TmdbID_same|auto].
      - destruct (TmdbID float32 m =? 0)%Z eqn:E; cbn [negb].
        + destruct (tmdbSearchByImdbID _ _ _) as [[|first rest]|x];
            intros [= <- <-]; cbn [movie_of];
            (split; [first [eexists; reflexivity
                           |exists (TmdbID float32 m); symmetry; apply with_TmdbID_same]
                    |eauto]).
        + intros [= <- <-]. split; [exists (TmdbID float32 m); symmetry;
                                    apply with_TmdbID_same|auto].
Qed.

Lemma title_stage (m m2 : Movie float32) (err2 : option (error api_error)) :
      (if negb (String.eqb (Title float32 m) EmptyString) && (TmdbID float32 m =? 0)%Z
       then searchByTitle float32 api_error tmdbSearchMovie levenshtein_Distance m
       else (m, None)) = (m2, err2) ->
      (exists id, m2 = with_TmdbID float32 id m) /\
      (err2 = None \/ err2 = Some (ErrNoMovieFound api_error) \/
       exists x, err2 = Some (ErrApi api_error x)).
Proof.
      unfold searchByTitle.
      destruct (String.eqb (Title float32 m) EmptyString); cbn [negb andb].
      - intros [= <- <-]. split; [exists (TmdbID float32 m); symmetry;
                                  apply with_TmdbID_same|auto].
      - destruct (TmdbID float32 m =? 0)%Z eqn:E; cbn [negb].
        + destruct (tmdbSearchMovie _ _) as [results|x].
          * destruct (Z.of_nat (length results) =? 0)%Z; intros [= <- <-];
              (split; [first [eexists; reflexivity
                             |exists (TmdbID float32 m); symmetry; apply with_TmdbID_same]
                      |eauto]).
          * intros [= <- <-]. split; [exists (TmdbID float32 m); symmetry;
                                      apply with_TmdbID_same|eauto].
        + intros [= <- <-]. split; [exists (TmdbID float32 m); symmetry;
                                    apply with_TmdbID_same|auto].
Qed.

(** X23. The outcomes of [GetDetails].  With an error: for an
      argument that is not a movie, the argument is untouched and the error
      is [ErrInvalidArgument]; for a movie, at most the tmdb id has changed
      and the error is [ErrFailedToGetDetails] or one of the remote
      services or of the date parser (a search that found nothing is never
      returned).  Without
      error: the argument was a movie, a non-zero tmdb id was settled, the
      details of that id were fetched and copied into the movie, and the
      year is 0 for an empty release date and the parsed year otherwise. *)
Theorem GetDetails_outcome (i : Arg float32) :
      match GetDetails float32 api_error tmdbSearchMovie tmdbSearchByImdbID
              tmdbGetMovieInfo levenshtein_Distance release_year i with
      | (i', Some e) =>
          match i with
          | AOther _ => i' = AOther float32 /\ e = ErrInvalidArgument api_error
          | AMovie _ m =>
              (exists id, i' = AMovie float32 (with_TmdbID float32 id m)) /\
              (e = ErrFailedToGetDetails api_error \/ exists x, e = ErrApi api_error x)
          end
      | (i', None) =>
          exists m id details year,
            i = AMovie float32 m /\ id <> 0 /\
            tmdbGetMovieInfo id ∅ = inl details /\
            i' = AMovie float32 (update float32 (with_TmdbID float32 id m) details year) /\
            (if String.eqb (d_ReleaseDate float32 details) EmptyString then year = 0
             else release_year (d_ReleaseDate float32 details) = inl year)
      end.
Proof.
      destruct i as [m|]; [|cbn; auto].
      unfold GetDetails. cbn [getMovieArgument].
      match goal with
      | |- context [if negb (String.eqb (ImdbID float32 m) EmptyString) && ?c
                    then ?a else ?b] =>
          destruct (if negb (String.eqb (ImdbID float32 m) EmptyString) && c
                    then a else b) as [m1 err1] eqn:E1
      end.
      destruct (imdb_stage _ _ _ E1) as [[id1 ->] Herr1].
      destruct Herr1 as [->|[->|[x ->]]]; cbn [goes_on negb]; [| |eauto].
      all: match goal with
           | |- context [if negb (String.eqb (Title float32 ?m1) EmptyString) && ?c
                         then ?a else ?b] =>
               destruct (if negb (String.eqb (Title float32 m1) EmptyString) && c
                         then a else b) as [m2 err2] eqn:E2
           end.
      all: destruct (title_stage _ _ _ E2) as [[id2 ->] Herr2].
      all: rewrite with_TmdbID_twice.
      all: destruct Herr2 as [->|[->|[x ->]]]; cbn [goes_on negb]; [| |eauto].
      all: cbn [TmdbID with_TmdbID].
      all: destruct (Z.eqb_spec id2 0) as [|Hid]; [eauto|].
      all: destruct (tmdbGetMovieInfo id2 ∅) as [details|x] eqn:Ed; [|eauto].
      all: destruct (String.eqb (d_ReleaseDate float32 details) EmptyString) eqn:Er;
             cbn [negb].
      all: try (exists m, id2, details, 0; rewrite Er; auto).
      all: destruct (release_year _) as [year|x] eqn:Ey; [|eauto].
      all: exists m, id2, details, year; rewrite Er; auto.
Qed.

(** X24. [GetDetails] prefers the imdb id: for a movie with an imdb
      id and no tmdb id, when the search by imdb id returns results and the
      first has a non-zero id, the movie ends with that tmdb id, whatever
      the title search would have returned and whatever happens later. *)
Theorem GetDetails_prefers_imdb (m : Movie float32) (first : MovieShort)
      (rest : list MovieShort) :
      let out := GetDetails float32 api_error tmdbSearchMovie tmdbSearchByImdbID
                   tmdbGetMovieInfo levenshtein_Distance release_year (AMovie float32 m) in
      ImdbID float32 m <> EmptyString ->
      TmdbID float32 m = 0 ->
      tmdbSearchByImdbID (ImdbID float32 m) "imdb_id" ∅ = inl (first :: rest) ->
      short_ID first <> 0 ->
      TmdbID float32 (movie_of float32 (fst out) m) = short_ID first.
Proof.
      intros out Himdb Hid Hsearch Hfirst. subst out.
      unfold GetDetails. cbn [getMovieArgument].
      assert (Hstage :
        (if negb (String.eqb (ImdbID float32 m) EmptyString) && (TmdbID float32 m =? 0)%Z
         then let '(i', err) :=
                searchByImdbID float32 api_error tmdbSearchByImdbID (AMovie float32 m) in
              (movie_of float32 i' m, err)
         else (m, None))
        = (with_TmdbID float32 (short_ID first) m, @None (error api_error))).
      { unfold searchByImdbID. cbn [getMovieArgument].
        destruct (String.eqb_spec (ImdbID float32 m) EmptyString); [contradiction|].
        rewrite Hid, Hsearch. reflexivity. }
      rewrite Hstage. clear Hstage. cbn [goes_on negb TmdbID with_TmdbID].
      rewrite (proj2 (Z.eqb_neq _ _) Hfirst), andb_false_r.
      cbn [goes_on negb TmdbID with_TmdbID].
      rewrite (proj2 (Z.eqb_neq _ _) Hfirst).
      destruct (tmdbGetMovieInfo _ _) as [details|x]; [|reflexivity].
      destruct (String.eqb (d_ReleaseDate float32 details) EmptyString);
        [reflexivity|].
      cbn [negb]. destruct (release_year _); reflexivity.
Qed.

(** X25. For a movie without imdb id, with a title and no tmdb id,
      when the title search returns results that are all at edit distance
      100 or more from the title, [GetDetails] fails with
      [ErrFailedToGetDetails] and leaves the movie as it was. *)
Theorem GetDetails_no_close_title (m : Movie float32) (results : list MovieShort) :
      let options : gmap string string :=
        if negb (Year float32 m =? 0)%Z then {["year" := fmt_d (Year float32 m)]} else ∅ in
      ImdbID float32 m = EmptyString ->
      Title float32 m <> EmptyString ->
      TmdbID float32 m = 0 ->
      tmdbSearchMovie (Title float32 m) options = inl results ->
      results <> [] ->
      Forall (fun r => 100 <= levenshtein_Distance (Title float32 m) (short_Title r))
        results ->
      GetDetails float32 api_error tmdbSearchMovie tmdbSearchByImdbID
        tmdbGetMovieInfo levenshtein_Distance release_year (AMovie float32 m)
      = (AMovie float32 m, Some (ErrFailedToGetDetails api_error)).
Proof.
      intros options Himdb Htitle Hid Hsearch Hne Hfar.
      destruct (searchByTitle_picks_closest_run m results Htitle Hid Hsearch Hne)
        as (Herr & Hm & Hsel).
      destruct Hsel as [[_ H0]|(pre & best & post & -> & _ & Hlt & _)].
      2:{ exfalso. apply Forall_app in Hfar. destruct Hfar as [_ Hfar].
          apply Forall_cons in Hfar. destruct Hfar as [Hfar _]. lia. }
      unfold GetDetails. cbn [getMovieArgument].
      rewrite Himdb. cbn [String.eqb negb andb goes_on].
      destruct (String.eqb_spec (Title float32 m) EmptyString); [contradiction|].
      rewrite Hid. cbn [Z.eqb negb andb].
      destruct (searchByTitle _ _ _ _ m) as [m2 err2]. cbn [fst snd] in *.
      subst err2. cbn [goes_on negb]. rewrite H0 in Hm |- *. cbn [Z.eqb].
      rewrite Hm, <- Hid, with_TmdbID_same. reflexivity.
Qed.

End WithServices.
End TmdbFacts.

(** ** The transmission downloader *)

Module StrconvFacts.
Import GoPath GoStrconv.
Local Open Scope string_scope.

(** The value of a string of digits read after [acc]. *)
Lemma parse_digits_uint (d : Decimal.uint) :
    (forall acc : positive,
        parse_digits (Z.pos acc) (NilEmpty.string_of_uint d)
        = Some (Z.pos (Pos.of_uint_acc d acc))) /\
    parse_digits 0 (NilEmpty.string_of_uint d) = Some (Z.of_N (Pos.of_uint d)).
Proof.
    induction d as [|d [IH1 IH0]|d [IH1 IH0]|d [IH1 IH0]|d [IH1 IH0]|d [IH1 IH0]
                   |d [IH1 IH0]|d [IH1 IH0]|d [IH1 IH0]|d [IH1 IH0]|d [IH1 IH0]].
    1: split; [intros; reflexivity|reflexivity].
    all: split;
           [ intros acc; cbn [NilEmpty.string_of_uint parse_digits Pos.of_uint_acc];
             change (digit_val _) with (Some 0) || change (digit_val _) with (Some 1)
             || change (digit_val _) with (Some 2) || change (digit_val _) with (Some 3)
             || change (digit_val _) with (Some 4) || change (digit_val _) with (Some 5)
             || change (digit_val _) with (Some 6) || change (digit_val _) with (Some 7)
             || change (digit_val _) with (Some 8) || change (digit_val _) with (Some 9);
             cbv beta iota; rewrite <- IH1; f_equal; lia
           | cbn [NilEmpty.string_of_uint parse_digits Pos.of_uint];
             change (digit_val _) with (Some 0) || change (digit_val _) with (Some 1)
             || change (digit_val _) with (Some 2) || change (digit_val _) with (Some 3)
             || change (digit_val _) with (Some 4) || change (digit_val _) with (Some 5)
             || change (digit_val _) with (Some 6) || change (digit_val _) with (Some 7)
             || change (digit_val _) with (Some 8) || change (digit_val _) with (Some 9);
             cbv beta iota; first [exact IH0 | apply IH1] ].
Qed.

Lemma string_of_uint_digits (d : Decimal.uint) :
    d <> Decimal.Nil ->
    exists c s, NilEmpty.string_of_uint d = String c s /\
                Ascii.eqb c "-"%char = false /\ Ascii.eqb c "+"%char = false.
Proof.
    destruct d; [congruence|..]; intros _; cbn [NilEmpty.string_of_uint];
      eexists; eexists; (split; [reflexivity|split; reflexivity]).
Qed.

Lemma to_uint_nonnil p : Pos.to_uint p <> Decimal.Nil.
Proof.
    intros H. pose proof (Stdlib.Numbers.DecimalPos.Unsigned.of_to p) as Hp. rewrite H in Hp.
    discriminate.
Qed.

(** [Atoi] reads back what [Itoa] writes. *)
Lemma Atoi_Itoa (n : Z) :
    - 2 ^ 63 <= n <= 2 ^ 63 - 1 -> Atoi (Itoa n) = Some n.
Proof.
    intros Hn. unfold Itoa, fmt_d.
    assert (Hrange : ((- 2 ^ 63 <=? n) && (n <=? 2 ^ 63 - 1))%Z = true).
    { apply andb_true_iff. split; apply Z.leb_le; lia. }
    destruct n as [|p|p]; [reflexivity| |].
    - cbn [Z.to_int NilEmpty.string_of_int].
      destruct (string_of_uint_digits _ (to_uint_nonnil p)) as (c & s & Hs & Hm & Hp).
      unfold Atoi. rewrite Hs, Hm, Hp. rewrite <- Hs.
      rewrite (proj2 (parse_digits_uint _)), Stdlib.Numbers.DecimalPos.Unsigned.of_to.
      rewrite Hs. cbn [String.eqb N.to_nat Z.of_N]. rewrite Hrange. reflexivity.
    - cbn [Z.to_int NilEmpty.string_of_int].
      destruct (string_of_uint_digits _ (to_uint_nonnil p)) as (c & s & Hs & Hm & Hp).
      unfold Atoi. cbn [Ascii.eqb Bool.eqb].
      rewrite (proj2 (parse_digits_uint _)), Stdlib.Numbers.DecimalPos.Unsigned.of_to.
      rewrite Hs. cbn [String.eqb Z.of_N].
      change (- Z.pos p) with (Z.neg p). rewrite Hrange. reflexivity.
Qed.
End StrconvFacts.

Module TransmissionFacts.
Import GoStrconv Transmission StrconvFacts.
Local Open Scope string_scope.

Section WithServices.
Variable TClient : Type.
Variable ext_error : Type.
Variable yaml_Unmarshal : list Byte.byte -> Params + ext_error.
Variable transmission_New : Config -> TClient + ext_error.
Variable RemoveTorrents : option TClient -> list Z -> bool -> option ext_error.
Variable float64 : Type.
Variable float32 : Type.
Variable meta : Type.
Variable float64_is_one : float64 -> bool.
Variable percent : float64 -> float32.
Variable float32_of : float64 -> float32.
Variable metadata : list string -> meta.

Lemma InitWithParams_cases (c : Client TClient) (p : option Params) :
      match InitWithParams TClient ext_error transmission_New c p with
      | Panics => p = None
      | Returns (c', None) =>
          exists pr t,
            p = Some pr /\ URL pr <> EmptyString /\
            (BasicAuth pr = true ->
             Username pr <> EmptyString /\ Password pr <> EmptyString) /\
            transmission_New
              (mkConfig (URL pr) (Username pr) (Password pr) (negb (CheckSSL pr))) = inl t /\
            c' = mkClient TClient (Some pr) (Some t) true
      | Returns (c', Some e) =>
          c' = mkClient TClient p (tClient TClient c) (configured TClient c)
      end.
Proof.
      unfold InitWithParams, checkConfig, setTransmissionClient.
      cbn [params tClient configured].
      destruct p as [pr|]; [|reflexivity].
      destruct (String.eqb_spec (URL pr) EmptyString) as [|Hurl]; [reflexivity|].
      destruct (BasicAuth pr) eqn:Hba; cbn [andb].
      - destruct (String.eqb_spec (Username pr) EmptyString) as [|Hu]; [reflexivity|].
        destruct (String.eqb_spec (Password pr) EmptyString) as [|Hp]; [reflexivity|].
        cbn [orb]. destruct (transmission_New _) as [t|err] eqn:Hnew; [|reflexivity].
        exists pr, t. split; [reflexivity|]. split; [exact Hurl|].
        split; [intros _; split; assumption|]. split; [exact Hnew|reflexivity].
      - destruct (transmission_New _) as [t|err] eqn:Hnew; [|reflexivity].
        exists pr, t. split; [reflexivity|]. split; [exact Hurl|].
        split; [intros H; congruence|]. split; [exact Hnew|reflexivity].
Qed.


(** X27. [Init] never panics and configures a client once: on a
      configured client it does nothing and returns no error; after a
      successful [Init] the client is configured and every later [Init],
      with whatever bytes, leaves it as it is; a failed [Init] leaves the
      client not configured, with its former connection. *)
Theorem Init_only_once (c : Client TClient) (p : list Byte.byte) :
      let init := Init TClient ext_error yaml_Unmarshal transmission_New in
      init c p <> Panics /\
      (configured TClient c = true -> init c p = Returns (c, None)) /\
      (forall c', init c p = Returns (c', None) ->
                  configured TClient c' = true /\
                  forall p', init c' p' = Returns (c', None)) /\
      (forall c' e, init c p = Returns (c', Some e) ->
                    configured TClient c' = false /\
                    tClient TClient c' = tClient TClient c).
Proof.
      cbv zeta. unfold Init.
      destruct (configured TClient c) eqn:Hc.
      - split; [discriminate|]. split; [reflexivity|]. split.
        + intros c' [= <-]. rewrite Hc. auto.
        + intros c' e [=].
      - pose proof (fun pr => InitWithParams_cases c (Some pr)) as Hout.
        destruct (yaml_Unmarshal p) as [pr|err].
        + specialize (Hout pr).
          destruct (InitWithParams _ _ _ c (Some pr)) as [[c1 [e|]]|].
          * split; [discriminate|]. split; [discriminate|]. split; [intros c' [=]|].
            intros c' e' [= <- <-]. subst c1. cbn. auto.
          * destruct Hout as (pr' & t & _ & _ & _ & _ & ->).
            split; [discriminate|]. split; [discriminate|]. split.
            -- intros c' [= <-]. cbn. auto.
            -- intros c' e [=].
          * discriminate.
        + split; [discriminate|]. split; [discriminate|]. split; [intros c' [=]|].
          intros c' e [= <- <-]. auto.
Qed.

(** X28. [Remove] applied to the [Infos] of a listed torrent asks
      the daemon to remove exactly the torrent with the same numeric id,
      keeping the data flag false, and returns the daemon's answer: the
      decimal id written by [Infos] is parsed back to the same number.
      Applied to the [Infos] of a torrent without data, which is nil, it
      returns the nil-infos error. *)
Theorem Remove_of_a_listed_torrent (c : Client TClient) (T : TTorrent float64) :
      let infos := Infos float64 float32 meta float64_is_one percent float32_of metadata in
      let remove := Remove TClient ext_error RemoveTorrents float32 meta in
      - 2 ^ 63 <= T_ID float64 T <= 2 ^ 63 - 1 ->
      remove c (infos (Some T))
      = match RemoveTorrents (tClient TClient c) [T_ID float64 T] false with
        | Some err => Some (ErrExt ext_error err)
        | None => None
        end /\
      remove c (infos None) = Some (Errorf ext_error "transmission: got nil Infos").
Proof.
      intros infos remove Hid. subst infos remove. split; [|reflexivity].
      unfold Remove, Infos. cbn [ID].
      rewrite (Atoi_Itoa _ Hid).
      destruct (String.eqb_spec (Itoa (T_ID float64 T)) EmptyString) as [He|_];
        [|reflexivity].
      pose proof (Atoi_Itoa _ Hid) as H. rewrite He in H. discriminate.
Qed.

End WithServices.
End TransmissionFacts.

(** ** The show index keeps no empty season and no empty show *)

Module AncestorFacts.
Import GoPath State Sys Index Library Rebuild Claims Outcomes.
Import Hoare SysFacts IndexFacts PathFacts Tactics.
Import CascadeFacts IngestFacts PreconditionFacts.
Import IngestOutcomeFacts DeleteIndexFacts RebuiltIndexFacts.
Local Open Scope string_scope.

Lemma post_DeleteShowEpisode_wf out l se w
    (Q : result unit -> World -> list Event -> Prop) :
    (forall w' t,
        (nonempty_ancestors (showIndex w) -> nonempty_ancestors (showIndex w')) ->
        Q (Ok tt) w' t) ->
    (forall e w' t, Q (Err e) w' t) ->
    (forall w' t, Q Panic w' t) -> (forall w' t, Q Exhausted w' t) ->
    post (DeleteShowEpisode out l se) w Q.
Proof.
    intros Hok Herr Hp Hx. unfold post.
    pose proof (DeleteShowEpisode_wf out l se w) as H. cbv zeta in H.
    destruct (res (DeleteShowEpisode out l se w)) as [[]|e| |];
      [apply Hok; auto|apply Herr|apply Hp|apply Hx].
Qed.

Lemma post_addShow_index out l ep w
    (Q : result unit -> World -> list Event -> Prop) :
    (forall w' t, showIndex w' = showIndex w -> Q (Ok tt) w' t) ->
    (forall e w' t, Q (Err e) w' t) ->
    post (addShow out l ep) w Q.
Proof.
    intros Hok Herr. unfold addShow, GetDetails_logged.
    repeat step; first [apply Hok; reflexivity | apply Herr].
Qed.

Ltac zstep :=
    first
      [ lazymatch goal with
        | |- post (DeleteShowEpisode _ _ _) _ _ =>
            apply post_DeleteShowEpisode_wf; intros
        | |- post (addShow _ _ _) _ _ => apply post_addShow_index; intros
        | |- post (ShowIndex_Add _) _ _ => apply post_ShowIndex_Add_exact
        end; cbn beta iota
      | step ].

(** X29. [AddShowEpisode] keeps the show index free of empty
      seasons and empty shows: if every season entry has an episode and
      every show entry a season before an ingest that returns without
      error, the same holds after it. *)
Theorem AddShowEpisode_keeps_ancestors_nonempty (out : Outside) (l : Config)
    (ep : ShowEpisode.t) (w : World) :
    let o := AddShowEpisode out l ep w in
    nonempty_ancestors (showIndex w) ->
    res o = Ok tt ->
    nonempty_ancestors (showIndex (world o)).
Proof.
    intros o Hwf. subst o.
    change (post (AddShowEpisode out l ep) w (fun r w' _ =>
      r = Ok tt -> nonempty_ancestors (showIndex w'))).
    unfold AddShowEpisode.
    unfold HasShowEpisode, GetEpisode, newEpisodeFromPath, readNFOFile_episode.
    repeat zstep.
    all: try (intros; discriminate).
    all: intros _.
    all: try apply nonempty_ancestors_Add.
    all: cbn [showIndex set_fs] in *.
    all: repeat match goal with
           | H : showIndex _ = showIndex _ |- _ => rewrite H
           end.
    all: auto.
Qed.
End AncestorFacts.

(** ** Cleaned paths: where an ingested file lands *)

Module PathTheory.
Import GoPath Library Names PathFacts.
Local Open Scope string_scope.

Lemma app_String x (a b : string) : String x a ++ b = String x (a ++ b).
Proof. reflexivity. Qed.

Lemma app_Empty (b : string) : EmptyString ++ b = b.
Proof. reflexivity. Qed.

Lemma append_assoc' (a b c : string) : (a ++ b) ++ c = a ++ (b ++ c).
Proof.
    induction a as [|x a IH]; [reflexivity|]. rewrite !app_String. f_equal. exact IH.
Qed.

Lemma split_slash_nonnil s : split_slash s <> [].
Proof.
    destruct s as [|c s]; simpl; [discriminate|].
    destruct (is_slash c); [discriminate|]. destruct (split_slash s); discriminate.
Qed.

Lemma split_slash_no_slash s : no_slash s = true -> split_slash s = [s].
Proof.
    induction s as [|c s IH]; simpl; [reflexivity|].
    destruct (is_slash c); simpl; [discriminate|]. intros H. rewrite (IH H). reflexivity.
Qed.

Lemma split_slash_app a b :
    split_slash (a ++ "/" ++ b) = (split_slash a ++ split_slash b)%list.
Proof.
    induction a as [|c a IH]; [reflexivity|].
    rewrite app_String. cbn [split_slash]. rewrite IH.
    destruct (is_slash c); [reflexivity|].
    destruct (split_slash a) as [|h t] eqn:E; [destruct (split_slash_nonnil _ E)|].
    reflexivity.
Qed.

Lemma split_slash_elems s : Forall (fun x => no_slash x = true) (split_slash s).
Proof.
    induction s as [|c s IH]; simpl; [repeat constructor|].
    destruct (is_slash c) eqn:Ec; [constructor; [reflexivity|exact IH]|].
    destruct (split_slash s) as [|h t]; [repeat constructor; simpl; rewrite Ec; reflexivity|].
    inversion IH; subst. constructor; [simpl; rewrite Ec; assumption|assumption].
Qed.

Lemma plain_name_no_slash c : plain_name c = true -> no_slash c = true.
Proof.
    unfold plain_name. intros H. repeat (apply andb_true_iff in H; destruct H as [H ?]).
    exact H.
Qed.

Lemma dotdot_no_slash : no_slash ".." = true.
Proof. reflexivity. Qed.

Lemma split_join (E : list string) :
    E <> [] -> Forall (fun x => no_slash x = true) E -> split_slash (join_slash E) = E.
Proof.
    induction E as [|x E IH]; [congruence|]. intros _ H. inversion H; subst.
    destruct E as [|y E]; [apply split_slash_no_slash; assumption|].
    change (join_slash (x :: y :: E)) with (x ++ "/" ++ join_slash (y :: E)).
    rewrite split_slash_app, split_slash_no_slash by assumption.
    rewrite IH by (congruence || assumption). reflexivity.
Qed.

Lemma join_snoc (E : list string) b :
    E <> [] -> join_slash (E ++ [b]) = join_slash E ++ "/" ++ b.
Proof.
    induction E as [|x E IH]; [congruence|]. intros _.
    destruct E as [|y E]; [reflexivity|].
    change (join_slash ((x :: y :: E) ++ [b]))
      with (x ++ "/" ++ join_slash ((y :: E) ++ [b])).
    rewrite IH by congruence.
    change (join_slash (x :: y :: E)) with (x ++ "/" ++ join_slash (y :: E)).
    rewrite !append_assoc'. reflexivity.
Qed.

(** *** [clean_elems] on what it has cleaned *)

Lemma clean_skip r st c cs :
    c = EmptyString \/ c = "." -> clean_elems r st (c :: cs) = clean_elems r st cs.
Proof. intros [-> | ->]; reflexivity. Qed.

Lemma clean_push r st c cs :
    plain_name c = true -> clean_elems r st (c :: cs) = clean_elems r (c :: st) cs.
Proof.
    unfold plain_name. intros H.
    repeat (apply andb_true_iff in H; destruct H as [H ?]).
    cbn [clean_elems].
    destruct (String.eqb c EmptyString); [discriminate|].
    destruct (String.eqb c "."); [discriminate|].
    destruct (String.eqb c ".."); [discriminate|]. reflexivity.
Qed.

Lemma replay_names r names st cs :
    Forall (fun c => plain_name c = true) names ->
    clean_elems r st (names ++ cs) = clean_elems r (rev names ++ st) cs.
Proof.
    revert st. induction names as [|c names IH]; intros st H; [reflexivity|].
    inversion H; subst. cbn [app rev]. rewrite clean_push by assumption.
    rewrite IH by assumption. rewrite <- app_assoc. reflexivity.
Qed.

Lemma replay_dots k j cs :
    clean_elems false (repeat ".." j) (repeat ".." k ++ cs)
    = clean_elems false (repeat ".." (k + j)) cs.
Proof.
    revert j. induction k as [|k IH]; intros j; [reflexivity|].
    cbn [repeat app]. cbn [clean_elems String.eqb Ascii.eqb Bool.eqb orb].
    replace (S k + j)%nat with (k + S j)%nat by lia.
    destruct j as [|j]; cbn [repeat]; [apply (IH 1%nat)|].
    cbn [String.eqb Ascii.eqb Bool.eqb]. apply (IH (S (S j))).
Qed.

Lemma replay r st cs :
    clean_stack r st -> clean_elems r [] (rev st ++ cs) = clean_elems r st cs.
Proof.
    intros (names & k & -> & Hn & Hk).
    rewrite rev_app_distr, rev_repeat, <- app_assoc.
    destruct r.
    - rewrite (Hk eq_refl). cbn [repeat app]. rewrite replay_names, rev_involutive.
      + rewrite !app_nil_r. reflexivity.
      + apply Forall_rev. exact Hn.
    - rewrite (replay_dots k 0). rewrite Nat.add_0_r.
      rewrite replay_names, rev_involutive; [reflexivity|].
      apply Forall_rev. exact Hn.
Qed.

Lemma clean_junk r st junk cs :
    Forall (fun c => c = EmptyString \/ c = ".") junk ->
    clean_elems r st (junk ++ cs) = clean_elems r st cs.
Proof.
    induction junk as [|c junk IH]; intros H; [reflexivity|]. inversion H; subst.
    cbn [app]. rewrite clean_skip by assumption. apply IH. assumption.
Qed.

Lemma clean_stack_nil r : clean_stack r [].
Proof. exists [], 0%nat. repeat split; auto. Qed.

Lemma clean_stack_push r st c :
    plain_name c = true -> clean_stack r st -> clean_stack r (c :: st).
Proof.
    intros Hc (names & k & -> & Hn & Hk). exists (c :: names), k.
    repeat split; auto.
Qed.

(** What [clean_elems] returns is a clean stack, read from its bottom. *)
Lemma clean_elems_stack cs :
    forall r st,
      Forall (fun x => no_slash x = true) cs -> clean_stack r st ->
      exists st', clean_elems r st cs = rev st' /\ clean_stack r st'.
Proof.
    induction cs as [|c cs IH]; intros r st Hcs Hst; [exists st; auto|].
    inversion Hcs as [|? ? Hc Hcs']; subst. cbn [clean_elems].
    destruct (String.eqb_spec c EmptyString) as [->|Hne]; [apply IH; assumption|].
    destruct (String.eqb_spec c ".") as [->|Hdot]; [apply IH; assumption|].
    cbn [orb].
    destruct (String.eqb_spec c "..") as [->|Hdd].
    - destruct Hst as (names & k & -> & Hn & Hk).
      destruct names as [|n names].
      + destruct k as [|k]; cbn [app repeat].
        * destruct r; apply IH; auto; [apply clean_stack_nil|].
          exists [], 1%nat. repeat split; auto. discriminate.
        * cbn [String.eqb Ascii.eqb Bool.eqb]. apply IH; auto.
          exists [], (S (S k)). repeat split; auto.
          intros Hr. specialize (Hk Hr). discriminate.
      + cbn [app]. inversion Hn as [|? ? Hn1 Hn2]; subst.
        destruct (String.eqb_spec n "..") as [->|_]; [discriminate Hn1|].
        apply IH; auto. exists names, k. repeat split; auto.
    - apply IH; auto. apply clean_stack_push; [|exact Hst].
      unfold plain_name. rewrite Hc. cbn [andb].
      destruct (String.eqb_spec c EmptyString); [contradiction|].
      destruct (String.eqb_spec c "."); [contradiction|].
      destruct (String.eqb_spec c ".."); [contradiction|]. reflexivity.
Qed.

Lemma clean_stack_elems r st :
    clean_stack r st ->
    Forall (fun x => no_slash x = true /\ x <> EmptyString) (rev st).
Proof.
    intros (names & k & -> & Hn & _). apply Forall_rev, Forall_app. split.
    - eapply Forall_impl; [exact Hn|]. intros c Hc. split.
      + apply plain_name_no_slash, Hc.
      + intros ->. discriminate Hc.
    - apply Forall_forall. intros x Hx. apply list_elem_of_In, repeat_spec in Hx. subst x.
      split; [reflexivity|discriminate].
Qed.

(** *** The text of a cleaned path *)

Lemma path_Clean_render y :
    exists st, clean_stack (rooted y) st /\ path_Clean y = render (rooted y) (rev st).
Proof.
    destruct (clean_elems_stack (split_slash y) (rooted y) [] (split_slash_elems y)
                (clean_stack_nil _)) as (st & Hst & Hclean).
    exists st. split; [exact Hclean|]. unfold path_Clean, render. rewrite Hst. reflexivity.
Qed.

Lemma join_nonempty (E : list string) :
    E <> [] -> Forall (fun x => no_slash x = true /\ x <> EmptyString) E ->
    join_slash E <> EmptyString /\ rooted (join_slash E) = false.
Proof.
    destruct E as [|x E]; [congruence|]. intros _ H. inversion H as [|? ? [Hs Hx] _]; subst.
    destruct x as [|c x]; [congruence|]. cbn [no_slash] in Hs.
    apply andb_true_iff in Hs. destruct Hs as [Hc _]. apply negb_true_iff in Hc.
    destruct E; cbn [join_slash]; rewrite ?app_String; split;
      first [discriminate | exact Hc].
Qed.

Lemma rooted_render r E x :
    Forall (fun x => no_slash x = true /\ x <> EmptyString) E ->
    rooted (render r E ++ x) = r.
Proof.
    intros HE. unfold render. destruct r; [reflexivity|].
    destruct E as [|e E]; [reflexivity|].
    destruct (join_nonempty (e :: E) ltac:(congruence) HE) as [Hne Hroot].
    destruct (String.eqb_spec (join_slash (e :: E)) EmptyString); [contradiction|].
    destruct (join_slash (e :: E)) as [|c s]; [contradiction|]. exact Hroot.
Qed.

Ltac junk := repeat first [apply Forall_nil_2 | apply Forall_cons_2; [auto|]].

Lemma split_render r E :
    Forall (fun x => no_slash x = true /\ x <> EmptyString) E ->
    exists j1 j2,
      Forall (fun c => c = EmptyString \/ c = ".") j1 /\
      Forall (fun c => c = EmptyString \/ c = ".") j2 /\
      split_slash (render r E) = (j1 ++ E ++ j2)%list.
Proof.
    intros HE. unfold render. destruct r.
    - change ("/" ++ join_slash E) with (EmptyString ++ "/" ++ join_slash E).
      rewrite split_slash_app. destruct E as [|e E].
      + exists [EmptyString], [EmptyString].
        split; [junk|split; [junk|reflexivity]].
      + rewrite split_join;
          [|congruence|eapply Forall_impl; [exact HE|intros ? []; assumption]].
        exists [EmptyString], []. rewrite app_nil_r.
        split; [junk|split; [junk|reflexivity]].
    - destruct E as [|e E].
      + exists ["."], [].
        split; [junk|split; [junk|reflexivity]].
      + destruct (join_nonempty (e :: E) ltac:(congruence) HE) as [Hne _].
        destruct (String.eqb_spec (join_slash (e :: E)) EmptyString); [contradiction|].
        rewrite split_join;
          [|congruence|eapply Forall_impl; [exact HE|intros ? []; assumption]].
        exists [], []. rewrite app_nil_r.
        split; [junk|split; [junk|reflexivity]].
Qed.

(** Cleaning a cleaned path followed by a slash and by [x], a plain name
      or nothing. *)
Lemma Clean_render_slash r st x :
    clean_stack r st -> no_slash x = true ->
    path_Clean (render r (rev st) ++ "/" ++ x)
    = render r (clean_elems r st [x]).
Proof.
    intros Hst Hx. pose proof (clean_stack_elems r st Hst) as HE.
    unfold path_Clean. rewrite (rooted_render r (rev st) _ HE).
    rewrite split_slash_app, (split_slash_no_slash x Hx).
    destruct (split_render r (rev st) HE) as (j1 & j2 & H1 & H2 & ->).
    rewrite <- !app_assoc, (clean_junk _ _ j1) by exact H1.
    rewrite (replay r st _ Hst), (clean_junk _ _ j2) by exact H2.
    reflexivity.
Qed.

Lemma path_Split_no_slash b : no_slash b = true -> path_Split b = (EmptyString, b).
Proof.
    induction b as [|c b IH]; [reflexivity|]. cbn [no_slash path_Split].
    intros H. apply andb_true_iff in H. destruct H as [Hc Hb].
    rewrite (IH Hb). apply negb_true_iff in Hc. rewrite Hc. reflexivity.
Qed.

Lemma path_Split_String s b :
    no_slash b = true -> path_Split (s ++ String "/" b) = (s ++ "/", b).
Proof.
    intros Hb. induction s as [|c s IH].
    - rewrite !app_Empty. cbn [path_Split].
      rewrite (path_Split_no_slash b Hb). reflexivity.
    - rewrite (app_String c s (String "/" b)), (app_String c s "/").
      cbn [path_Split]. rewrite IH.
      destruct (s ++ "/") as [|c' s'] eqn:E; [|reflexivity].
      destruct s; discriminate E.
Qed.

Lemma path_Split_app s b :
    no_slash b = true -> path_Split (s ++ "/" ++ b) = (s ++ "/", b).
Proof.
    intros Hb. change ("/" ++ b) with (String "/" b).
    apply path_Split_String, Hb.
Qed.

(** The directory of a plain name joined to a cleaned path is that
      path. *)
Lemma Dir_Join_Clean y b :
    plain_name b = true ->
    path_Dir (filepath_Join [path_Clean y; b]) = path_Clean y /\
    snd (path_Split (filepath_Join [path_Clean y; b])) = b.
Proof.
    intros Hb. pose proof (plain_name_no_slash b Hb) as Hs.
    assert (Hjoin : filepath_Join [path_Clean y; b] = path_Clean (path_Clean y ++ "/" ++ b)).
    { unfold filepath_Join. cbn [drop_empty_front].
      destruct (String.eqb_spec (path_Clean y) EmptyString) as [E|_];
        [destruct (path_Clean_nonempty y E)|reflexivity]. }
    rewrite Hjoin. clear Hjoin.
    destruct (path_Clean_render y) as (st & Hst & ->).
    set (r := rooted y) in *. clearbody r.
    rewrite (Clean_render_slash r st b Hst Hs), clean_push by exact Hb.
    cbn [clean_elems rev].
    pose proof (clean_stack_elems r st Hst) as HE.
    unfold path_Dir.
    destruct (rev st) as [|e E] eqn:Erev.
    - (* the cleaned path is the root or the current directory *)
      cbn [app]. unfold render. cbn [join_slash].
      destruct r.
      + change ("/" ++ b) with (EmptyString ++ "/" ++ b).
        rewrite (path_Split_app EmptyString b Hs). split; reflexivity.
      + destruct (String.eqb_spec b EmptyString) as [->|_]; [discriminate Hb|].
        rewrite (path_Split_no_slash b Hs). split; reflexivity.
    - assert (Hrender : render r ((e :: E) ++ [b]) = render r (e :: E) ++ "/" ++ b).
      { unfold render. rewrite join_snoc by congruence.
        destruct (join_nonempty (e :: E) ltac:(congruence) HE) as [Hne _].
        destruct r; [rewrite append_assoc'; reflexivity|].
        destruct (String.eqb_spec (join_slash (e :: E)) EmptyString); [contradiction|].
        destruct (String.eqb_spec (join_slash (e :: E) ++ "/" ++ b) EmptyString) as [E0|_];
          [|reflexivity].
        destruct (join_slash (e :: E)); [contradiction|discriminate E0]. }
      rewrite Hrender, (path_Split_app _ b Hs). cbn [fst snd]. split; [|reflexivity].
      rewrite <- Erev.
      change (render r (rev st) ++ "/") with (render r (rev st) ++ "/" ++ EmptyString).
      rewrite (Clean_render_slash r st EmptyString Hst eq_refl).
      reflexivity.
Qed.

Lemma filepath_Join_cases elems :
    filepath_Join elems = EmptyString \/ exists y, filepath_Join elems = path_Clean y.
Proof.
    unfold filepath_Join. destruct (drop_empty_front elems); [left|right; eexists]; reflexivity.
Qed.

(** X30. [AddMovie] moves the file to the join of the store directory
      and of the file's base name.  When that base name is the name of a
      file and the store directory is not the empty string, the directory
      of the new path is the store directory itself: the movie as
      [AddMovie] rewrites it passes the in-place test of [AddMovie]. *)
Theorem AddMovie_new_path_in_place (l : Config) (movie : Movie.t) :
    plain_name (path_Base (Movie.Path movie)) = true ->
    getMovieDir l movie <> EmptyString ->
    path_Dir (filepath_Join [getMovieDir l movie; path_Base (Movie.Path movie)])
    = getMovieDir l movie.
Proof.
    intros Hb Hne.
    assert (Hc : exists y, getMovieDir l movie = path_Clean y).
    { unfold getMovieDir in *.
      destruct (negb (Movie.Year movie =? 0)%Z);
        match type of Hne with
        | filepath_Join ?e <> _ => destruct (filepath_Join_cases e) as [E|E]
        end; [contradiction|exact E|contradiction|exact E]. }
    destruct Hc as [y ->]. apply (Dir_Join_Clean y _ Hb).
Qed.

End PathTheory.

(** ** The further properties on the example libraries *)

Module FurtherExampleFacts.
Import GoPath State Sys Index Library Rebuild Claims Examples MoreExamples.
Import Server Names Outcomes.
Local Open Scope string_scope.

Lemma with_bar_showIndex :
    showIndex with_bar = {["tt100" := {[1 := {[1 := "/shows/Bar/Season 1/e1.mkv"]}]}]}.
Proof. vm_compute. reflexivity. Qed.

Lemma with_bar_nonempty_ancestors : nonempty_ancestors (showIndex with_bar).
Proof.
    rewrite with_bar_showIndex. intros id seasons H.
    apply lookup_singleton_Some in H. destruct H as [_ <-].
    split; [apply insert_non_empty|]. intros s episodes H.
    apply lookup_singleton_Some in H. destruct H as [_ <-]. apply insert_non_empty.
Qed.

Lemma downloads_nonempty_ancestors : nonempty_ancestors (showIndex downloads).
Proof. intros id seasons H. cbn in H. rewrite lookup_empty in H. discriminate H. Qed.

Lemma AddMovie_installs_witness :
    movieIndex with_foo !! "tt001" = Some "/movies/Foo (2020)/foo.mkv".
Proof.
    refine (proj1 (IngestOutcomeFacts.AddMovie_installs quiet_outside cfg foo downloads _ _)).
    - vm_compute. discriminate.
    - vm_compute. reflexivity.
Defined.

Lemma AddShowEpisode_installs_witness :
    episode_of with_bar "tt100" 1 1 = Some "/shows/Bar/Season 1/e1.mkv".
Proof.
    refine (proj1 (IngestOutcomeFacts.AddShowEpisode_installs quiet_outside cfg bar_1_1
                     downloads _ _)).
    - vm_compute. discriminate.
    - vm_compute. reflexivity.
Defined.

Lemma DeleteShowEpisode_keeps_ancestors_witness :
    nonempty_ancestors
      (showIndex (world (DeleteShowEpisode quiet_outside cfg bar_1_1_stored with_bar))).
Proof.
    refine (DeleteIndexFacts.DeleteShowEpisode_keeps_ancestors_nonempty quiet_outside cfg
              bar_1_1_stored with_bar _ _).
    - exact with_bar_nonempty_ancestors.
    - vm_compute. reflexivity.
Defined.

Lemma DeleteShowEpisode_not_indexed_witness :
    res (DeleteShowEpisode quiet_outside cfg bar_1_1 downloads) = Err ErrNotFound.
Proof.
    refine (proj1 (DeleteIndexFacts.DeleteShowEpisode_not_indexed quiet_outside cfg bar_1_1
                     downloads _ _ _)).
    - intros q. reflexivity.
    - discriminate.
    - vm_compute. reflexivity.
Defined.

Lemma RebuildIndex_movies_load_witness :
    existsb (String.eqb (path_Ext "/movies/Foo (2020)/foo.mkv")) (VideoExtentions cfg) = true.
Proof.
    refine (proj1 (RebuiltIndexFacts.RebuildIndex_movies_load quiet_outside cfg true with_foo
                     "tt001" "/movies/Foo (2020)/foo.mkv" _)).
    vm_compute. reflexivity.
Defined.

Lemma RebuildIndex_episodes_load_witness :
    existsb (String.eqb (path_Ext "/shows/Bar/Season 1/e1.mkv")) (VideoExtentions cfg) = true.
Proof.
    refine (proj1 (RebuiltIndexFacts.RebuildIndex_episodes_load quiet_outside cfg true with_bar
                     "tt100" 1 1 "/shows/Bar/Season 1/e1.mkv" _)).
    vm_compute. reflexivity.
Defined.

Lemma AddMovie_again_witness :
    res (AddMovie quiet_outside cfg foo_in_place with_foo) = Ok tt.
Proof.
    refine (proj1 (LookupFacts.AddMovie_again_removes_the_movie quiet_outside cfg foo_in_place
                     foo_stored with_foo "/movies/Foo (2020)/foo.mkv" _ _ _ _ _ _)).
    - intros q. reflexivity.
    - discriminate.
    - vm_compute. reflexivity.
    - vm_compute. reflexivity.
    - vm_compute. reflexivity.
    - reflexivity.
Defined.

Lemma AddShowEpisode_again_witness :
    episode_of (world (AddShowEpisode quiet_outside cfg bar_1_1_in_place with_bar))
      "tt100" 1 1 = None.
Proof.
    refine (proj1 (LookupFacts.AddShowEpisode_again_removes_the_episode quiet_outside cfg
                     bar_1_1_in_place bar_1_1_stored with_bar "/shows/Bar/Season 1/e1.mkv"
                     _ _ _ _ _ _ _ _)).
    - discriminate.
    - vm_compute. reflexivity.
    - vm_compute. reflexivity.
    - vm_compute. reflexivity.
    - reflexivity.
    - reflexivity.
    - reflexivity.
    - vm_compute. reflexivity.
Defined.

Lemma deleteMovie_handler_witness :
    trace (deleteMovie quiet_outside cfg "tt001" with_foo)
    = [EvRemoveAll "/movies/Foo (2020)"; EvMovieIndexRemove "tt001"].
Proof.
    refine (proj1 (proj2 (HandlerFacts.deleteMovie_handler quiet_outside cfg "tt001"
                            "/movies/Foo (2020)/foo.mkv" foo_stored with_foo _ _ _))).
    - intros q. reflexivity.
    - vm_compute. reflexivity.
    - vm_compute. reflexivity.
Defined.

Lemma searchByTitle_witness :
    snd (Tmdb.searchByTitle unit unit search_alien length_gap alien) = None.
Proof.
    refine (proj1 (TmdbFacts.searchByTitle_picks_closest unit unit search_alien length_gap
                     alien alien_results _ _ _ _)).
    - discriminate.
    - reflexivity.
    - reflexivity.
    - discriminate.
Defined.

Lemma GetDetails_prefers_imdb_witness :
    Tmdb.TmdbID unit
      (Tmdb.movie_of unit
         (fst (Tmdb.GetDetails unit unit search_alien find_alien no_details length_gap
                 no_year (Tmdb.AMovie unit alien_by_id)))
         alien_by_id) = 348.
Proof.
    refine (TmdbFacts.GetDetails_prefers_imdb unit unit search_alien find_alien no_details
              length_gap no_year alien_by_id (Tmdb.mkMovieShort 348 "Alien") [] _ _ _ _).
    - discriminate.
    - reflexivity.
    - reflexivity.
    - discriminate.
Defined.

Lemma GetDetails_no_close_title_witness :
    Tmdb.GetDetails unit unit search_alien find_alien no_details far_apart no_year
      (Tmdb.AMovie unit alien)
    = (Tmdb.AMovie unit alien, Some (Tmdb.ErrFailedToGetDetails unit)).
Proof.
    refine (TmdbFacts.GetDetails_no_close_title unit unit search_alien find_alien no_details
              far_apart no_year alien alien_results _ _ _ _ _ _).
    - reflexivity.
    - discriminate.
    - reflexivity.
    - reflexivity.
    - discriminate.
    - repeat constructor; vm_compute; discriminate.
Defined.

Lemma Remove_witness :
    Transmission.Remove unit unit removes_all Z unit idle_client
      (Transmission.Infos Z Z unit (Z.eqb 1) (Z.mul 100) (fun x => x) (fun _ => tt)
         (Some torrent_42))
    = None.
Proof.
    refine (proj1 (TransmissionFacts.Remove_of_a_listed_torrent unit unit removes_all Z Z unit
                     (Z.eqb 1) (Z.mul 100) (fun x => x) (fun _ => tt) idle_client torrent_42
                     _)).
    vm_compute. split; discriminate.
Defined.

Lemma AddShowEpisode_keeps_ancestors_witness :
    nonempty_ancestors (showIndex with_bar).
Proof.
    refine (AncestorFacts.AddShowEpisode_keeps_ancestors_nonempty quiet_outside cfg bar_1_1
              downloads _ _).
    - exact downloads_nonempty_ancestors.
    - vm_compute. reflexivity.
Defined.

Lemma AddMovie_new_path_witness :
    path_Dir (filepath_Join [getMovieDir cfg foo; path_Base (Movie.Path foo)])
    = getMovieDir cfg foo.
Proof.
    refine (PathTheory.AddMovie_new_path_in_place cfg foo _ _).
    - vm_compute. reflexivity.
    - vm_compute. discriminate.
Defined.

End FurtherExampleFacts.
